(** * Single-producer/single-consumer queues of [spscq.h]

    A shallow embedding of [src/WindFlow/HeavyHitter/includes/util/spscq.h]:
    the Lamport queue (plain, cached and two-phase batch interfaces) and the
    FastForward queue (basic and improved), followed by the properties the
    specification states about them.

    Conventions of the embedding.
    - [unsigned int] is a [Z] in [0, 2^32); every C operation that can leave
      that range is followed by [wrap32].  [size_t]/[uintptr_t] arithmetic is
      64 bits wide ([wrap64]); [sizeof(uintptr_t)] is 8 (LP64).
    - A function that mutates the queue returns the C result paired with the
      queue after the call.
    - The trailing slot array [q[0]] is a [list Z] read with [load] and
      written with stdpp's [<[i:=v]>].  A store outside the list is dropped
      and a load outside it yields 0; C gives such accesses no meaning, and
      the theorems that depend on slot contents assume the array has as many
      slots as the mask addresses.
    - [compiler_barrier], [ACCESS_ONCE], [likely]/[unlikely] and [SMAP] (the
      identity by default) have no sequential content and are omitted, as is
      the text printed by a failing init. *)

From Stdlib Require Import ZArith Lia Bool.
From stdpp Require Import base list.

Local Open Scope Z_scope.

(** ** Machine integers *)

Definition wrap32 (x : Z) : Z := x mod 4294967296.
Definition wrap64 (x : Z) : Z := x mod 18446744073709551616.

(** Conversion of an [unsigned int] to [int] (two's complement). *)
Definition to_int (x : Z) : Z :=
  let y := wrap32 x in if y <? 2147483648 then y else y - 4294967296.

Definition sizeof_uintptr_t : Z := 8.
Definition SPSCQ_CACHELINE_SIZE : Z := 64.

(** [<errno.h>] is not part of the sources; the Linux values are used. *)
Definition EINVAL : Z := 22.
Definition ENOBUFS : Z := 105.

(** [!x || !(x & (x - 1))] on an [int].  For [INT_MIN] the subtraction
    overflows; the model takes the two's-complement result. *)
Definition is_power_of_two (x : Z) : bool :=
  (x =? 0) || (Z.land x (to_int (x - 1)) =? 0).

(** [q[i]] as an rvalue and [q[i] = v]. *)
Definition load (l : list Z) (i : Z) : Z := default 0 (l !! Z.to_nat i).
Definition store (l : list Z) (i : Z) (v : Z) : list Z := <[Z.to_nat i := v]> l.

(** ** Queues based on the Lamport queue *)

Module Lamport.

Record Blq : Type := mkBlq {
  (* Producer private data. *)
  write_priv : Z;
  read_shadow : Z;
  (* Producer write, consumer read. *)
  write : Z;
  (* Consumer private data. *)
  read_priv : Z;
  write_shadow : Z;
  (* Producer read, consumer write. *)
  read : Z;
  (* Shared read only data. *)
  qlen : Z;
  qmask : Z;
  (* The queue. *)
  q : list Z
}.

Definition set_write_priv (v : Z) (b : Blq) : Blq :=
  mkBlq v (read_shadow b) (write b) (read_priv b) (write_shadow b) (read b)
        (qlen b) (qmask b) (q b).
Definition set_read_shadow (v : Z) (b : Blq) : Blq :=
  mkBlq (write_priv b) v (write b) (read_priv b) (write_shadow b) (read b)
        (qlen b) (qmask b) (q b).
Definition set_write (v : Z) (b : Blq) : Blq :=
  mkBlq (write_priv b) (read_shadow b) v (read_priv b) (write_shadow b) (read b)
        (qlen b) (qmask b) (q b).
Definition set_read_priv (v : Z) (b : Blq) : Blq :=
  mkBlq (write_priv b) (read_shadow b) (write b) v (write_shadow b) (read b)
        (qlen b) (qmask b) (q b).
Definition set_write_shadow (v : Z) (b : Blq) : Blq :=
  mkBlq (write_priv b) (read_shadow b) (write b) (read_priv b) v (read b)
        (qlen b) (qmask b) (q b).
Definition set_read (v : Z) (b : Blq) : Blq :=
  mkBlq (write_priv b) (read_shadow b) (write b) (read_priv b) (write_shadow b) v
        (qlen b) (qmask b) (q b).
Definition set_qlen (v : Z) (b : Blq) : Blq :=
  mkBlq (write_priv b) (read_shadow b) (write b) (read_priv b) (write_shadow b)
        (read b) v (qmask b) (q b).
Definition set_qmask (v : Z) (b : Blq) : Blq :=
  mkBlq (write_priv b) (read_shadow b) (write b) (read_priv b) (write_shadow b)
        (read b) (qlen b) v (q b).
Definition set_q (l : list Z) (b : Blq) : Blq :=
  mkBlq (write_priv b) (read_shadow b) (write b) (read_priv b) (write_shadow b)
        (read b) (qlen b) (qmask b) l.

(** [SPSCQ_CACHELINE_SIZE / sizeof(uintptr_t)], a [size_t]. *)
Definition line_slots : Z := SPSCQ_CACHELINE_SIZE / sizeof_uintptr_t.

Definition blq_init (blq : Blq) (qlen : Z) : Z * Blq :=
  if (qlen <? 2) || negb (is_power_of_two qlen) then (-1, blq)
  else (0, set_qmask (wrap32 (qlen - 1)) (set_qlen (wrap32 qlen) blq)).

Definition lq_write (b : Blq) (m : Z) : Z * Blq :=
  let w := write b in
  let next := Z.land (wrap32 (w + 1)) (qmask b) in
  if next =? read b then (-1, b) (* no space *)
  else (0, set_write next (set_q (store (q b) w m) b)).

Definition lq_read (b : Blq) : Z * Blq :=
  let r := read b in
  if r =? write b then (0, b) (* queue empty *)
  else
    let m := load (q b) r in
    (m, set_read (Z.land (wrap32 (r + 1)) (qmask b)) b).

Definition llq_write (b : Blq) (m : Z) : Z * Blq :=
  let w := write b in
  let check := wrap32 (Z.land (wrap64 (w + line_slots)) (qmask b)) in
  let b1 := if check =? read_shadow b then set_read_shadow (read b) b else b in
  if check =? read_shadow b1 then (-1, b1) (* no space *)
  else (0, set_write (Z.land (wrap32 (w + 1)) (qmask b1))
                     (set_q (store (q b1) w m) b1)).

Definition llq_read (b : Blq) : Z * Blq :=
  let r := read_priv b in
  let b1 := if r =? write_shadow b then set_write_shadow (write b) b else b in
  if (r =? write_shadow b) && (r =? write_shadow b1) then (0, b1) (* queue empty *)
  else
    let m := load (q b1) r in
    let r' := Z.land (wrap32 (r + 1)) (qmask b1) in
    (m, set_read r' (set_read_priv r' b1)).

Definition blq_wspace (blq : Blq) (needed : Z) : Z * Blq :=
  let space :=
    wrap32 (Z.land (wrap64 (read_shadow blq - line_slots - write_priv blq))
                   (qmask blq)) in
  if needed <=? space then (space, blq)
  else
    let blq' := set_read_shadow (read blq) blq in
    (wrap32 (Z.land (wrap64 (read_shadow blq' - line_slots - write_priv blq'))
                    (qmask blq')),
     blq').

(** No boundary checks, to be called after [blq_wspace]. *)
Definition blq_write_local (blq : Blq) (m : Z) : Blq :=
  set_write_priv (wrap32 (write_priv blq + 1))
    (set_q (store (q blq) (Z.land (write_priv blq) (qmask blq)) m) blq).

Definition blq_write_publish (blq : Blq) : Blq :=
  set_write (write_priv blq) blq.

Definition blq_rspace (blq : Blq) (needed : Z) : Z * Blq :=
  let space := wrap32 (write_shadow blq - read_priv blq) in
  if needed <=? space then (space, blq)
  else
    let blq' := set_write_shadow (write blq) blq in
    (wrap32 (write_shadow blq' - read_priv blq'), blq').

(** No boundary checks, to be called after [blq_rspace]. *)
Definition blq_read_local (blq : Blq) : Z * Blq :=
  let m := load (q blq) (Z.land (read_priv blq) (qmask blq)) in
  (m, set_read_priv (wrap32 (read_priv blq + 1)) blq).

Definition blq_read_publish (blq : Blq) : Blq :=
  set_read (read_priv blq) blq.

(** Sequences of calls, as a caller's loop makes them. *)
Fixpoint lq_write_all (b : Blq) (vs : list Z) : list Z * Blq :=
  match vs with
  | [] => ([], b)
  | v :: vs' =>
      let '(r, b1) := lq_write b v in
      let '(rs, b2) := lq_write_all b1 vs' in
      (r :: rs, b2)
  end.

Fixpoint lq_read_n (n : nat) (b : Blq) : list Z * Blq :=
  match n with
  | O => ([], b)
  | S n' =>
      let '(m, b1) := lq_read b in
      let '(ms, b2) := lq_read_n n' b1 in
      (m :: ms, b2)
  end.

Definition blq_write_local_all (blq : Blq) (vs : list Z) : Blq :=
  foldl blq_write_local blq vs.

Fixpoint blq_read_local_n (n : nat) (b : Blq) : list Z * Blq :=
  match n with
  | O => ([], b)
  | S n' =>
      let '(m, b1) := blq_read_local b in
      let '(ms, b2) := blq_read_local_n n' b1 in
      (m :: ms, b2)
  end.

(** Zero-filled storage for a queue of [n] slots, before [blq_init]. *)
Definition blq_zeroed (n : Z) : Blq :=
  mkBlq 0 0 0 0 0 0 0 0 (replicate (Z.to_nat n) 0).

(** What [blq_init] establishes, together with a slot array of [qlen] slots. *)
Definition blq_ok (b : Blq) : bool :=
  (2 <=? qlen b) && (qlen b <? 2147483648) && is_power_of_two (qlen b)
  && (qmask b =? qlen b - 1) && (Z.of_nat (length (q b)) =? qlen b).

(** The cursors of the plain interface are slot indices. *)
Definition lq_cursors_ok (b : Blq) : bool :=
  (0 <=? write b) && (write b <? qlen b) && (0 <=? read b) && (read b <? qlen b).

(** Items written and not yet read by the plain interface, oldest first. *)
Definition lq_count (b : Blq) : Z := (write b - read b) mod qlen b.

Definition lq_contents (b : Blq) : list Z :=
  (fun i => load (q b) ((read b + i) mod qlen b)) <$> seqZ 0 (lq_count b).

End Lamport.

(** ** FastForward queue (basic and improved) *)

Module FastForward.

Definition IFFQ_PROD_CACHE_ENTRIES : Z := 256.

Record Iffq : Type := mkIffq {
  prod_cache : list Z;
  (* Shared (constant) fields. *)
  entry_mask : Z;
  line_entries : Z;
  line_mask : Z;
  (* Producer fields. *)
  prod_write : Z;
  prod_check : Z;
  prod_cache_write : Z;
  (* Consumer fields. *)
  cons_clear : Z;
  cons_read : Z;
  (* The queue. *)
  q : list Z
}.

Definition set_prod_cache (l : list Z) (f : Iffq) : Iffq :=
  mkIffq l (entry_mask f) (line_entries f) (line_mask f) (prod_write f)
         (prod_check f) (prod_cache_write f) (cons_clear f) (cons_read f) (q f).
Definition set_entry_mask (v : Z) (f : Iffq) : Iffq :=
  mkIffq (prod_cache f) v (line_entries f) (line_mask f) (prod_write f)
         (prod_check f) (prod_cache_write f) (cons_clear f) (cons_read f) (q f).
Definition set_line_entries (v : Z) (f : Iffq) : Iffq :=
  mkIffq (prod_cache f) (entry_mask f) v (line_mask f) (prod_write f)
         (prod_check f) (prod_cache_write f) (cons_clear f) (cons_read f) (q f).
Definition set_line_mask (v : Z) (f : Iffq) : Iffq :=
  mkIffq (prod_cache f) (entry_mask f) (line_entries f) v (prod_write f)
         (prod_check f) (prod_cache_write f) (cons_clear f) (cons_read f) (q f).
Definition set_prod_write (v : Z) (f : Iffq) : Iffq :=
  mkIffq (prod_cache f) (entry_mask f) (line_entries f) (line_mask f) v
         (prod_check f) (prod_cache_write f) (cons_clear f) (cons_read f) (q f).
Definition set_prod_check (v : Z) (f : Iffq) : Iffq :=
  mkIffq (prod_cache f) (entry_mask f) (line_entries f) (line_mask f)
         (prod_write f) v (prod_cache_write f) (cons_clear f) (cons_read f) (q f).
Definition set_prod_cache_write (v : Z) (f : Iffq) : Iffq :=
  mkIffq (prod_cache f) (entry_mask f) (line_entries f) (line_mask f)
         (prod_write f) (prod_check f) v (cons_clear f) (cons_read f) (q f).
Definition set_cons_clear (v : Z) (f : Iffq) : Iffq :=
  mkIffq (prod_cache f) (entry_mask f) (line_entries f) (line_mask f)
         (prod_write f) (prod_check f) (prod_cache_write f) v (cons_read f) (q f).
Definition set_cons_read (v : Z) (f : Iffq) : Iffq :=
  mkIffq (prod_cache f) (entry_mask f) (line_entries f) (line_mask f)
         (prod_write f) (prod_check f) (prod_cache_write f) (cons_clear f) v (q f).
Definition set_q (l : list Z) (f : Iffq) : Iffq :=
  mkIffq (prod_cache f) (entry_mask f) (line_entries f) (line_mask f)
         (prod_write f) (prod_check f) (prod_cache_write f) (cons_clear f)
         (cons_read f) l.

Definition ffq_write (ffq : Iffq) (m : Z) : Z * Iffq :=
  let qslot := Z.land (prod_write ffq) (entry_mask ffq) in
  if negb (load (q ffq) qslot =? 0) then (-1, ffq) (* no space *)
  else (0, set_prod_write (wrap32 (prod_write ffq + 1))
                          (set_q (store (q ffq) qslot m) ffq)).

Definition ffq_read (ffq : Iffq) : Z * Iffq :=
  let qslot := Z.land (cons_read ffq) (entry_mask ffq) in
  let m := load (q ffq) qslot in
  if negb (m =? 0)
  then (m, set_cons_read (wrap32 (cons_read ffq + 1))
                         (set_q (store (q ffq) qslot 0) ffq)) (* clear *)
  else (m, ffq).

(** The garbage loop of [iffq_init]:
    [for (i = cons_clear; i != cons_read; i++) q[i] = 1].  [fuel] bounds the
    number of iterations; [iffq_init] passes the distance from [i] to [stop]. *)
Fixpoint iffq_init_fill (fuel : nat) (i stop : Z) (l : list Z) : list Z :=
  match fuel with
  | O => l
  | S fuel' =>
      if i =? stop then l
      else iffq_init_fill fuel' (wrap32 (i + 1)) stop (store l i 1)
  end.

Definition iffq_init (ffq : Iffq) (entries line_size improved : Z) : Z * Iffq :=
  if negb (is_power_of_two (to_int entries))
     || negb (is_power_of_two (to_int line_size))
     || (negb (improved =? 0)
         && (wrap64 (entries * sizeof_uintptr_t) <=? wrap32 (2 * line_size)))
     || (line_size <? sizeof_uintptr_t)
  then (- EINVAL, ffq)
  else
    let entries_per_line := wrap32 (line_size / sizeof_uintptr_t) in
    let f1 := set_line_entries entries_per_line ffq in
    let f2 := set_line_mask (wrap32 (Z.lnot (wrap32 (entries_per_line - 1)))) f1 in
    let f3 := set_entry_mask (wrap32 (entries - 1)) f2 in
    let f4 := set_cons_clear 0 f3 in
    let f5 := set_cons_read (line_entries f4) f4 in
    let f6 := set_prod_write (line_entries f5) f5 in
    let f7 := set_prod_check (line_entries f6) f6 in
    let f8 := set_prod_cache_write 0 f7 in
    if negb (improved =? 0)
    then (0, set_q (iffq_init_fill
                      (Z.to_nat (wrap32 (cons_read f8 - cons_clear f8)))
                      (cons_clear f8) (cons_read f8) (q f8)) f8)
    else (0, f8).

Definition iffq_insert (ffq : Iffq) (m : Z) : Z * Iffq :=
  let stop :=
    (prod_write ffq =? prod_check ffq)
    && negb (load (q ffq)
                  (Z.land (wrap32 (prod_check ffq + line_entries ffq))
                          (entry_mask ffq)) =? 0) in
  if stop then (- ENOBUFS, ffq)
  else
    let f1 :=
      if prod_write ffq =? prod_check ffq
      then set_prod_check (wrap32 (prod_check ffq + line_entries ffq)) ffq
      else ffq in
    (0, set_prod_write (wrap32 (prod_write f1 + 1))
          (set_q (store (q f1) (Z.land (prod_write f1) (entry_mask f1)) m) f1)).

Definition iffq_wspace (ffq : Iffq) (needed : Z) : Z * Iffq :=
  let space := wrap32 (prod_check ffq - prod_write ffq) in
  if needed <=? space then (space, ffq)
  else
    let next_check := wrap32 (prod_check ffq + line_entries ffq) in
    if negb (load (q ffq) (Z.land next_check (entry_mask ffq)) =? 0)
    then (space, ffq)
    else (wrap32 (next_check - prod_write ffq), set_prod_check next_check ffq).

Definition iffq_insert_local (ffq : Iffq) (m : Z) : Iffq :=
  set_prod_cache_write (wrap32 (prod_cache_write ffq + 1))
    (set_prod_cache (store (prod_cache ffq) (prod_cache_write ffq) m) ffq).

(** The loop of [iffq_insert_publish]:
    [for (i = 0; i < prod_cache_write; i++, prod_write++)]. *)
Fixpoint iffq_insert_publish_loop (fuel : nat) (i : Z) (ffq : Iffq) : Iffq :=
  match fuel with
  | O => ffq
  | S fuel' =>
      if i <? prod_cache_write ffq
      then iffq_insert_publish_loop fuel' (wrap32 (i + 1))
             (set_prod_write (wrap32 (prod_write ffq + 1))
                (set_q (store (q ffq)
                              (Z.land (prod_write ffq) (entry_mask ffq))
                              (load (prod_cache ffq) i)) ffq))
      else ffq
  end.

Definition iffq_insert_publish (ffq : Iffq) : Iffq :=
  set_prod_cache_write 0
    (iffq_insert_publish_loop (Z.to_nat (prod_cache_write ffq)) 0 ffq).

Definition iffq_extract (ffq : Iffq) : Z * Iffq :=
  let m := load (q ffq) (Z.land (cons_read ffq) (entry_mask ffq)) in
  if negb (m =? 0) then (m, set_cons_read (wrap32 (cons_read ffq + 1)) ffq)
  else (m, ffq).

(** The loop of [iffq_clear]: [for (; cons_clear != s; cons_clear++)]. *)
Fixpoint iffq_clear_loop (fuel : nat) (s : Z) (ffq : Iffq) : Iffq :=
  match fuel with
  | O => ffq
  | S fuel' =>
      if cons_clear ffq =? s then ffq
      else iffq_clear_loop fuel' s
             (set_cons_clear (wrap32 (cons_clear ffq + 1))
                (set_q (store (q ffq)
                              (Z.land (cons_clear ffq) (entry_mask ffq)) 0) ffq))
  end.

Definition iffq_clear_bound (ffq : Iffq) : Z :=
  Z.land (wrap32 (cons_read ffq - line_entries ffq)) (line_mask ffq).

Definition iffq_clear (ffq : Iffq) : Iffq :=
  let s := iffq_clear_bound ffq in
  iffq_clear_loop (Z.to_nat (wrap32 (s - cons_clear ffq))) s ffq.

(** Sequences of calls. *)
Fixpoint iffq_insert_all (ffq : Iffq) (vs : list Z) : list Z * Iffq :=
  match vs with
  | [] => ([], ffq)
  | v :: vs' =>
      let '(r, f1) := iffq_insert ffq v in
      let '(rs, f2) := iffq_insert_all f1 vs' in
      (r :: rs, f2)
  end.

Definition iffq_insert_local_all (ffq : Iffq) (vs : list Z) : Iffq :=
  foldl iffq_insert_local ffq vs.

(** Zero-filled storage for a queue of [n] slots, before [iffq_init]. *)
Definition iffq_zeroed (n : Z) : Iffq :=
  mkIffq (replicate (Z.to_nat IFFQ_PROD_CACHE_ENTRIES) 0) 0 0 0 0 0 0 0 0
         (replicate (Z.to_nat n) 0).

(** The ring as [iffq_init] lays it out: [entry_mask + 1] slots, a power of
    two. *)
Definition iffq_ring_ok (f : Iffq) : bool :=
  (1 <=? entry_mask f + 1) && (entry_mask f + 1 <=? 2147483648)
  && is_power_of_two (to_int (entry_mask f + 1))
  && (Z.of_nat (length (q f)) =? entry_mask f + 1).

(** The line geometry as [iffq_init] computes it. *)
Definition iffq_line_ok (f : Iffq) : bool :=
  (1 <=? line_entries f) && (line_entries f <? 2147483648)
  && is_power_of_two (line_entries f)
  && (line_mask f =? wrap32 (Z.lnot (wrap32 (line_entries f - 1)))).

(** The ring index of the [i]-th slot after cursor [c]. *)
Definition ring_index (f : Iffq) (c i : Z) : Z :=
  Z.land (wrap32 (c + i)) (entry_mask f).

(** The producer after [t] inserts into a fresh ring of [E] slots with lines
    of [L]: the checkpoint is the first multiple of [L] at or after the write
    cursor, slot 0 still holds the garbage of [iffq_init], and nothing at or
    after the write cursor has been written. *)
Definition insert_inv (E L : Z) (f : Iffq) (t : Z) : Prop :=
  entry_mask f = E - 1 /\ line_entries f = L /\
  prod_write f = L + t /\ (exists c, prod_check f = c * L) /\
  prod_write f <= prod_check f < prod_write f + L /\
  load (q f) 0 = 1 /\ (forall i, prod_write f <= i -> load (q f) i = 0).

End FastForward.

(** ** The two-phase protocol of the Lamport batch interface

    The comments of [blq_write_local] and [blq_read_local] state the
    protocol: no boundary checks, to be called after [blq_wspace]
    (resp. [blq_rspace]).  A producer therefore holds a credit, the last
    result of [blq_wspace], and spends one unit per [blq_write_local]; the
    consumer does the same with [blq_rspace] and [blq_read_local].  Every
    call reads or writes at most one shared cursor, so interleaving whole
    calls loses no behaviour of the two threads. *)

Module TwoPhase.
Import Lamport.

Inductive op : Type :=
  | Wspace (needed : Z)
  | WriteLocal (m : Z)
  | WritePublish
  | Rspace (needed : Z)
  | ReadLocal
  | ReadPublish.

Record proto : Type := mkProto {
  blq : Blq;
  wcredit : Z;   (* slots granted to the producer and not yet written *)
  rcredit : Z    (* items granted to the consumer and not yet read *)
}.

(** One call; [None] when the call is not allowed by the protocol. *)
Definition exec (st : proto) (o : op) : option proto :=
  match o with
  | Wspace needed =>
      let '(space, b) := blq_wspace (blq st) (wrap32 needed) in
      Some (mkProto b space (rcredit st))
  | WriteLocal m =>
      if 0 <? wcredit st
      then Some (mkProto (blq_write_local (blq st) m) (wcredit st - 1) (rcredit st))
      else None
  | WritePublish =>
      Some (mkProto (blq_write_publish (blq st)) (wcredit st) (rcredit st))
  | Rspace needed =>
      let '(space, b) := blq_rspace (blq st) (wrap32 needed) in
      Some (mkProto b (wcredit st) space)
  | ReadLocal =>
      if 0 <? rcredit st
      then Some (mkProto (snd (blq_read_local (blq st))) (wcredit st) (rcredit st - 1))
      else None
  | ReadPublish =>
      Some (mkProto (blq_read_publish (blq st)) (wcredit st) (rcredit st))
  end.

Fixpoint exec_all (st : proto) (ops : list op) : option proto :=
  match ops with
  | [] => Some st
  | o :: ops' =>
      match exec st o with
      | Some st' => exec_all st' ops'
      | None => None
      end
  end.

(** A queue of [n] slots: zero-filled storage accepted by [blq_init]. *)
Definition start (n : Z) : option proto :=
  let '(r, b) := blq_init (blq_zeroed n) n in
  if r =? 0 then Some (mkProto b 0 0) else None.

Definition reachable (n : Z) (st : proto) : Prop :=
  exists st0 ops, start n = Some st0 /\ exec_all st0 ops = Some st.

(** Slots the two-phase producer can ever be granted: the capacity less one
    cache line of slots, and none when the ring is shorter than a line. *)
Definition blq_batch_capacity (b : Blq) : Z := Z.max 0 (qlen b - line_slots).

(** The shape [blq_init] gives the ring. *)
Definition blq_shape (b : Blq) : Prop :=
  exists k, 1 <= k <= 30 /\ qlen b = 2 ^ k /\ qmask b = 2 ^ k - 1.

(** The cursors run free modulo 2^32.  In the order read shadow, read, private
    read, write shadow, write, private write each is at or ahead of the one
    before; the five gaps and the producer's credit fit in the batch
    capacity, and the consumer's credit fits in the gap it reads from. *)
Definition protocol_inv (st : proto) : Prop :=
  let b := blq st in
  blq_shape b /\
  (0 <= read_shadow b < 4294967296 /\ 0 <= read b < 4294967296 /\
   0 <= read_priv b < 4294967296 /\ 0 <= write_shadow b < 4294967296 /\
   0 <= write b < 4294967296 /\ 0 <= write_priv b < 4294967296) /\
  0 <= wcredit st /\ 0 <= rcredit st /\
  rcredit st <= wrap32 (write_shadow b - read_priv b) /\
  wrap32 (read b - read_shadow b) + wrap32 (read_priv b - read b)
  + wrap32 (write_shadow b - read_priv b) + wrap32 (write b - write_shadow b)
  + wrap32 (write_priv b - write b) + wcredit st
  <= blq_batch_capacity b.

End TwoPhase.

(** ** Sizing and diagnostics *)

Module Sizes.
Import Lamport.

Definition SPSCQ_ALIGN_SIZE : Z := 128.

(** [((_sz + SPSCQ_ALIGN_SIZE - 1) & (~(SPSCQ_ALIGN_SIZE - 1)))] on a
    [size_t]. *)
Definition SPSCQ_ALIGNED_SIZE (sz : Z) : Z :=
  Z.land (wrap64 (sz + SPSCQ_ALIGN_SIZE - 1))
         (wrap64 (Z.lnot (SPSCQ_ALIGN_SIZE - 1))).

(** [blq_size] and [iffq_size].  [hdr] stands for [sizeof(struct Blq)]
    (resp. [sizeof(struct Iffq)]), which the compiler's layout fixes. *)
Definition blq_size (hdr qlen : Z) : Z :=
  SPSCQ_ALIGNED_SIZE (wrap64 (hdr + wrap64 (wrap64 qlen * sizeof_uintptr_t))).

Definition iffq_size (hdr entries : Z) : Z :=
  SPSCQ_ALIGNED_SIZE (wrap64 (hdr + wrap64 (entries * sizeof_uintptr_t))).

(** What [blq_dump] does to the queue before it prints: it calls
    [blq_wspace] and then [blq_rspace], both with [qlen]. *)
Definition blq_dump (blq : Blq) : Blq :=
  snd (blq_rspace (snd (blq_wspace blq (qlen blq))) (qlen blq)).

End Sizes.

(** ** Runs of enqueue and dequeue calls, and the queue they should be *)

Module Fifo.
Import Lamport.

Inductive qop : Type :=
  | Enq (m : Z)
  | Deq.

(** A bounded first-in first-out queue: the reference the variants are
    compared with.  Enqueue returns 0, or -1 when [cap] items are held;
    dequeue returns the oldest item, or 0 when there is none. *)
Definition fifo_step (cap : Z) (l : list Z) (o : qop) : Z * list Z :=
  match o with
  | Enq m => if Z.of_nat (length l) <? cap then (0, l ++ [m]) else (-1, l)
  | Deq => match l with
           | [] => (0, [])
           | x :: l' => (x, l')
           end
  end.

(** Results of a sequence of calls, in order, and the final state. *)
Fixpoint run {S : Type} (step : S -> qop -> Z * S) (s : S) (ops : list qop)
  : list Z * S :=
  match ops with
  | [] => ([], s)
  | o :: ops' =>
      let '(r, s1) := step s o in
      let '(rs, s2) := run step s1 ops' in
      (r :: rs, s2)
  end.

Definition lq_step (b : Blq) (o : qop) : Z * Blq :=
  match o with
  | Enq m => lq_write b m
  | Deq => lq_read b
  end.

Definition llq_step (b : Blq) (o : qop) : Z * Blq :=
  match o with
  | Enq m => llq_write b m
  | Deq => llq_read b
  end.

Definition ffq_step (f : FastForward.Iffq) (o : qop) : Z * FastForward.Iffq :=
  match o with
  | Enq m => FastForward.ffq_write f m
  | Deq => FastForward.ffq_read f
  end.

(** The calls of a run enqueue no zero. *)
Definition nonzero_enq (o : qop) : Prop :=
  match o with
  | Enq m => m <> 0
  | Deq => True
  end.

(** Items between the consumer's and the producer's cursor of a FastForward
    ring, oldest first. *)
Definition ffq_count (f : FastForward.Iffq) : Z :=
  wrap32 (FastForward.prod_write f - FastForward.cons_read f).

Definition ffq_contents (f : FastForward.Iffq) : list Z :=
  (fun i => load (FastForward.q f)
                 (FastForward.ring_index f (FastForward.cons_read f) i))
    <$> seqZ 0 (ffq_count f).

(** Slots the cached interface ([llq_write]) can fill: it stops one line
    short of the read cursor. *)
Definition llq_capacity (b : Blq) : Z := Z.max 0 (qlen b - line_slots).

(** States of the cached interface: [read_shadow] trails [read] by what the
    producer has not yet seen released, [write_shadow] is between [read] and
    [write], and unread items plus the trail fit in the capacity. *)
Definition llq_inv (b : Blq) : Prop :=
  blq_ok b = true /\ lq_cursors_ok b = true /\
  0 <= read_shadow b < qlen b /\ 0 <= write_shadow b < qlen b /\
  read_priv b = read b /\
  lq_count b + (read b - read_shadow b) mod qlen b <= llq_capacity b /\
  (write_shadow b - read b) mod qlen b <= lq_count b.

(** States of the basic FastForward ring: the slots from [cons_read] up to
    [prod_write] hold items (not the sentinel), the others the sentinel. *)
Definition ffq_inv (f : FastForward.Iffq) : Prop :=
  FastForward.iffq_ring_ok f = true /\
  0 <= FastForward.prod_write f < 4294967296 /\
  0 <= FastForward.cons_read f < 4294967296 /\
  ffq_count f <= FastForward.entry_mask f + 1 /\
  (forall i, 0 <= i < ffq_count f ->
     load (FastForward.q f)
          (FastForward.ring_index f (FastForward.cons_read f) i) <> 0) /\
  (forall i, ffq_count f <= i < FastForward.entry_mask f + 1 ->
     load (FastForward.q f)
          (FastForward.ring_index f (FastForward.cons_read f) i) = 0).

End Fifo.

(** ** Values through the two-phase interface *)

Module TwoPhaseTrace.
Import Lamport TwoPhase.

(** The values the [blq_read_local] calls of a run return, in order. *)
Fixpoint exec_reads (st : proto) (ops : list op) : list Z :=
  match ops with
  | [] => []
  | o :: ops' =>
      match exec st o with
      | Some st' =>
          match o with
          | ReadLocal => fst (blq_read_local (blq st)) :: exec_reads st' ops'
          | _ => exec_reads st' ops'
          end
      | None => []
      end
  end.

(** The values a run passes to [blq_write_local], in order. *)
Fixpoint written (ops : list op) : list Z :=
  match ops with
  | [] => []
  | WriteLocal m :: ops' => m :: written ops'
  | _ :: ops' => written ops'
  end.

(** How many of them the last [blq_write_publish] of the run covers, given
    that [w] were written and [p] published before it. *)
Fixpoint published_from (w p : nat) (ops : list op) : nat :=
  match ops with
  | [] => p
  | WriteLocal _ :: ops' => published_from (S w) p ops'
  | WritePublish :: ops' => published_from w w ops'
  | _ :: ops' => published_from w p ops'
  end.

Definition published (ops : list op) : nat := published_from 0 0 ops.

Fixpoint nreads (ops : list op) : nat :=
  match ops with
  | [] => O
  | ReadLocal :: ops' => S (nreads ops')
  | _ :: ops' => nreads ops'
  end.

(** A state of the protocol together with its history: the values [W]
    written so far, of which the first [P] are published and the first [R]
    read.  The cursors count them modulo 2^32, and the written values not yet
    read are in the ring, each at its number modulo the capacity. *)
Definition trace_inv (st : proto) (W : list Z) (P R : nat) : Prop :=
  let b := blq st in
  protocol_inv st /\
  write_priv b = wrap32 (Z.of_nat (length W)) /\
  write b = wrap32 (Z.of_nat P) /\
  read_priv b = wrap32 (Z.of_nat R) /\
  Z.of_nat (length W) - Z.of_nat P = wrap32 (write_priv b - write b) /\
  Z.of_nat P - Z.of_nat R
  = wrap32 (write_shadow b - read_priv b) + wrap32 (write b - write_shadow b) /\
  Z.of_nat (length (q b)) = qlen b /\
  (forall i : nat, (R <= i < length W)%nat ->
     W !! i = Some (load (q b) (Z.of_nat i mod qlen b))).

End TwoPhaseTrace.

(** ** Writing a run of values into a ring *)

Module RingFill.

(** [vs] stored at consecutive cursors from [c], each masked on access: what
    both the checked and the staged insert paths of the improved FastForward
    queue do to the slot array. *)
Fixpoint ring_fill (l : list Z) (mask c : Z) (vs : list Z) : list Z :=
  match vs with
  | [] => l
  | v :: vs' => ring_fill (store l (Z.land c mask) v) mask (wrap32 (c + 1)) vs'
  end.

End RingFill.

(** ** Runs of the improved FastForward queue *)

Module ImprovedRun.
Import FastForward.

Inductive iop : Type :=
  | Insert (m : Z)
  | Extract
  | Clear.

(** The calls of a run insert no zero. *)
Definition nonzero_insert (o : iop) : Prop :=
  match o with
  | Insert m => m <> 0
  | _ => True
  end.

(** A sequence of [iffq_insert], [iffq_extract] and [iffq_clear] calls on
    one queue.  Beside the queue it keeps the history: [A], the values
    [iffq_insert] accepted, and [X], the values [iffq_extract] returned
    (a returned 0 is no value), both oldest first. *)
Fixpoint iffq_run (f : Iffq) (A X : list Z) (ops : list iop)
  : Iffq * list Z * list Z :=
  match ops with
  | [] => (f, A, X)
  | Insert m :: ops' =>
      let '(r, f') := iffq_insert f m in
      iffq_run f' (if r =? 0 then A ++ [m] else A) X ops'
  | Extract :: ops' =>
      let '(m, f') := iffq_extract f in
      iffq_run f' A (if m =? 0 then X else X ++ [m]) ops'
  | Clear :: ops' => iffq_run (iffq_clear f) A X ops'
  end.

(** A queue of [E] slots and lines of [L] together with its history.  The
    cursors count modulo 2^32: [prod_write] the accepted values and
    [cons_read] the extracted ones, both from [L]; [cons_clear] and
    [prod_check] are at the line boundaries [cc * L] and [pc * L].  The
    slots from [cons_clear] up to [cons_read] are not the sentinel, those
    from [cons_read] up to [prod_write] hold the accepted values not yet
    extracted, and those from [prod_write] up to one lap after [cons_clear]
    hold the sentinel. *)
Definition iffq_inv_at (E L cc pc : Z) (f : Iffq) (A X : list Z) : Prop :=
  (entry_mask f = E - 1 /\ line_entries f = L /\
   line_mask f = wrap32 (Z.lnot (wrap32 (L - 1))) /\
   Z.of_nat (length (q f)) = E) /\
  (prod_write f = wrap32 (L + Z.of_nat (length A)) /\
   cons_read f = wrap32 (L + Z.of_nat (length X)) /\
   cons_clear f = wrap32 (cc * L) /\ prod_check f = wrap32 (pc * L)) /\
  (0 <= cc /\ cc * L + L <= L + Z.of_nat (length X) /\
   Z.of_nat (length X) <= Z.of_nat (length A) /\
   L + Z.of_nat (length A) <= pc * L /\ pc * L <= cc * L + E - L) /\
  (X = take (length X) A /\ Forall (fun m => m <> 0) A) /\
  (forall i, cc * L <= i < L + Z.of_nat (length X) ->
     load (q f) (i mod E) <> 0) /\
  (forall i, L + Z.of_nat (length X) <= i < L + Z.of_nat (length A) ->
     load (q f) (i mod E) = load A (i - L)) /\
  (forall i, L + Z.of_nat (length A) <= i < cc * L + E ->
     load (q f) (i mod E) = 0).

End ImprovedRun.

(** ** Runs of the improved FastForward queue with staged inserts

    A producer that batches calls [iffq_wspace], stages values with
    [iffq_insert_local] and flushes them with [iffq_insert_publish].
    [iffq_insert_local] checks nothing, so a run has to keep two rules:
    a value is staged only while the staged ones are fewer than
    [prod_check - prod_write], which is what [iffq_wspace] returns, and fewer
    than the staging buffer holds; and [iffq_insert] is called only with
    nothing staged. *)

Module ImprovedBatch.
Import FastForward ImprovedRun.

Inductive bop : Type :=
  | Plain (o : iop)
  | Wspace (needed : Z)
  | InsertLocal (m : Z)
  | InsertPublish.

Definition nonzero_bop (o : bop) : Prop :=
  match o with
  | Plain o' => nonzero_insert o'
  | InsertLocal m => m <> 0
  | _ => True
  end.

(** The values staged and not yet published, oldest first. *)
Definition staged (f : Iffq) : list Z :=
  load (prod_cache f) <$> seqZ 0 (prod_cache_write f).

(** Whether one more value may be staged. *)
Definition staging_room (f : Iffq) : bool :=
  (prod_cache_write f <? wrap32 (prod_check f - prod_write f))
  && (prod_cache_write f <? IFFQ_PROD_CACHE_ENTRIES).

(** A sequence of calls with its history, as [iffq_run]; the staged values
    enter the history when [iffq_insert_publish] writes them to the ring.
    [None] when the run breaks one of the two rules. *)
Fixpoint iffq_batch_run (f : Iffq) (A X : list Z) (ops : list bop)
  : option (Iffq * list Z * list Z) :=
  match ops with
  | [] => Some (f, A, X)
  | Plain (Insert m) :: ops' =>
      if prod_cache_write f =? 0 then
        let '(r, f') := iffq_insert f m in
        iffq_batch_run f' (if r =? 0 then A ++ [m] else A) X ops'
      else None
  | Plain Extract :: ops' =>
      let '(m, f') := iffq_extract f in
      iffq_batch_run f' A (if m =? 0 then X else X ++ [m]) ops'
  | Plain Clear :: ops' => iffq_batch_run (iffq_clear f) A X ops'
  | Wspace needed :: ops' =>
      iffq_batch_run (snd (iffq_wspace f needed)) A X ops'
  | InsertLocal m :: ops' =>
      if staging_room f then iffq_batch_run (iffq_insert_local f m) A X ops'
      else None
  | InsertPublish :: ops' =>
      iffq_batch_run (iffq_insert_publish f) (A ++ staged f) X ops'
  end.

(** The staging buffer of a queue whose checkpoint is at [pc * L] and whose
    history holds [a] accepted values: in its bounds, staging no sentinel,
    and no more than fits below the checkpoint. *)
Definition staging_inv (L pc a : Z) (f : Iffq) : Prop :=
  0 <= prod_cache_write f <= IFFQ_PROD_CACHE_ENTRIES /\
  Z.of_nat (length (prod_cache f)) = IFFQ_PROD_CACHE_ENTRIES /\
  Forall (fun m => m <> 0) (staged f) /\
  L + a + prod_cache_write f <= pc * L.

End ImprovedBatch.

(** * Properties *)

(** ** Machine arithmetic *)

Ltac wrap_lia := unfold wrap32, wrap64 in *; Z.div_mod_to_equations; lia.

Lemma wrap32_range x : 0 <= wrap32 x < 4294967296.
Proof. wrap_lia. Qed.

Lemma wrap32_small x : 0 <= x < 4294967296 -> wrap32 x = x.
Proof. intros; wrap_lia. Qed.

Lemma wrap64_small x : 0 <= x < 18446744073709551616 -> wrap64 x = x.
Proof. intros; wrap_lia. Qed.

Lemma to_int_small x : 0 <= x < 2147483648 -> to_int x = x.
Proof.
  intros Hx. unfold to_int. rewrite wrap32_small by lia.
  destruct (Z.ltb_spec x 2147483648); lia.
Qed.

Lemma pow2_pos k : 0 <= k -> 0 < 2 ^ k.
Proof. intros; apply Z.pow_pos_nonneg; lia. Qed.

Lemma pow2_le j k : 0 <= j <= k -> 2 ^ j <= 2 ^ k.
Proof. intros; apply Z.pow_le_mono_r; lia. Qed.

Lemma pow2_divide j k : 0 <= j <= k -> (2 ^ j | 2 ^ k).
Proof.
  intros H. exists (2 ^ (k - j)).
  rewrite <- Z.pow_add_r by lia. f_equal; lia.
Qed.

(** Masking with [2^k - 1] is the remainder modulo [2^k]. *)
Lemma land_mask x k : 0 <= k -> Z.land x (2 ^ k - 1) = x mod 2 ^ k.
Proof.
  intros Hk. rewrite <- Z.land_ones by assumption.
  rewrite Z.ones_equiv. reflexivity.
Qed.

Lemma mod_pow2_wrap32 x k : 0 <= k <= 32 -> wrap32 x mod 2 ^ k = x mod 2 ^ k.
Proof.
  intros Hk. unfold wrap32. change 4294967296 with (2 ^ 32).
  apply Z.mod_mod_divide, pow2_divide; lia.
Qed.

Lemma mod_pow2_wrap64 x k : 0 <= k <= 64 -> wrap64 x mod 2 ^ k = x mod 2 ^ k.
Proof.
  intros Hk. unfold wrap64. change 18446744073709551616 with (2 ^ 64).
  apply Z.mod_mod_divide, pow2_divide; lia.
Qed.

(** A remainder is determined by a bound and a congruence. *)
Lemma mod_intro x n r c : 0 <= r < n -> x = r + c * n -> x mod n = r.
Proof.
  intros Hr ->. rewrite Z.mod_add by lia. apply Z.mod_small; lia.
Qed.

(** [x & (x - 1)] clears the lowest set bit: it is zero exactly on the powers
    of two (and on zero). *)
Lemma land_pred_pow2 x : 0 < x -> Z.land x (x - 1) = 0 -> x = 2 ^ Z.log2 x.
Proof.
  intros Hx Hland.
  destruct (Z.log2_spec x Hx) as [Hlo Hhi].
  destruct (Z.eq_dec x (2 ^ Z.log2 x)) as [|Hne]; [assumption|exfalso].
  assert (Hlog : Z.log2 (x - 1) = Z.log2 x).
  { apply Z.log2_unique; [apply Z.log2_nonneg|lia]. }
  assert (Hb1 : Z.testbit x (Z.log2 x) = true) by (apply Z.bit_log2; lia).
  assert (Hb2 : Z.testbit (x - 1) (Z.log2 x) = true).
  { rewrite <- Hlog. apply Z.bit_log2.
    pose proof (pow2_pos (Z.log2 x) (Z.log2_nonneg x)). lia. }
  assert (Hb : Z.testbit (Z.land x (x - 1)) (Z.log2 x) = true).
  { rewrite Z.land_spec, Hb1, Hb2. reflexivity. }
  rewrite Hland, Z.bits_0 in Hb. discriminate.
Qed.

Lemma pow2_land_pred k : 0 <= k -> Z.land (2 ^ k) (2 ^ k - 1) = 0.
Proof.
  intros Hk. rewrite land_mask by assumption.
  apply Z.mod_same. pose proof (pow2_pos k Hk). lia.
Qed.

Lemma pow2_lt_inv j k : 0 <= j -> 0 <= k -> 2 ^ j < 2 ^ k -> j < k.
Proof. intros Hj Hk H. apply (Z.pow_lt_mono_r_iff 2); lia. Qed.

(** What [is_power_of_two] decides on a positive [int]. *)
Lemma is_power_of_two_spec x :
  0 < x < 2147483648 ->
  is_power_of_two x = true <-> exists k, 0 <= k <= 30 /\ x = 2 ^ k.
Proof.
  intros Hx. unfold is_power_of_two.
  rewrite to_int_small by lia.
  destruct (Z.eqb_spec x 0) as [|_]; [lia|]. simpl. rewrite Z.eqb_eq.
  split.
  - intros H. exists (Z.log2 x).
    pose proof (land_pred_pow2 x ltac:(lia) H) as Hpow.
    pose proof (Z.log2_nonneg x).
    split; [|assumption]. split; [assumption|].
    assert (Z.log2 x < 31); [|lia].
    apply pow2_lt_inv; [assumption|lia|]. change (2 ^ 31) with 2147483648. lia.
  - intros (k & Hk & ->). apply pow2_land_pred. lia.
Qed.

Lemma is_power_of_two_zero : is_power_of_two 0 = true.
Proof. reflexivity. Qed.

(** Remainders of numbers no further than one modulus away. *)
Lemma mod_cases x n :
  0 < n -> - n <= x < 2 * n ->
  x mod n = if x <? 0 then x + n else if x <? n then x else x - n.
Proof.
  intros Hn Hx.
  destruct (Z.ltb_spec x 0); [|destruct (Z.ltb_spec x n)].
  - apply (mod_intro _ _ _ (-1)); lia.
  - apply Z.mod_small; lia.
  - apply (mod_intro _ _ _ 1); lia.
Qed.

Ltac mod_step :=
  match goal with
  | |- context [?x mod ?n] => rewrite (mod_cases x n) by lia
  | H : context [?x mod ?n] |- _ => rewrite (mod_cases x n) in H by lia
  | |- context [?a <? ?b] => destruct (Z.ltb_spec a b)
  | H : context [?a <? ?b] |- _ => destruct (Z.ltb_spec a b)
  end.

Ltac mod_split := repeat mod_step.

(** Within one lap, positions with the same remainder are the same. *)
Lemma mod_window_inj E a b :
  0 < E -> - E < a - b < E -> a mod E = b mod E -> a = b.
Proof.
  intros HE Hd H. apply Z.cong_iff_0 in H. mod_split; lia.
Qed.

(** ** Slot arrays *)

Lemma load_store_same l i v :
  0 <= i < Z.of_nat (length l) -> load (store l i v) i = v.
Proof.
  intros Hi. unfold load, store.
  rewrite list_lookup_insert_eq by lia. reflexivity.
Qed.

Lemma load_store_other l i j v :
  0 <= i -> 0 <= j -> i <> j -> load (store l i v) j = load l j.
Proof.
  intros Hi Hj Hne. unfold load, store.
  rewrite list_lookup_insert_ne by lia. reflexivity.
Qed.

Lemma length_store l i v : length (store l i v) = length l.
Proof. apply length_insert. Qed.

(** Storing what a slot already holds changes nothing, in or out of range. *)
Lemma store_load_id l i : store l i (load l i) = l.
Proof.
  unfold load, store.
  destruct (l !! Z.to_nat i) as [x|] eqn:E; simpl.
  - apply list_insert_id; assumption.
  - apply list_insert_ge. apply lookup_ge_None; assumption.
Qed.

(** ** The Lamport queue *)

Section LamportFacts.
Import Lamport.

Lemma blq_ok_spec b :
  blq_ok b = true ->
  exists k, 1 <= k <= 30 /\ qlen b = 2 ^ k /\ qmask b = 2 ^ k - 1
            /\ Z.of_nat (length (q b)) = 2 ^ k.
Proof.
  unfold blq_ok. rewrite !andb_true_iff.
  rewrite Z.leb_le, Z.ltb_lt, !Z.eqb_eq.
  intros ((((Hlo & Hhi) & Hpow) & Hmask) & Hlen).
  apply is_power_of_two_spec in Hpow; [|lia].
  destruct Hpow as (k & Hk & Hq). exists k.
  assert (k <> 0) by (intros ->; rewrite Hq in Hlo; simpl in Hlo; lia).
  rewrite Hmask, Hlen, Hq. repeat split; lia.
Qed.

(** [blq_init] accepts exactly the powers of two from 2 to 2^30. *)
Lemma blq_init_accepts b n :
  - 2147483648 <= n < 2147483648 ->
  fst (blq_init b n) = 0 <-> exists k, 1 <= k <= 30 /\ n = 2 ^ k.
Proof.
  intros Hn. unfold blq_init.
  destruct (Z.ltb_spec n 2) as [Hlt|Hge]; simpl.
  - split; [discriminate|]. intros (k & Hk & ->).
    pose proof (pow2_le 1 k ltac:(lia)). change (2 ^ 1) with 2 in *. lia.
  - destruct (is_power_of_two n) eqn:Hp; simpl.
    + split; [intros _|reflexivity].
      apply is_power_of_two_spec in Hp; [|lia].
      destruct Hp as (k & Hk & ->). exists k. split; [|reflexivity].
      assert (k <> 0) by (intros ->; simpl in Hge; lia). lia.
    + split; [discriminate|]. intros (k & Hk & ->).
      assert (is_power_of_two (2 ^ k) = true); [|congruence].
      apply is_power_of_two_spec; [lia|]. exists k. split; [lia|reflexivity].
Qed.

Lemma blq_init_ok n b :
  - 2147483648 <= n < 2147483648 ->
  blq_init (blq_zeroed n) n = (0, b) -> blq_ok b = true.
Proof.
  intros Hn Hinit.
  assert (Hacc : fst (blq_init (blq_zeroed n) n) = 0) by (rewrite Hinit; reflexivity).
  apply blq_init_accepts in Hacc; [|assumption].
  destruct Hacc as (k & Hk & ->).
  pose proof (pow2_le 1 k ltac:(lia)) as Hlo. change (2 ^ 1) with 2 in Hlo.
  pose proof (pow2_le k 30 ltac:(lia)) as Hhi. change (2 ^ 30) with 1073741824 in Hhi.
  unfold blq_init in Hinit.
  destruct ((2 ^ k <? 2) || negb (is_power_of_two (2 ^ k))) eqn:E;
    [discriminate|].
  apply orb_false_elim in E. destruct E as [_ Hp]. apply negb_false_iff in Hp.
  injection Hinit as <-. unfold blq_ok; simpl.
  rewrite !(wrap32_small) by lia.
  rewrite length_replicate, Z2Nat.id by lia.
  rewrite Hp, Z.eqb_refl, Z.eqb_refl.
  destruct (Z.leb_spec 2 (2 ^ k)); [|lia].
  destruct (Z.ltb_spec (2 ^ k) 2147483648); [|lia].
  reflexivity.
Qed.

(** A cursor masked after an increment, as the plain interface keeps it. *)
Lemma mask_succ b k x :
  0 <= k <= 32 -> qmask b = 2 ^ k - 1 ->
  Z.land (wrap32 (x + 1)) (qmask b) = (x + 1) mod 2 ^ k.
Proof.
  intros Hk ->. rewrite land_mask by lia. apply mod_pow2_wrap32; lia.
Qed.

Lemma lq_cursors_ok_spec b :
  lq_cursors_ok b = true <->
  (0 <= write b < qlen b) /\ (0 <= read b < qlen b).
Proof.
  unfold lq_cursors_ok. rewrite !andb_true_iff, !Z.leb_le, !Z.ltb_lt. lia.
Qed.

(** [lq_write] on a well-formed queue, with the mask read as a remainder. *)
Lemma lq_write_step b m :
  blq_ok b = true ->
  lq_write b m =
    if (write b + 1) mod qlen b =? read b then (-1, b)
    else (0, set_write ((write b + 1) mod qlen b)
                       (set_q (store (q b) (write b) m) b)).
Proof.
  intros Hok. destruct (blq_ok_spec b Hok) as (k & Hk & Hq & Hm & _).
  unfold lq_write. rewrite (mask_succ b k) by (assumption || lia).
  rewrite Hq. reflexivity.
Qed.

Lemma lq_read_step b :
  blq_ok b = true ->
  lq_read b =
    if read b =? write b then (0, b)
    else (load (q b) (read b), set_read ((read b + 1) mod qlen b) b).
Proof.
  intros Hok. destruct (blq_ok_spec b Hok) as (k & Hk & Hq & Hm & _).
  unfold lq_read. rewrite (mask_succ b k) by (assumption || lia).
  rewrite Hq. reflexivity.
Qed.

(** The queue is full when all but one slot hold an unread item, and empty
    when none does. *)
Lemma lq_full_iff_count b :
  blq_ok b = true -> lq_cursors_ok b = true ->
  (write b + 1) mod qlen b = read b <-> lq_count b = qlen b - 1.
Proof.
  intros Hok Hc. apply lq_cursors_ok_spec in Hc.
  destruct (blq_ok_spec b Hok) as (k & Hk & Hq & _).
  pose proof (pow2_pos k ltac:(lia)). unfold lq_count.
  split; intros; mod_split; lia.
Qed.

Lemma lq_empty_iff_count b :
  blq_ok b = true -> lq_cursors_ok b = true ->
  read b = write b <-> lq_count b = 0.
Proof.
  intros Hok Hc. apply lq_cursors_ok_spec in Hc.
  destruct (blq_ok_spec b Hok) as (k & Hk & Hq & _).
  pose proof (pow2_pos k ltac:(lia)). unfold lq_count.
  split; intros; mod_split; lia.
Qed.

Lemma blq_ok_store b w i m :
  blq_ok (set_write w (set_q (store (q b) i m) b)) = blq_ok b.
Proof. unfold blq_ok; simpl. rewrite length_store. reflexivity. Qed.

Lemma lq_contents_length b :
  0 <= lq_count b -> Z.of_nat (length (lq_contents b)) = lq_count b.
Proof.
  intros H. unfold lq_contents. rewrite length_fmap, length_seqZ. lia.
Qed.

(** A successful [lq_write] appends to the unread items. *)
Lemma lq_write_contents b m :
  blq_ok b = true -> lq_cursors_ok b = true -> lq_count b < qlen b - 1 ->
  exists b', lq_write b m = (0, b') /\ blq_ok b' = true
    /\ lq_cursors_ok b' = true /\ lq_count b' = lq_count b + 1
    /\ lq_contents b' = lq_contents b ++ [m].
Proof.
  intros Hok Hc Hcount.
  pose proof (lq_full_iff_count b Hok Hc) as Hfull.
  rewrite lq_write_step by assumption.
  destruct (Z.eqb_spec ((write b + 1) mod qlen b) (read b)) as [E|E];
    [apply Hfull in E; lia|clear Hfull].
  eexists; split; [reflexivity|].
  rewrite blq_ok_store. split; [assumption|].
  apply lq_cursors_ok_spec in Hc.
  destruct (blq_ok_spec b Hok) as (k & Hk & Hq & _ & Hlen).
  pose proof (pow2_pos k ltac:(lia)) as Hpos.
  assert (Hcount' : lq_count (set_write ((write b + 1) mod qlen b)
                                (set_q (store (q b) (write b) m) b))
                    = lq_count b + 1).
  { unfold lq_count in *; simpl. mod_split; lia. }
  split; [|split; [exact Hcount'|]].
  - apply lq_cursors_ok_spec; simpl. mod_split; lia.
  - unfold lq_contents at 1. rewrite Hcount'. simpl.
    assert (H0 : 0 <= lq_count b) by (unfold lq_count; mod_split; lia).
    rewrite (seqZ_app 0 (lq_count b) 1) by lia.
    rewrite fmap_app. f_equal.
    + apply Forall_fmap_ext, Forall_seqZ. intros i Hi.
      apply load_store_other; [lia| |].
      * unfold lq_count in Hi; mod_split; lia.
      * unfold lq_count in Hi, Hcount; mod_split; lia.
    + simpl. f_equal.
      match goal with |- load _ ?i = _ => replace i with (write b) end.
      * apply load_store_same. lia.
      * change (Z.of_nat 0) with 0. unfold lq_count. mod_split; lia.
Qed.

(** A [lq_read] of a non-empty queue removes the oldest unread item. *)
Lemma lq_read_contents b :
  blq_ok b = true -> lq_cursors_ok b = true -> 0 < lq_count b ->
  exists m rest b', lq_contents b = m :: rest /\ lq_read b = (m, b')
    /\ blq_ok b' = true /\ lq_cursors_ok b' = true
    /\ lq_count b' = lq_count b - 1 /\ lq_contents b' = rest.
Proof.
  intros Hok Hc Hcount.
  pose proof (lq_empty_iff_count b Hok Hc) as Hempty.
  rewrite lq_read_step by assumption.
  destruct (Z.eqb_spec (read b) (write b)) as [E|E];
    [apply Hempty in E; lia|clear Hempty].
  apply lq_cursors_ok_spec in Hc.
  destruct (blq_ok_spec b Hok) as (k & Hk & Hq & _ & Hlen).
  pose proof (pow2_pos k ltac:(lia)) as Hpos.
  assert (Hcount' : lq_count (set_read ((read b + 1) mod qlen b) b)
                    = lq_count b - 1).
  { unfold lq_count in *; simpl. mod_split; lia. }
  unfold lq_contents at 1. rewrite seqZ_cons by lia. rewrite fmap_cons.
  do 3 eexists. split; [reflexivity|].
  replace ((read b + 0) mod qlen b) with (read b) by (mod_split; lia).
  split; [reflexivity|]. split; [exact Hok|].
  split; [apply lq_cursors_ok_spec; simpl; mod_split; lia|].
  split; [exact Hcount'|].
  unfold lq_contents. rewrite Hcount'. simpl.
  replace (Z.succ 0) with (1 + 0) by lia.
  rewrite <- (fmap_add_seqZ 1 0), <- list_fmap_compose.
  replace (Z.pred (lq_count b)) with (lq_count b - 1) by lia.
  apply Forall_fmap_ext, Forall_seqZ. intros i Hi. simpl. f_equal.
  unfold lq_count in Hi, Hcount. mod_split; lia.
Qed.

Lemma lq_write_all_contents vs : forall b,
  blq_ok b = true -> lq_cursors_ok b = true ->
  lq_count b + Z.of_nat (length vs) <= qlen b - 1 ->
  exists b', lq_write_all b vs = (replicate (length vs) 0, b')
    /\ blq_ok b' = true /\ lq_cursors_ok b' = true
    /\ lq_count b' = lq_count b + Z.of_nat (length vs)
    /\ lq_contents b' = lq_contents b ++ vs.
Proof.
  induction vs as [|v vs IH]; intros b Hok Hc Hroom; simpl in *.
  - exists b. rewrite app_nil_r. repeat split; try assumption. lia.
  - destruct (lq_write_contents b v Hok Hc ltac:(lia))
      as (b1 & Hw & Hok1 & Hc1 & Hn1 & Hcont1).
    destruct (IH b1 Hok1 Hc1) as (b2 & Hall & Hok2 & Hc2 & Hn2 & Hcont2).
    { assert (qlen b1 = qlen b); [|lia].
      rewrite lq_write_step in Hw by assumption.
      destruct (_ =? _); inversion Hw; reflexivity. }
    exists b2. rewrite Hw, Hall. repeat split; try assumption.
    + lia.
    + rewrite Hcont2, Hcont1, <- app_assoc. reflexivity.
Qed.

Lemma lq_read_n_contents n : forall b,
  blq_ok b = true -> lq_cursors_ok b = true -> Z.of_nat n <= lq_count b ->
  exists b', lq_read_n n b = (take n (lq_contents b), b')
    /\ blq_ok b' = true /\ lq_cursors_ok b' = true
    /\ lq_contents b' = drop n (lq_contents b).
Proof.
  induction n as [|n IH]; intros b Hok Hc Hn; simpl.
  - exists b. rewrite drop_0. repeat split; assumption.
  - destruct (lq_read_contents b Hok Hc ltac:(lia))
      as (m & rest & b1 & Hcont & Hr & Hok1 & Hc1 & Hn1 & Hcont1).
    destruct (IH b1 Hok1 Hc1 ltac:(lia)) as (b2 & Hall & Hok2 & Hc2 & Hcont2).
    exists b2. rewrite Hr, Hall, Hcont. simpl. rewrite Hcont1.
    repeat split; try assumption. rewrite Hcont2, Hcont1. reflexivity.
Qed.

(** First in, first out: on the plain interface, whatever is written while
    there is room is read back in the order written. *)
Lemma lq_fifo b vs :
  blq_ok b = true -> lq_cursors_ok b = true -> read b = write b ->
  Z.of_nat (length vs) <= qlen b - 1 ->
  fst (lq_write_all b vs) = replicate (length vs) 0 /\
  fst (lq_read_n (length vs) (snd (lq_write_all b vs))) = vs.
Proof.
  intros Hok Hc Hempty Hroom.
  assert (Hcnt : lq_count b = 0) by (apply lq_empty_iff_count; assumption).
  destruct (lq_write_all_contents vs b Hok Hc ltac:(lia))
    as (b1 & Hall & Hok1 & Hc1 & Hn1 & Hcont1).
  rewrite Hall; simpl. split; [reflexivity|].
  destruct (lq_read_n_contents (length vs) b1 Hok1 Hc1 ltac:(lia))
    as (b2 & Hrd & _).
  rewrite Hrd; simpl. rewrite Hcont1.
  unfold lq_contents at 1. rewrite Hcnt. simpl.
  apply firstn_all.
Qed.

(** C7. Round trip on the plain Lamport queue: on an empty queue and for
    [0 < N < qlen - 1], the [lq_write] calls with 1, 2, ..., N all return 0
    and the following N calls of [lq_read] return 1, 2, ..., N in that
    order. *)
Theorem lq_round_trip b N :
  blq_ok b = true -> lq_cursors_ok b = true -> read b = write b ->
  0 < N < qlen b - 1 ->
  fst (lq_write_all b (seqZ 1 N)) = replicate (Z.to_nat N) 0 /\
  fst (lq_read_n (Z.to_nat N) (snd (lq_write_all b (seqZ 1 N)))) = seqZ 1 N.
Proof.
  intros Hok Hc Hempty HN.
  pose proof (lq_fifo b (seqZ 1 N) Hok Hc Hempty) as H.
  rewrite length_seqZ in H. apply H. lia.
Qed.

Lemma lq_round_trip_witness :
  fst (lq_read_n 3 (snd (lq_write_all (snd (blq_init (blq_zeroed 8) 8))
                                      (seqZ 1 3)))) = [1; 2; 3].
Proof.
  refine (proj2 (lq_round_trip (snd (blq_init (blq_zeroed 8) 8)) 3 _ _ _ _)).
  - reflexivity.
  - reflexivity.
  - reflexivity.
  - vm_compute. split; reflexivity.
Defined.

(** C2 (as amended). Full/empty boundary of the plain Lamport queue.
    [lq_write] returns -1 exactly when [(write + 1) mod qlen] is the read
    cursor, that is when [qlen - 1] items are unread; otherwise it stores [m]
    at the write index and advances the write cursor.  [lq_read] returns 0
    and changes nothing when the read cursor equals the write cursor, that is
    when no item is unread; otherwise it returns the slot at the read index
    and advances the read cursor.  Hence [lq_read] returns 0 exactly when the
    queue is empty or the oldest unread item is itself 0. *)
Theorem lq_full_empty_boundary b m :
  blq_ok b = true -> lq_cursors_ok b = true ->
  (fst (lq_write b m) = -1 <-> (write b + 1) mod qlen b = read b) /\
  ((write b + 1) mod qlen b = read b <-> lq_count b = qlen b - 1) /\
  (fst (lq_write b m) <> -1 ->
   lq_write b m = (0, set_write ((write b + 1) mod qlen b)
                                (set_q (store (q b) (write b) m) b))) /\
  (read b = write b <-> lq_count b = 0) /\
  (read b = write b -> lq_read b = (0, b)) /\
  (read b <> write b ->
   lq_read b = (load (q b) (read b), set_read ((read b + 1) mod qlen b) b)) /\
  (fst (lq_read b) = 0 <-> read b = write b \/ load (q b) (read b) = 0).
Proof.
  intros Hok Hc.
  rewrite lq_write_step, lq_read_step by assumption.
  split; [|split; [apply lq_full_iff_count; assumption|]].
  { destruct (Z.eqb_spec ((write b + 1) mod qlen b) (read b)); simpl;
      split; intros; (reflexivity || assumption || lia || discriminate). }
  split.
  { destruct (Z.eqb_spec ((write b + 1) mod qlen b) (read b)); simpl;
      intros H; [contradiction H|]; reflexivity. }
  split; [apply lq_empty_iff_count; assumption|].
  destruct (Z.eqb_spec (read b) (write b)) as [E|E]; simpl.
  - split; [reflexivity|]. split; [contradiction|].
    split; [left; assumption|reflexivity].
  - split; [contradiction|]. split; [reflexivity|].
    split; [right; assumption|intros [H|H]; [contradiction|assumption]].
Qed.

Lemma lq_full_empty_boundary_witness :
  fst (lq_read (snd (blq_init (blq_zeroed 4) 4))) = 0 <->
  read (snd (blq_init (blq_zeroed 4) 4)) = write (snd (blq_init (blq_zeroed 4) 4))
  \/ load (q (snd (blq_init (blq_zeroed 4) 4)))
          (read (snd (blq_init (blq_zeroed 4) 4))) = 0.
Proof.
  refine (proj2 (proj2 (proj2 (proj2 (proj2 (proj2
    (lq_full_empty_boundary (snd (blq_init (blq_zeroed 4) 4)) 7 _ _))))))).
  - reflexivity.
  - reflexivity.
Defined.

(** C2, the claim as stated fails: a zero written by [lq_write] is accepted,
    and the [lq_read] that consumes it returns 0 although the cursors
    differ. *)
Lemma lq_read_zero_not_empty :
  let b0 := snd (blq_init (blq_zeroed 4) 4) in
  let b := snd (lq_write b0 0) in
  blq_ok b = true /\ lq_cursors_ok b = true /\
  fst (lq_write b0 0) = 0 /\ fst (lq_read b) = 0 /\ read b <> write b.
Proof. vm_compute. repeat split; discriminate. Qed.

(** ** The two-phase interface against the plain one *)

(** Plain writes that all succeed had room. *)
Lemma lq_write_all_room vs : forall b,
  blq_ok b = true -> lq_cursors_ok b = true ->
  fst (lq_write_all b vs) = replicate (length vs) 0 ->
  lq_count b + Z.of_nat (length vs) <= qlen b - 1.
Proof.
  induction vs as [|v vs IH]; intros b Hok Hc Hall.
  - simpl. apply lq_cursors_ok_spec in Hc.
    destruct (blq_ok_spec b Hok) as (k & Hk & Hq & _).
    pose proof (pow2_pos k ltac:(lia)). unfold lq_count. mod_split; lia.
  - assert (Hroom : lq_count b < qlen b - 1).
    { destruct (Z.eq_dec (lq_count b) (qlen b - 1)) as [E|E].
      - apply lq_full_iff_count in E; [|assumption..].
        simpl in Hall. rewrite lq_write_step in Hall by assumption.
        apply Z.eqb_eq in E. rewrite E in Hall.
        destruct (lq_write_all b vs); simpl in Hall. discriminate.
      - apply lq_cursors_ok_spec in Hc.
        destruct (blq_ok_spec b Hok) as (k & Hk & Hq & _).
        pose proof (pow2_pos k ltac:(lia)).
        unfold lq_count in *. mod_split; lia. }
    destruct (lq_write_contents b v Hok Hc Hroom)
      as (b1 & Hw & Hok1 & Hc1 & Hn1 & _).
    assert (Hq1 : qlen b1 = qlen b).
    { rewrite lq_write_step in Hw by assumption.
      destruct (_ =? _); inversion Hw; reflexivity. }
    simpl in Hall. rewrite Hw in Hall.
    destruct (lq_write_all b1 vs) as [rs b2] eqn:E2. simpl in Hall.
    injection Hall as Hall.
    specialize (IH b1 Hok1 Hc1). rewrite E2 in IH. specialize (IH Hall).
    simpl length. lia.
Qed.

(** Staging with [blq_write_local] fills the slots that successful plain
    writes fill; the private cursor runs free where the plain one is
    masked. *)
Lemma write_local_all_simulates vs : forall a p,
  blq_ok p = true -> qmask a = qmask p -> q a = q p ->
  write p = Z.land (write_priv a) (qmask a) ->
  fst (lq_write_all p vs) = replicate (length vs) 0 ->
  q (blq_write_local_all a vs) = q (snd (lq_write_all p vs)) /\
  write (snd (lq_write_all p vs))
    = Z.land (write_priv (blq_write_local_all a vs)) (qmask a) /\
  wrap32 (write_priv (blq_write_local_all a vs))
    = wrap32 (write_priv a + Z.of_nat (length vs)).
Proof.
  induction vs as [|v vs IH]; intros a p Hok Hm Hq Hw Hall.
  - simpl. rewrite Z.add_0_r. repeat split; assumption.
  - simpl in Hall |- *.
    destruct (blq_ok_spec p Hok) as (k & Hk & Hlen & Hmask & _).
    rewrite lq_write_step in Hall |- * by assumption.
    destruct (Z.eqb_spec ((write p + 1) mod qlen p) (read p)) as [E|E].
    { destruct (lq_write_all p vs); simpl in Hall; discriminate. }
    set (p1 := set_write _ _) in *.
    destruct (lq_write_all p1 vs) as [rs p2] eqn:E2. simpl in Hall |- *.
    injection Hall as Hall.
    assert (Hok1 : blq_ok p1 = true) by (unfold p1; rewrite blq_ok_store; exact Hok).
    specialize (IH (blq_write_local a v) p1 Hok1).
    rewrite E2 in IH. simpl in IH.
    destruct IH as (IH1 & IH2 & IH3).
    + exact Hm.
    + rewrite Hq, <- Hw. reflexivity.
    + rewrite (mask_succ a k) by (lia || congruence).
      rewrite Hw, Hm, Hmask, Hlen, land_mask by lia.
      rewrite Z.add_mod_idemp_l; [reflexivity|].
      pose proof (pow2_pos k ltac:(lia)); lia.
    + exact Hall.
    + repeat split; try assumption.
      rewrite IH3. wrap_lia.
Qed.

End LamportFacts.

Section TwoPhaseFacts.
Import Lamport TwoPhase.

Lemma write_local_all_range vs : forall a,
  0 <= write_priv a < 4294967296 ->
  0 <= write_priv (blq_write_local_all a vs) < 4294967296.
Proof.
  induction vs as [|v vs IH]; intros a Ha; simpl; [assumption|].
  apply IH. simpl. apply wrap32_range.
Qed.

Lemma blq_wspace_frame b needed :
  let b' := snd (blq_wspace b needed) in
  q b' = q b /\ qmask b' = qmask b /\ qlen b' = qlen b
  /\ write_priv b' = write_priv b /\ write b' = write b /\ read b' = read b.
Proof.
  unfold blq_wspace. destruct (_ <=? _); simpl; repeat split; reflexivity.
Qed.

Lemma write_local_all_frame vs : forall a,
  let a' := blq_write_local_all a vs in
  qmask a' = qmask a /\ qlen a' = qlen a /\ read a' = read a /\ write a' = write a.
Proof.
  induction vs as [|v vs IH]; intros a; simpl; [repeat split; reflexivity|].
  destruct (IH (blq_write_local a v)) as (H1 & H2 & H3 & H4).
  repeat split; assumption.
Qed.

Lemma lq_write_all_read vs : forall b, read (snd (lq_write_all b vs)) = read b.
Proof.
  induction vs as [|v vs IH]; intros b; simpl; [reflexivity|].
  destruct (lq_write b v) as [r b1] eqn:E1.
  destruct (lq_write_all b1 vs) as [rs b2] eqn:E2. simpl.
  specialize (IH b1). rewrite E2 in IH. simpl in IH. rewrite IH.
  unfold lq_write in E1. destruct (_ =? _); inversion E1; reflexivity.
Qed.

Lemma lq_write_all_qlen vs : forall b, qlen (snd (lq_write_all b vs)) = qlen b.
Proof.
  induction vs as [|v vs IH]; intros b; simpl; [reflexivity|].
  destruct (lq_write b v) as [r b1] eqn:E1.
  destruct (lq_write_all b1 vs) as [rs b2] eqn:E2. simpl.
  specialize (IH b1). rewrite E2 in IH. simpl in IH. rewrite IH.
  unfold lq_write in E1. destruct (_ =? _); inversion E1; reflexivity.
Qed.

Lemma lq_write_all_read_priv vs : forall b,
  read_priv (snd (lq_write_all b vs)) = read_priv b.
Proof.
  induction vs as [|v vs IH]; intros b; simpl; [reflexivity|].
  destruct (lq_write b v) as [r b1] eqn:E1.
  destruct (lq_write_all b1 vs) as [rs b2] eqn:E2. simpl.
  specialize (IH b1). rewrite E2 in IH. simpl in IH. rewrite IH.
  unfold lq_write in E1. destruct (_ =? _); inversion E1; reflexivity.
Qed.

(** The producer's batch calls leave the consumer's private fields alone. *)
Lemma blq_read_priv_frame b vs needed :
  write_shadow (blq_write_local_all (snd (blq_wspace b needed)) vs)
  = write_shadow b /\
  read_priv (blq_write_local_all (snd (blq_wspace b needed)) vs) = read_priv b.
Proof.
  assert (H : forall a, write_shadow (blq_write_local_all a vs) = write_shadow a
                        /\ read_priv (blq_write_local_all a vs) = read_priv a).
  { induction vs as [|v vs IH]; intros a; simpl; [split; reflexivity|].
    destruct (IH (blq_write_local a v)) as [-> ->]. split; reflexivity. }
  destruct (H (snd (blq_wspace b needed))) as [-> ->].
  unfold blq_wspace. destruct (_ <=? _); split; reflexivity.
Qed.

(** What the consumer reads.  [lq_read], as long as it does not find its
    cursor at [write], returns the slots from [read] on, in ring order. *)
Lemma lq_read_n_slots j n : forall a,
  0 <= j <= 31 -> qlen a = 2 ^ j -> qmask a = 2 ^ j - 1 ->
  0 <= read a < 2 ^ j ->
  (forall i, 0 <= i < Z.of_nat n -> (read a + i) mod 2 ^ j <> write a) ->
  fst (lq_read_n n a)
  = (fun i => load (q a) ((read a + i) mod 2 ^ j)) <$> seqZ 0 (Z.of_nat n).
Proof.
  induction n as [|n IH]; intros a Hj Hlen Hmask Hr Hne; [reflexivity|].
  pose proof (pow2_pos j ltac:(lia)) as Hpos.
  rewrite Nat2Z.inj_succ, seqZ_cons by lia. rewrite Nat2Z.inj_succ in Hne.
  replace (Z.pred (Z.succ (Z.of_nat n))) with (Z.of_nat n) by lia.
  simpl lq_read_n. unfold lq_read.
  destruct (Z.eqb_spec (read a) (write a)) as [E|_].
  { exfalso. apply (Hne 0); [lia|]. rewrite Z.add_0_r, Z.mod_small; assumption. }
  set (a1 := set_read _ a).
  assert (Hr1 : read a1 = (read a + 1) mod 2 ^ j).
  { unfold a1; simpl. rewrite Hmask, land_mask by lia.
    apply mod_pow2_wrap32. lia. }
  specialize (IH a1 Hj Hlen Hmask).
  destruct (lq_read_n n a1) as [ms a2]. simpl in *.
  rewrite Z.add_0_r, (Z.mod_small (read a)) by lia. f_equal.
  rewrite IH.
  - replace (Z.succ 0) with (1 + 0) by lia.
    rewrite <- (fmap_add_seqZ 1 0), <- list_fmap_compose.
    apply Forall_fmap_ext, Forall_seqZ. intros i Hi. simpl.
    rewrite Hr1, Z.add_mod_idemp_l by lia. do 2 f_equal. lia.
  - rewrite Hr1. apply Z.mod_pos_bound. lia.
  - intros i Hi. rewrite Hr1, Z.add_mod_idemp_l by lia.
    replace (read a + 1 + i) with (read a + (i + 1)) by lia. apply Hne. lia.
Qed.

(** [blq_read_local] checks nothing: it returns the slots from [read_priv]
    on, in ring order. *)
Lemma blq_read_local_n_slots j n : forall a,
  0 <= j <= 31 -> qmask a = 2 ^ j - 1 ->
  fst (blq_read_local_n n a)
  = (fun i => load (q a) ((read_priv a + i) mod 2 ^ j)) <$> seqZ 0 (Z.of_nat n).
Proof.
  induction n as [|n IH]; intros a Hj Hmask; [reflexivity|].
  pose proof (pow2_pos j ltac:(lia)) as Hpos.
  rewrite Nat2Z.inj_succ, seqZ_cons by lia.
  replace (Z.pred (Z.succ (Z.of_nat n))) with (Z.of_nat n) by lia.
  simpl blq_read_local_n. unfold blq_read_local.
  set (a1 := set_read_priv _ a).
  specialize (IH a1 Hj Hmask).
  destruct (blq_read_local_n n a1) as [ms a2]. simpl in *.
  rewrite Z.add_0_r, Hmask, land_mask by lia. f_equal.
  rewrite IH.
  replace (Z.succ 0) with (1 + 0) by lia.
  rewrite <- (fmap_add_seqZ 1 0), <- list_fmap_compose.
  apply Forall_fmap_ext, Forall_seqZ. intros i Hi. simpl.
  f_equal. rewrite <- Z.add_mod_idemp_l, mod_pow2_wrap32 by lia.
  rewrite Z.add_mod_idemp_l by lia. f_equal. lia.
Qed.

(** C1 (as amended). Batch/plain equivalence for the two-phase interface.
    Take a well-formed queue whose private write cursor is in step with the
    published one, [k] values for which [blq_wspace] reports room, and
    suppose the [k] plain [lq_write] calls all succeed.  Then [k] calls of
    [blq_write_local] followed by [blq_write_publish] leave the same slot
    array as the plain writes, and the same unread items followed by the new
    values in order.  The published write cursor is the free-running count
    [write + k] (modulo 2^32); the plain interface publishes that count
    reduced modulo the capacity, so the two cursors agree once masked.

    The consumer.  With [u] items unread before, [n <= u + k] calls of
    [lq_read] return the same values after the batch as after the plain
    writes: the first [n] of the old unread items followed by the new
    values.  So do [n] calls of [blq_read_local], after the batch and after
    the plain writes, behind any [blq_rspace], when [read_priv] is in step
    with [read].  When moreover [read <= write_shadow <= write],
    [blq_rspace] after the batch grants between 0 and [u + k] items, and at
    least what is asked for whenever that is at most [u + k]. *)
Theorem batch_write_matches_plain b vs :
  let k := Z.of_nat (length vs) in
  let batch := blq_write_publish (blq_write_local_all (snd (blq_wspace b k)) vs) in
  let plain := snd (lq_write_all b vs) in
  blq_ok b = true -> lq_cursors_ok b = true -> write_priv b = write b ->
  k <= fst (blq_wspace b k) ->
  fst (lq_write_all b vs) = replicate (length vs) 0 ->
  q batch = q plain /\
  write batch = wrap32 (write b + k) /\
  write plain = Z.land (write batch) (qmask batch) /\
  write plain = (write b + k) mod qlen b /\
  read batch = read plain /\
  lq_contents plain = lq_contents b ++ vs /\
  (forall n, Z.of_nat n <= lq_count b + k ->
     fst (lq_read_n n batch) = take n (lq_contents b ++ vs) /\
     fst (lq_read_n n plain) = take n (lq_contents b ++ vs)) /\
  (read_priv b = read b ->
   forall needed n, Z.of_nat n <= lq_count b + k ->
     fst (blq_read_local_n n (snd (blq_rspace batch needed)))
     = take n (lq_contents b ++ vs) /\
     fst (blq_read_local_n n (snd (blq_rspace plain needed)))
     = take n (lq_contents b ++ vs)) /\
  (read_priv b = read b -> read b <= write_shadow b <= write b ->
   forall needed,
     0 <= fst (blq_rspace batch needed) <= lq_count b + k /\
     (needed <= lq_count b + k -> needed <= fst (blq_rspace batch needed))).
Proof.
  intros k batch plain Hok Hc Hsync Hspace Hall.
  destruct (blq_wspace_frame b k) as (Fq & Fm & Fl & Fwp & Fw & Fr).
  destruct (write_local_all_frame vs (snd (blq_wspace b k))) as (Gm & Gl & Gr & Gw).
  destruct (blq_ok_spec b Hok) as (j & Hj & Hlen & Hmask & _).
  pose proof (pow2_pos j ltac:(lia)) as Hpos.
  pose proof (pow2_le j 30 ltac:(lia)) as Hle.
  change (2 ^ 30) with 1073741824 in Hle.
  pose proof Hc as Hc'. apply lq_cursors_ok_spec in Hc'.
  assert (Hland : write b = Z.land (write_priv (snd (blq_wspace b k)))
                                   (qmask (snd (blq_wspace b k)))).
  { rewrite Fwp, Fm, Hsync, Hmask, land_mask by lia.
    symmetry. apply Z.mod_small. lia. }
  destruct (write_local_all_simulates vs (snd (blq_wspace b k)) b
              Hok Fm Fq Hland Hall) as (S1 & S2 & S3).
  pose proof (write_local_all_range vs (snd (blq_wspace b k))) as Hrange.
  rewrite Fwp, Hsync in Hrange. specialize (Hrange ltac:(lia)).
  pose proof (lq_write_all_room vs b Hok Hc Hall) as Hroom.
  destruct (lq_write_all_contents vs b Hok Hc Hroom)
    as (b' & Hb' & Hok' & Hc'' & Hcnt' & Hcont).
  assert (Hwb : write batch = wrap32 (write b + k)).
  { unfold batch; simpl.
    rewrite <- (wrap32_small _ Hrange), S3, Fwp, Hsync. reflexivity. }
  assert (Hwp : write plain = (write b + k) mod qlen b).
  { fold plain in S2. rewrite S2, Fm, Hmask, land_mask by lia.
    change (write_priv (blq_write_local_all (snd (blq_wspace b k)) vs))
      with (write batch).
    rewrite Hwb, mod_pow2_wrap32, Hlen by lia. reflexivity. }
  assert (Hrb : read batch = read plain).
  { unfold batch, plain; simpl. rewrite Gr, Fr, lq_write_all_read. reflexivity. }
  assert (Hpl : plain = b') by (unfold plain; rewrite Hb'; reflexivity).
  split; [exact S1|]. split; [exact Hwb|].
  split; [unfold batch; simpl; rewrite Gm; exact S2|].
  split; [exact Hwp|]. split; [exact Hrb|].
  split; [rewrite Hpl; exact Hcont|].
  (* The consumer. *)
  assert (Hu : 0 <= lq_count b <= qlen b - 1).
  { unfold lq_count.
    pose proof (Z.mod_pos_bound (write b - read b) (qlen b) ltac:(lia)). lia. }
  assert (Hk0 : 0 <= k) by (unfold k; lia).
  assert (Hrp : read plain = read b).
  { unfold plain. apply lq_write_all_read. }
  assert (Hqm : qmask batch = 2 ^ j - 1 /\ qlen batch = 2 ^ j).
  { unfold batch; simpl. rewrite Gm, Gl, Fm, Fl. split; assumption. }
  destruct Hqm as [Hbm Hbl].
  assert (Hpln : qlen plain = 2 ^ j).
  { unfold plain. rewrite lq_write_all_qlen. exact Hlen. }
  assert (Hpmk : qmask plain = 2 ^ j - 1).
  { destruct (blq_ok_spec b' Hok') as (j' & Hj' & Hl' & Hm' & _).
    rewrite Hpl, Hm', <- Hl', <- Hpl, Hpln. reflexivity. }
  assert (Hqb : q batch = q plain) by exact S1.
  assert (Hcntu : (write b - read b) mod 2 ^ j = lq_count b)
    by (unfold lq_count; rewrite Hlen; reflexivity).
  assert (Hwmod : (write b + k) mod 2 ^ j = (read b + (lq_count b + k)) mod 2 ^ j).
  { rewrite <- Hcntu.
    replace (read b + ((write b - read b) mod 2 ^ j + k))
      with ((write b - read b) mod 2 ^ j + (read b + k)) by lia.
    rewrite Z.add_mod_idemp_l by lia. f_equal. lia. }
  assert (Hnear : forall i, 0 <= i < lq_count b + k ->
            (read b + i) mod 2 ^ j <> (write b + k) mod 2 ^ j).
  { intros i Hi Heq. rewrite Hwmod in Heq.
    apply (mod_window_inj (2 ^ j)) in Heq; lia. }
  assert (Hslots : forall n, Z.of_nat n <= lq_count b + k ->
            (fun i => load (q plain) ((read b + i) mod 2 ^ j))
              <$> seqZ 0 (Z.of_nat n)
            = take n (lq_contents b ++ vs)).
  { intros n Hn.
    destruct (lq_read_n_contents n b' Hok' Hc'') as (b2 & Hrd & _); [lia|].
    rewrite <- Hcont. rewrite <- Hpl in Hrd.
    replace (take n (lq_contents b')) with (fst (lq_read_n n plain))
      by (rewrite Hrd, Hpl; reflexivity).
    rewrite (lq_read_n_slots j n plain); [rewrite Hrp; reflexivity|lia|
      assumption|assumption|rewrite Hrp; lia|].
    intros i Hi. rewrite Hrp, Hwp, Hlen. apply Hnear. lia. }
  split; [|split].
  - intros n Hn. split.
    + rewrite (lq_read_n_slots j n batch); [|lia|assumption|assumption| |].
      * rewrite Hrb, Hrp, Hqb. apply Hslots, Hn.
      * rewrite Hrb, Hrp. lia.
      * intros i Hi. rewrite Hrb, Hrp, Hwb.
        rewrite wrap32_small by lia.
        destruct (Z.lt_ge_cases (write b + k) (2 ^ j)) as [Hlo|Hhi].
        -- rewrite <- (Z.mod_small (write b + k) (2 ^ j)) by lia.
           apply Hnear. lia.
        -- pose proof (Z.mod_pos_bound (read b + i) (2 ^ j) ltac:(lia)). lia.
    + rewrite <- Hslots by exact Hn.
      rewrite (lq_read_n_slots j n plain); [rewrite Hrp; reflexivity|lia|
        assumption|assumption|rewrite Hrp; lia|].
      intros i Hi. rewrite Hrp, Hwp, Hlen. apply Hnear. lia.
  - intros Hrpv needed n Hn.
    destruct (blq_read_priv_frame b vs k) as [Fws Frp].
    assert (Hq' : q (snd (blq_rspace batch needed)) = q plain).
    { rewrite <- Hqb. unfold blq_rspace. destruct (_ <=? _); reflexivity. }
    assert (Hrp' : read_priv (snd (blq_rspace batch needed)) = read b).
    { rewrite <- Hrpv, <- Frp. unfold blq_rspace. destruct (_ <=? _); reflexivity. }
    assert (Hm' : qmask (snd (blq_rspace batch needed)) = 2 ^ j - 1).
    { rewrite <- Hbm. unfold blq_rspace. destruct (_ <=? _); reflexivity. }
    split.
    { rewrite (blq_read_local_n_slots j n _ ltac:(lia) Hm'), Hq', Hrp'.
      apply Hslots, Hn. }
    assert (Hq2 : q (snd (blq_rspace plain needed)) = q plain).
    { unfold blq_rspace. destruct (_ <=? _); reflexivity. }
    assert (Hrp2 : read_priv (snd (blq_rspace plain needed)) = read b).
    { rewrite <- Hrpv, <- (lq_write_all_read_priv vs b). fold plain.
      unfold blq_rspace. destruct (_ <=? _); reflexivity. }
    assert (Hm2 : qmask (snd (blq_rspace plain needed)) = 2 ^ j - 1).
    { rewrite <- Hpmk. unfold blq_rspace. destruct (_ <=? _); reflexivity. }
    rewrite (blq_read_local_n_slots j n _ ltac:(lia) Hm2), Hq2, Hrp2.
    apply Hslots, Hn.
  - intros Hrpv Hws needed.
    assert (Hcu : lq_count b = write b - read b).
    { rewrite <- Hcntu. apply Z.mod_small. lia. }
    destruct (blq_read_priv_frame b vs k) as [Fws Frp].
    unfold blq_rspace.
    replace (write_shadow batch) with (write_shadow b)
      by (unfold batch; simpl; rewrite Fws; reflexivity).
    replace (read_priv batch) with (read b)
      by (unfold batch; simpl; rewrite Frp, Hrpv; reflexivity).
    rewrite (wrap32_small (write_shadow b - read b)) by lia.
    destruct (Z.leb_spec needed (write_shadow b - read b)); simpl.
    + split; lia.
    + change (write_priv (blq_write_local_all (snd (blq_wspace b k)) vs))
        with (write batch).
      rewrite Frp, Hrpv, Hwb, (wrap32_small (write b + k)) by lia.
      rewrite wrap32_small by lia. split; lia.
Qed.

Lemma batch_write_matches_plain_witness :
  let b := mkBlq 14 13 14 13 13 13 16 15
                 [0; 0; 0; 0; 0; 0; 0; 0; 0; 0; 0; 0; 0; 4; 0; 0] in
  let batch := blq_write_publish (blq_write_local_all (snd (blq_wspace b 3)) [5; 6; 7]) in
  let plain := snd (lq_write_all b [5; 6; 7]) in
  q batch = q plain /\
  fst (lq_read_n 4 batch) = [4; 5; 6; 7] /\
  fst (lq_read_n 4 plain) = [4; 5; 6; 7] /\
  fst (blq_read_local_n 4 (snd (blq_rspace batch 4))) = [4; 5; 6; 7] /\
  4 <= fst (blq_rspace batch 4) <= 4.
Proof.
  pose proof (batch_write_matches_plain
                (mkBlq 14 13 14 13 13 13 16 15
                       [0; 0; 0; 0; 0; 0; 0; 0; 0; 0; 0; 0; 0; 4; 0; 0])
                [5; 6; 7]) as H.
  cbv zeta in H.
  destruct H as (H1 & _ & _ & _ & _ & _ & H7 & H8 & H9).
  - reflexivity.
  - reflexivity.
  - reflexivity.
  - vm_compute. discriminate.
  - reflexivity.
  - cbv zeta. split; [exact H1|].
    destruct (H7 4%nat) as [H7a H7b]; [vm_compute; discriminate|].
    split; [exact H7a|]. split; [exact H7b|].
    split; [apply (H8 eq_refl 4 4%nat); vm_compute; discriminate|].
    assert (Hws : 13 <= 13 <= 14) by lia.
    destruct (H9 eq_refl Hws 4) as [[_ Hhi] Hlo].
    split; [apply Hlo; vm_compute; discriminate|exact Hhi].
Defined.

(** C1, the claim as stated fails: in a state the two-phase protocol reaches
    (cursors at 15 in a queue of 16), one [blq_write_local] and
    [blq_write_publish] publish the write cursor 16, while the successful
    [lq_write] publishes 0.  The slot arrays agree.  A consumer that calls
    [lq_read] past the one unread item sees the difference: the cursor 16 is
    never met by the read cursor, so the queue is not found empty.  And
    [blq_rspace], which subtracts cursors without masking, counts one item
    after the batch and 2^32 - 15 after the plain write. *)
Lemma batch_publishes_unmasked_cursor :
  let b := mkBlq 15 8 15 15 15 15 16 15
                 [1; 2; 3; 4; 5; 6; 7; 8; 9; 10; 11; 12; 13; 14; 15; 0] in
  let batch := blq_write_publish (blq_write_local_all (snd (blq_wspace b 1)) [16]) in
  let plain := snd (lq_write_all b [16]) in
  reachable 16 (mkProto b 1 0) /\
  blq_ok b = true /\ lq_cursors_ok b = true /\ write_priv b = write b /\
  1 <= fst (blq_wspace b 1) /\
  fst (lq_write_all b [16]) = [0] /\
  q batch = q plain /\ write batch = 16 /\ write plain = 0 /\
  write batch <> write plain /\
  fst (lq_read_n 3 batch) = [16; 1; 2] /\ fst (lq_read_n 3 plain) = [16; 0; 0] /\
  fst (blq_rspace batch 1) = 1 /\ fst (blq_rspace plain 1) = 4294967281.
Proof.
  split.
  { exists (mkProto (snd (blq_init (blq_zeroed 16) 16)) 0 0),
      ([Wspace 8] ++ (WriteLocal <$> seqZ 1 8) ++ [WritePublish; Rspace 8]
       ++ replicate 8 ReadLocal ++ [ReadPublish]
       ++ [Wspace 7] ++ (WriteLocal <$> seqZ 9 7) ++ [WritePublish; Rspace 7]
       ++ replicate 7 ReadLocal ++ [ReadPublish]).
    split; reflexivity. }
  vm_compute. repeat split; discriminate.
Qed.

(** ** The reserve cap of the two-phase interface *)

Lemma batch_capacity_bound b :
  blq_shape b -> 0 <= blq_batch_capacity b <= 1073741824.
Proof.
  intros (k & Hk & Hq & _). unfold blq_batch_capacity. rewrite Hq.
  pose proof (pow2_le k 30 ltac:(lia)) as H. change (2 ^ 30) with 1073741824 in H.
  change line_slots with 8. lia.
Qed.

(** What [blq_wspace] computes when the producer is at most the batch
    capacity ahead of the read cursor it looks at. *)
Lemma wspace_value qm rs wp k :
  1 <= k <= 30 -> qm = 2 ^ k - 1 ->
  wrap32 (wp - rs) <= Z.max 0 (2 ^ k - 8) ->
  wrap32 (Z.land (wrap64 (rs - line_slots - wp)) qm)
  = Z.max 0 (2 ^ k - 8) - wrap32 (wp - rs).
Proof.
  intros Hk -> Htot. change line_slots with 8.
  rewrite land_mask, mod_pow2_wrap64 by lia.
  pose proof (pow2_pos k ltac:(lia)) as Hpos.
  pose proof (pow2_le k 30 ltac:(lia)) as Hle.
  change (2 ^ 30) with 1073741824 in Hle.
  pose proof (wrap32_range (wp - rs)) as Hr.
  assert (Hsplit : 4294967296 = 2 ^ (32 - k) * 2 ^ k).
  { rewrite <- Z.pow_add_r by lia. replace (32 - k + k) with 32 by lia.
    reflexivity. }
  assert (Hdm : wp - rs = wrap32 (wp - rs) + (wp - rs) / 4294967296 * 4294967296).
  { unfold wrap32. pose proof (Z.div_mod (wp - rs) 4294967296 ltac:(lia)). lia. }
  set (t := wrap32 (wp - rs)) in *. set (c := (wp - rs) / 4294967296) in *.
  destruct (Z.le_gt_cases 3 k) as [H3|H3].
  - pose proof (pow2_le 3 k ltac:(lia)) as H8. change (2 ^ 3) with 8 in H8.
    rewrite Z.max_r in * by lia.
    rewrite (mod_intro (rs - 8 - wp) (2 ^ k) (2 ^ k - 8 - t)
                       (- 1 - c * 2 ^ (32 - k))).
    + apply wrap32_small. lia.
    + lia.
    + rewrite Z.mul_sub_distr_r, <- Z.mul_assoc, <- Hsplit. lia.
  - assert (H8 : 8 = 2 ^ (3 - k) * 2 ^ k).
    { rewrite <- Z.pow_add_r by lia. replace (3 - k + k) with 3 by lia.
      reflexivity. }
    assert (2 ^ k <= 4).
    { pose proof (pow2_le k 2 ltac:(lia)) as H. exact H. }
    rewrite Z.max_l in * by lia.
    rewrite (mod_intro (rs - 8 - wp) (2 ^ k) 0
                       (- 2 ^ (3 - k) - c * 2 ^ (32 - k))).
    + rewrite wrap32_small; lia.
    + lia.
    + rewrite Z.mul_sub_distr_r, <- Z.mul_assoc, <- Hsplit.
      rewrite Z.mul_opp_l, <- H8. lia.
Qed.

Lemma protocol_inv_start n st :
  - 2147483648 <= n < 2147483648 ->
  start n = Some st -> protocol_inv st /\ qlen (blq st) = n.
Proof.
  intros Hint. unfold start.
  destruct (blq_init (blq_zeroed n) n) as [r b] eqn:E.
  destruct (Z.eqb_spec r 0) as [->|]; [|discriminate]. intros [= <-].
  assert (Hacc : fst (blq_init (blq_zeroed n) n) = 0) by (rewrite E; reflexivity).
  apply blq_init_accepts in Hacc; [|assumption].
  destruct Hacc as (k & Hk & ->).
  pose proof (pow2_le 1 k ltac:(lia)) as Hlo. change (2 ^ 1) with 2 in Hlo.
  pose proof (pow2_le k 30 ltac:(lia)) as Hle.
  change (2 ^ 30) with 1073741824 in Hle.
  unfold blq_init in E.
  destruct ((2 ^ k <? 2) || negb (is_power_of_two (2 ^ k))); [discriminate|].
  injection E as <-.
  unfold protocol_inv, blq_shape, blq_batch_capacity; simpl.
  rewrite !wrap32_small by lia.
  split; [|reflexivity].
  split; [exists k; repeat split; lia|].
  change (wrap32 (0 - 0)) with 0. lia.
Qed.

Ltac inv_open st H :=
  destruct st as [[wp rs w rp ws r ql qm sl] wc rc];
  unfold protocol_inv, blq_batch_capacity in H; simpl in H;
  change line_slots with 8 in H;
  destruct H as (Hshape & Hrange & Hwc & Hrc & Hrcb & Hsum);
  pose proof (batch_capacity_bound _ Hshape) as Hcap;
  unfold blq_batch_capacity in Hcap; simpl in Hcap;
  change line_slots with 8 in Hcap.

Ltac inv_close :=
  unfold protocol_inv, blq_batch_capacity; simpl;
  change line_slots with 8;
  split; [assumption|]; wrap_lia.

Lemma protocol_inv_exec st o st' :
  protocol_inv st -> exec st o = Some st' ->
  protocol_inv st' /\ qlen (blq st') = qlen (blq st).
Proof.
  intros Hinv Hex. inv_open st Hinv.
  assert (Hshape' := Hshape). destruct Hshape' as (k & Hk & Hq & Hm).
  simpl in Hq, Hm.
  destruct o as [needed|m| |needed| |]; simpl in Hex.
  - (* blq_wspace *)
    unfold blq_wspace in Hex; simpl in Hex.
    rewrite (wspace_value qm rs wp k) in Hex by (assumption || (rewrite <- Hq; wrap_lia)).
    rewrite <- Hq in Hex.
    destruct (Z.leb_spec (wrap32 needed) (Z.max 0 (ql - 8) - wrap32 (wp - rs))).
    + injection Hex as <-. split; [|reflexivity]. inv_close.
    + rewrite (wspace_value qm r wp k) in Hex
        by (assumption || (rewrite <- Hq; wrap_lia)).
      rewrite <- Hq in Hex.
      injection Hex as <-. split; [|reflexivity]. inv_close.
  - (* blq_write_local *)
    destruct (Z.ltb_spec 0 wc); [|discriminate].
    injection Hex as <-. split; [|reflexivity]. inv_close.
  - (* blq_write_publish *)
    injection Hex as <-. split; [|reflexivity]. inv_close.
  - (* blq_rspace *)
    unfold blq_rspace in Hex; simpl in Hex.
    destruct (Z.leb_spec (wrap32 needed) (wrap32 (ws - rp))).
    + injection Hex as <-. split; [|reflexivity]. inv_close.
    + injection Hex as <-. split; [|reflexivity]. inv_close.
  - (* blq_read_local *)
    destruct (Z.ltb_spec 0 rc); [|discriminate].
    injection Hex as <-. split; [|reflexivity]. inv_close.
  - (* blq_read_publish *)
    injection Hex as <-. split; [|reflexivity]. inv_close.
Qed.

Lemma protocol_inv_exec_all ops : forall st st',
  protocol_inv st -> exec_all st ops = Some st' ->
  protocol_inv st' /\ qlen (blq st') = qlen (blq st).
Proof.
  induction ops as [|o ops IH]; intros st st' Hinv Hex; simpl in Hex.
  - injection Hex as <-. split; [assumption|reflexivity].
  - destruct (exec st o) as [st1|] eqn:E; [|discriminate].
    destruct (protocol_inv_exec st o st1 Hinv E) as [Hinv1 Hq1].
    destruct (IH st1 st' Hinv1 Hex) as [Hinv' Hq'].
    split; [assumption|congruence].
Qed.

Lemma reachable_inv n st :
  - 2147483648 <= n < 2147483648 -> reachable n st ->
  protocol_inv st /\ qlen (blq st) = n.
Proof.
  intros Hint (st0 & ops & Hstart & Hex).
  destruct (protocol_inv_start n st0 Hint Hstart) as [Hinv0 Hq0].
  destruct (protocol_inv_exec_all ops st0 st Hinv0 Hex) as [Hinv Hq].
  split; [assumption|congruence].
Qed.

(** C10. Reserve cap of the two-phase interface.  In every state the
    protocol reaches from a freshly initialised queue of [n] slots,
    [blq_wspace] returns at most [n - line_slots] slots ([n - 8]; none when
    the ring is shorter than a line), whatever is asked for and however empty
    the queue is; and the items written, published or not, and not yet
    released by the consumer never exceed that number. *)
Theorem blq_wspace_reserve_cap n st needed :
  - 2147483648 <= n < 2147483648 -> reachable n st ->
  qlen (blq st) = n /\
  0 <= fst (blq_wspace (blq st) needed) <= blq_batch_capacity (blq st) /\
  wrap32 (write_priv (blq st) - read (blq st)) <= blq_batch_capacity (blq st) /\
  wrap32 (write (blq st) - read (blq st)) <= blq_batch_capacity (blq st).
Proof.
  intros Hint Hreach.
  destruct (reachable_inv n st Hint Hreach) as [Hinv Hq].
  split; [assumption|]. clear Hq Hreach.
  inv_open st Hinv. destruct Hshape as (k & Hk & Hq & Hm). simpl in Hq, Hm.
  unfold blq_batch_capacity; simpl. change line_slots with 8.
  split; [|wrap_lia].
  unfold blq_wspace; simpl.
  rewrite (wspace_value qm rs wp k) by (assumption || (rewrite <- Hq; wrap_lia)).
  rewrite <- Hq.
  destruct (_ <=? _); simpl.
  - wrap_lia.
  - rewrite (wspace_value qm r wp k) by (assumption || (rewrite <- Hq; wrap_lia)).
    rewrite <- Hq. wrap_lia.
Qed.

Lemma blq_wspace_reserve_cap_witness :
  0 <= fst (blq_wspace (snd (blq_init (blq_zeroed 16) 16)) 16) <= 8.
Proof.
  refine (proj1 (proj2 (blq_wspace_reserve_cap 16
            (mkProto (snd (blq_init (blq_zeroed 16) 16)) 0 0) 16 _ _))).
  - lia.
  - exists (mkProto (snd (blq_init (blq_zeroed 16) 16)) 0 0), [].
    split; reflexivity.
Defined.

(** X12. On the empty queue the cap is attained: a fresh queue of at least
    one line grants exactly [n - 8] slots, whatever is asked for. *)
Lemma blq_wspace_fresh n st needed :
  - 2147483648 <= n < 2147483648 -> start n = Some st ->
  fst (blq_wspace (blq st) needed) = Z.max 0 (n - 8).
Proof.
  intros Hint Hstart.
  destruct (protocol_inv_start n st Hint Hstart) as [Hinv Hq].
  unfold start in Hstart.
  destruct (blq_init (blq_zeroed n) n) as [r b] eqn:E.
  destruct (Z.eqb_spec r 0) as [->|]; [|discriminate]. injection Hstart as <-.
  unfold blq_init in E. destruct (_ || _); [discriminate|]. injection E as <-.
  destruct Hinv as ((k & Hk & Hlen & Hm) & _). simpl in *.
  unfold blq_wspace; simpl.
  rewrite !(wspace_value _ 0 0 k) by (assumption || (change (wrap32 (0 - 0)) with 0; lia)).
  rewrite <- Hlen, Hq. change (wrap32 (0 - 0)) with 0.
  destruct (_ <=? _); simpl; lia.
Qed.

Lemma blq_wspace_fresh_witness :
  fst (blq_wspace (snd (blq_init (blq_zeroed 16) 16)) 3) = 8.
Proof.
  refine (blq_wspace_fresh 16 (mkProto (snd (blq_init (blq_zeroed 16) 16)) 0 0) 3 _ _).
  - lia.
  - reflexivity.
Defined.

End TwoPhaseFacts.

(** ** The FastForward queues *)

Section FastForwardFacts.
Import FastForward.

Lemma set_q_same f : set_q (q f) f = f.
Proof. destruct f; reflexivity. Qed.

(** Writing the sentinel into a slot that reads as the sentinel leaves the
    slot array as it was. *)
Lemma store_sentinel l i : load l i = 0 -> store l i 0 = l.
Proof. intros H. rewrite <- H at 1. apply store_load_id. Qed.

Lemma load_store_sentinel l i : load (store l i 0) i = 0.
Proof.
  unfold load, store.
  destruct (decide (Z.to_nat i < length l)%nat) as [Hlt|Hge].
  - rewrite list_lookup_insert_eq by assumption. reflexivity.
  - rewrite list_insert_ge by lia.
    rewrite (proj2 (lookup_ge_None l (Z.to_nat i))) by lia. reflexivity.
Qed.

(** C3 (as amended). Neither [ffq_write] nor [iffq_insert] looks at the value
    it is given: a call with the sentinel 0 returns what a call with any
    other value returns in the same state.  When it succeeds, [prod_write]
    advances and the slot written still reads as empty; for [ffq_write] the
    whole slot array is unchanged. *)
Theorem sentinel_enqueue_not_rejected f m :
  fst (ffq_write f 0) = fst (ffq_write f m) /\
  fst (iffq_insert f 0) = fst (iffq_insert f m) /\
  (fst (ffq_write f 0) = 0 ->
   ffq_write f 0 = (0, set_prod_write (wrap32 (prod_write f + 1)) f)) /\
  (fst (iffq_insert f 0) = 0 ->
   prod_write (snd (iffq_insert f 0)) = wrap32 (prod_write f + 1) /\
   load (q (snd (iffq_insert f 0))) (Z.land (prod_write f) (entry_mask f)) = 0).
Proof.
  split; [|split; [|split]].
  - unfold ffq_write. destruct (negb _); reflexivity.
  - unfold iffq_insert. destruct (_ && _); reflexivity.
  - unfold ffq_write.
    destruct (Z.eqb_spec (load (q f) (Z.land (prod_write f) (entry_mask f))) 0)
      as [E|E]; simpl; [intros _|discriminate].
    rewrite store_sentinel by assumption. rewrite set_q_same. reflexivity.
  - unfold iffq_insert. destruct (_ && _); simpl; [discriminate|intros _].
    destruct (prod_write f =? prod_check f); simpl;
      (split; [reflexivity|apply load_store_sentinel]).
Qed.

Lemma sentinel_enqueue_not_rejected_witness :
  ffq_write (snd (iffq_init (iffq_zeroed 4) 4 8 0)) 0
  = (0, set_prod_write 2 (snd (iffq_init (iffq_zeroed 4) 4 8 0))).
Proof.
  refine (proj1 (proj2 (proj2
    (sentinel_enqueue_not_rejected (snd (iffq_init (iffq_zeroed 4) 4 8 0)) 1))) _).
  reflexivity.
Defined.

(** C3, the claim as stated fails: on freshly initialised queues both calls
    return success for the value 0. *)
Lemma sentinel_enqueue_succeeds :
  fst (iffq_init (iffq_zeroed 4) 4 8 0) = 0 /\
  fst (ffq_write (snd (iffq_init (iffq_zeroed 4) 4 8 0)) 0) = 0 /\
  fst (iffq_init (iffq_zeroed 32) 32 64 1) = 0 /\
  fst (iffq_insert (snd (iffq_init (iffq_zeroed 32) 32 64 1)) 0) = 0.
Proof. vm_compute. repeat split. Qed.

End FastForwardFacts.

(** ** Failure outcomes and init validation, across the variants *)

Section AllVariants.
Import Lamport FastForward.

Lemma set_read_shadow_back (b : Blq) x :
  set_read_shadow (read_shadow b) (set_read_shadow x b) = b.
Proof. destruct b; reflexivity. Qed.

Lemma set_read_shadow_same (b : Blq) : set_read_shadow (read_shadow b) b = b.
Proof. destruct b; reflexivity. Qed.

Lemma set_write_shadow_back (b : Blq) x :
  set_write_shadow (write_shadow b) (set_write_shadow x b) = b.
Proof. destruct b; reflexivity. Qed.

Lemma set_write_shadow_same (b : Blq) : set_write_shadow (write_shadow b) b = b.
Proof. destruct b; reflexivity. Qed.

(** C9 (as amended). Failure atomicity.  A write that returns full
    ([lq_write], [llq_write], [ffq_write], [iffq_insert]), a read of an empty
    Lamport queue, or one that returns 0 from a slot that does not itself
    hold 0 ([lq_read], [llq_read]), a sentinel read ([ffq_read],
    [iffq_extract]) and a rejecting init
    ([blq_init], [iffq_init]) leave the queue as it was: the slot array and
    every cursor.  The one field that may change is the caller's own cache of
    the other side's cursor ([read_shadow] in [llq_write], [write_shadow] in
    [llq_read]); a failed init writes no field at all. *)
Theorem failure_changes_nothing
    (b : Blq) (f : Iffq) (m n entries line_size improved : Z) :
  (fst (lq_write b m) = -1 -> snd (lq_write b m) = b) /\
  (fst (llq_write b m) = -1 ->
   set_read_shadow (read_shadow b) (snd (llq_write b m)) = b) /\
  (read b = write b -> lq_read b = (0, b)) /\
  (fst (lq_read b) = 0 -> load (Lamport.q b) (read b) <> 0 ->
   snd (lq_read b) = b) /\
  (read_priv b = write_shadow b -> read_priv b = write b ->
   fst (llq_read b) = 0 /\
   set_write_shadow (write_shadow b) (snd (llq_read b)) = b) /\
  (fst (llq_read b) = 0 -> load (Lamport.q b) (read_priv b) <> 0 ->
   set_write_shadow (write_shadow b) (snd (llq_read b)) = b) /\
  (fst (ffq_write f m) = -1 -> snd (ffq_write f m) = f) /\
  (fst (iffq_insert f m) = - ENOBUFS -> snd (iffq_insert f m) = f) /\
  (fst (ffq_read f) = 0 -> snd (ffq_read f) = f) /\
  (fst (iffq_extract f) = 0 -> snd (iffq_extract f) = f) /\
  (fst (blq_init b n) <> 0 -> snd (blq_init b n) = b) /\
  (fst (iffq_init f entries line_size improved) <> 0 ->
   snd (iffq_init f entries line_size improved) = f).
Proof.
  repeat apply conj.
  - unfold lq_write. destruct (_ =? _); simpl; [reflexivity|discriminate].
  - unfold llq_write.
    destruct (_ =? read_shadow b); simpl.
    + destruct (_ =? read b); simpl; [intros _|discriminate].
      apply set_read_shadow_back.
    + destruct (_ =? read_shadow b); simpl; [intros _|discriminate].
      apply set_read_shadow_same.
  - intros E. unfold lq_read. rewrite E, Z.eqb_refl. reflexivity.
  - unfold lq_read. destruct (_ =? _); simpl; [reflexivity|].
    intros H1 H2. contradiction.
  - intros E1 E2. unfold llq_read. destruct b; simpl in *. subst.
    rewrite !Z.eqb_refl. simpl. split; reflexivity.
  - unfold llq_read.
    destruct (read_priv b =? write_shadow b); simpl.
    + destruct (read_priv b =? write b); simpl.
      * intros _ _. apply set_write_shadow_back.
      * intros H1 H2. contradiction.
    + intros H1 H2. contradiction.
  - unfold ffq_write. destruct (negb _); simpl; [reflexivity|discriminate].
  - unfold iffq_insert. destruct (_ && _); simpl; [reflexivity|discriminate].
  - unfold ffq_read.
    destruct (Z.eqb_spec (load (FastForward.q f)
                               (Z.land (cons_read f) (entry_mask f))) 0);
      simpl; [reflexivity|intros; contradiction].
  - unfold iffq_extract.
    destruct (Z.eqb_spec (load (FastForward.q f)
                               (Z.land (cons_read f) (entry_mask f))) 0);
      simpl; [reflexivity|intros; contradiction].
  - unfold blq_init. destruct (_ || _); simpl; [reflexivity|intros H; contradiction H; reflexivity].
  - unfold iffq_init. destruct (_ || _); simpl; [reflexivity|].
    destruct (negb _); simpl; intros H; contradiction H; reflexivity.
Qed.

Lemma failure_changes_nothing_witness :
  snd (lq_write (snd (lq_write (snd (blq_init (blq_zeroed 2) 2)) 7)) 9)
  = snd (lq_write (snd (blq_init (blq_zeroed 2) 2)) 7).
Proof.
  refine (proj1 (failure_changes_nothing
            (snd (lq_write (snd (blq_init (blq_zeroed 2) 2)) 7))
            (iffq_zeroed 0) 9 0 0 0 0) _).
  reflexivity.
Defined.

(** C9, the claim as stated fails: after a 0 has been written, [lq_read]
    returns 0, the value it reports for an empty queue, and the read cursor
    has moved. *)
Lemma lq_read_zero_advances :
  let b := snd (lq_write (snd (blq_init (blq_zeroed 4) 4)) 0) in
  fst (lq_read b) = 0 /\ read b = 0 /\ read (snd (lq_read b)) = 1 /\
  snd (lq_read b) <> b.
Proof. vm_compute. repeat split. discriminate. Qed.

(** C4, the failing input.  [iffq_init] with [entries = 0] in basic mode
    returns 0: [is_power_of_two 0] holds and nothing else looks at
    [entries] when [improved] is 0.  The ring then has no slot and
    [entry_mask] is [UINT_MAX].  [blq_init] rejects 0 through its own
    [qlen < 2] test. *)
Theorem iffq_init_accepts_zero_entries :
  (forall f, fst (iffq_init f 0 64 0) = 0) /\
  (forall f, entry_mask (snd (iffq_init f 0 64 0)) = 4294967295) /\
  (forall b, fst (blq_init b 0) = -1) /\
  (forall f, fst (iffq_init f 0 64 1) = - EINVAL).
Proof. repeat split. Qed.

End AllVariants.

(** ** The improved FastForward queue: line geometry *)

(** [is_power_of_two] applied to an [unsigned int] passed as [int]. *)
Lemma is_power_of_two_uint x :
  0 < x < 4294967296 ->
  is_power_of_two (to_int x) = true <-> exists k, 0 <= k <= 31 /\ x = 2 ^ k.
Proof.
  intros Hx. destruct (Z.lt_ge_cases x 2147483648) as [Hlo|Hhi].
  - rewrite to_int_small by lia. rewrite is_power_of_two_spec by lia.
    split; intros (k & Hk & ->); exists k; (split; [|reflexivity]); [lia|].
    assert (k < 31); [|lia].
    apply pow2_lt_inv; [lia|lia|]. change (2 ^ 31) with 2147483648. lia.
  - assert (Hti : to_int x = x - 4294967296).
    { unfold to_int. rewrite wrap32_small by lia.
      destruct (Z.ltb_spec x 2147483648); lia. }
    rewrite Hti. unfold is_power_of_two.
    destruct (Z.eqb_spec (x - 4294967296) 0); [lia|]. simpl.
    destruct (Z.eq_dec x 2147483648) as [->|Hne].
    + split; [intros _; exists 31; split; [lia|reflexivity]|reflexivity].
    + split.
      * rewrite Z.eqb_eq. intros H.
        assert (Hti' : to_int (x - 4294967296 - 1) = x - 4294967296 - 1).
        { unfold to_int.
          replace (wrap32 (x - 4294967296 - 1)) with (x - 1) by wrap_lia.
          destruct (Z.ltb_spec (x - 1) 2147483648); lia. }
        rewrite Hti' in H.
        pose proof (proj2 (Z.land_neg (x - 4294967296) (x - 4294967296 - 1))
                          ltac:(lia)). lia.
      * intros (k & Hk & ->). exfalso.
        destruct (Z.eq_dec k 31) as [->|]; [apply Hne; reflexivity|].
        pose proof (pow2_le k 30 ltac:(lia)) as H.
        change (2 ^ 30) with 1073741824 in H. lia.
Qed.

(** Masking with [~(2^j - 1)] rounds down to a multiple of [2^j]. *)
Lemma land_line_mask x j :
  0 <= j <= 31 -> 0 <= x < 4294967296 ->
  Z.land x (wrap32 (Z.lnot (wrap32 (2 ^ j - 1)))) = x - x mod 2 ^ j.
Proof.
  intros Hj Hx.
  pose proof (pow2_pos j ltac:(lia)) as Hpos.
  pose proof (pow2_le j 31 ltac:(lia)) as Hle.
  change (2 ^ 31) with 2147483648 in Hle.
  rewrite (wrap32_small (2 ^ j - 1)) by lia.
  replace (2 ^ j - 1) with (Z.ones j) by (rewrite Z.ones_equiv; lia).
  unfold wrap32. change 4294967296 with (2 ^ 32).
  rewrite <- Z.land_ones by lia.
  rewrite (Z.land_comm (Z.lnot _)), Z.land_assoc.
  rewrite (Z.land_ones x 32) by lia.
  rewrite (Z.mod_small x (2 ^ 32)) by (change (2 ^ 32) with 4294967296; lia).
  rewrite <- Z.ldiff_land, Z.ldiff_ones_r by lia.
  rewrite Z.shiftr_div_pow2, Z.shiftl_mul_pow2 by lia.
  pose proof (Z.div_mod x (2 ^ j) ltac:(lia)). lia.
Qed.

Section ImprovedFacts.
Import FastForward.

Lemma iffq_line_ok_spec f :
  iffq_line_ok f = true ->
  exists j, 0 <= j <= 30 /\ line_entries f = 2 ^ j
    /\ line_mask f = wrap32 (Z.lnot (wrap32 (2 ^ j - 1))).
Proof.
  unfold iffq_line_ok. rewrite !andb_true_iff, Z.leb_le, Z.ltb_lt, Z.eqb_eq.
  intros (((Hlo & Hhi) & Hp) & Hm).
  apply is_power_of_two_spec in Hp; [|lia].
  destruct Hp as (j & Hj & HL). exists j. rewrite Hm, HL. auto.
Qed.

(** Where [iffq_clear] stops: [cons_read - line_entries] rounded down to a
    multiple of the line. *)
Lemma iffq_clear_bound_round f :
  iffq_line_ok f = true ->
  let x := wrap32 (cons_read f - line_entries f) in
  iffq_clear_bound f = x - x mod line_entries f.
Proof.
  intros Hok. destruct (iffq_line_ok_spec f Hok) as (j & Hj & HL & Hm).
  simpl. unfold iffq_clear_bound. rewrite Hm, HL.
  apply land_line_mask; [lia|apply wrap32_range].
Qed.

Lemma load_store_zero_kept l i j :
  0 <= i -> 0 <= j -> load l j = 0 -> load (store l i 0) j = 0.
Proof.
  intros Hi Hj H. destruct (Z.eq_dec i j) as [->|Hne].
  - apply load_store_sentinel.
  - rewrite load_store_other by assumption. exact H.
Qed.

Lemma ring_index_nonneg f c i : 0 <= wrap32 (c + i) -> 0 <= ring_index f c i.
Proof. intros H. unfold ring_index. apply Z.land_nonneg. left. exact H. Qed.

(** The loop of [iffq_clear], run for the distance from [cons_clear] to its
    bound: it ends with [cons_clear] at the bound, zeroes the slots it walks
    over, keeps every zero, and leaves the other slots and fields alone. *)
Lemma iffq_clear_loop_spec fuel s : forall f,
  0 <= cons_clear f < 4294967296 -> 0 <= s < 4294967296 ->
  wrap32 (s - cons_clear f) = Z.of_nat fuel ->
  let f' := iffq_clear_loop fuel s f in
  cons_clear f' = s /\
  set_cons_clear (cons_clear f) (set_q (q f) f') = f /\
  (forall i, 0 <= i < Z.of_nat fuel ->
     load (q f') (ring_index f (cons_clear f) i) = 0) /\
  (forall j, 0 <= j -> load (q f) j = 0 -> load (q f') j = 0) /\
  (forall j, 0 <= j ->
     (forall i, 0 <= i < Z.of_nat fuel -> ring_index f (cons_clear f) i <> j) ->
     load (q f') j = load (q f) j).
Proof.
  induction fuel as [|fuel IH]; intros f Hcc Hs Hdist; simpl.
  - assert (cons_clear f = s) by wrap_lia.
    split; [assumption|]. split; [destruct f; reflexivity|].
    split; [intros; lia|]. split; [intros; assumption|reflexivity].
  - destruct (Z.eqb_spec (cons_clear f) s) as [E|E].
    { exfalso. rewrite E, Z.sub_diag in Hdist. change (wrap32 0) with 0 in Hdist. lia. }
    set (f1 := set_cons_clear _ _).
    assert (Hidx0 : ring_index f (cons_clear f) 0
                    = Z.land (cons_clear f) (entry_mask f)).
    { unfold ring_index. rewrite Z.add_0_r, wrap32_small by lia. reflexivity. }
    assert (Hidx0nn : 0 <= Z.land (cons_clear f) (entry_mask f)).
    { apply Z.land_nonneg. left. lia. }
    assert (Hshift : forall i, ring_index f1 (cons_clear f1) i
                               = ring_index f (cons_clear f) (i + 1)).
    { intros i. unfold ring_index, f1; simpl. f_equal. wrap_lia. }
    destruct (IH f1) as (I1 & I2 & I3 & I4 & I5).
    { unfold f1; simpl. apply wrap32_range. }
    { assumption. }
    { unfold f1; simpl. wrap_lia. }
    split; [exact I1|]. split; [|split; [|split]].
    + clear - I2. remember (iffq_clear_loop fuel s f1) as f' eqn:Ef'. clear Ef'.
      unfold f1 in I2. destruct f, f'; simpl in *.
      unfold set_cons_clear, set_q in *; simpl in *.
      injection I2 as -> -> -> -> -> -> -> ->. reflexivity.
    + intros i Hi. destruct (Z.eq_dec i 0) as [->|Hne].
      * rewrite Hidx0. apply I4; [assumption|].
        unfold f1; simpl. apply load_store_sentinel.
      * replace i with (i - 1 + 1) by lia. rewrite <- Hshift. apply I3. lia.
    + intros j Hj H0. apply I4; [assumption|].
      unfold f1; simpl. apply load_store_zero_kept; assumption.
    + intros j Hj Hfar. rewrite I5; [|assumption|].
      * unfold f1; simpl. apply load_store_other; [assumption..|].
        rewrite <- Hidx0. apply Hfar. lia.
      * intros i Hi. rewrite Hshift. apply Hfar. lia.
Qed.

(** C6. Deferred clearing.  [iffq_extract] never writes the slot array; on a
    slot that is not the sentinel it returns the slot and advances only
    [cons_read].  [iffq_clear] walks from [cons_clear] up to, and not
    including, [cons_read - line_entries] rounded down to a multiple of the
    line: it leaves [cons_clear] at that bound, sets the slots it walks over
    to 0, and changes no other slot and no other field. *)
Theorem iffq_deferred_clearing f :
  iffq_line_ok f = true -> 0 <= cons_clear f < 4294967296 ->
  let x := wrap32 (cons_read f - line_entries f) in
  let s := x - x mod line_entries f in
  let n := wrap32 (s - cons_clear f) in
  q (snd (iffq_extract f)) = q f /\
  (load (q f) (Z.land (cons_read f) (entry_mask f)) <> 0 ->
   iffq_extract f = (load (q f) (Z.land (cons_read f) (entry_mask f)),
                     set_cons_read (wrap32 (cons_read f + 1)) f)) /\
  iffq_clear_bound f = s /\
  cons_clear (iffq_clear f) = s /\
  set_cons_clear (cons_clear f) (set_q (q f) (iffq_clear f)) = f /\
  (forall i, 0 <= i < n ->
     load (q (iffq_clear f)) (ring_index f (cons_clear f) i) = 0) /\
  (forall j, 0 <= j ->
     (forall i, 0 <= i < n -> ring_index f (cons_clear f) i <> j) ->
     load (q (iffq_clear f)) j = load (q f) j).
Proof.
  intros Hok Hcc x s n.
  pose proof (iffq_clear_bound_round f Hok) as Hs. simpl in Hs. fold x s in Hs.
  assert (Hsr : 0 <= s < 4294967296).
  { destruct (iffq_line_ok_spec f Hok) as (j & Hj & HL & _).
    pose proof (pow2_pos j ltac:(lia)).
    pose proof (Z.mod_pos_bound x (line_entries f) ltac:(lia)).
    pose proof (Z.mod_le x (line_entries f) ltac:(apply wrap32_range) ltac:(lia)).
    pose proof (wrap32_range (cons_read f - line_entries f)).
    unfold s, x in *. lia. }
  split; [unfold iffq_extract; destruct (negb _); reflexivity|].
  split.
  { unfold iffq_extract.
    destruct (Z.eqb_spec (load (q f) (Z.land (cons_read f) (entry_mask f))) 0)
      as [E|E]; simpl; [intros H; contradiction|reflexivity]. }
  split; [exact Hs|].
  unfold iffq_clear. rewrite Hs.
  destruct (iffq_clear_loop_spec (Z.to_nat n) s f Hcc Hsr) as (C1 & C2 & C3 & _ & C5).
  { rewrite Z2Nat.id; [reflexivity|apply wrap32_range]. }
  rewrite Z2Nat.id in C3, C5 by apply wrap32_range.
  fold n. repeat split; assumption.
Qed.

Lemma iffq_deferred_clearing_witness :
  let f0 := snd (iffq_init (iffq_zeroed 64) 64 64 1) in
  let f := set_cons_read 40 (set_q (store (q f0) 40 7) f0) in
  iffq_extract f = (7, set_cons_read 41 f) /\
  cons_clear (iffq_clear f) = 32.
Proof.
  pose proof (iffq_deferred_clearing
    (set_cons_read 40
       (set_q (store (q (snd (iffq_init (iffq_zeroed 64) 64 64 1))) 40 7)
              (snd (iffq_init (iffq_zeroed 64) 64 64 1))))) as H.
  cbv zeta in H.
  destruct H as (_ & H2 & _ & H4 & _).
  - reflexivity.
  - vm_compute. split; [discriminate|reflexivity].
  - cbv zeta. split; [apply H2; vm_compute; discriminate|exact H4].
Defined.

(** ** The improved FastForward queue: staged inserts *)

Lemma iffq_ring_ok_spec f :
  iffq_ring_ok f = true ->
  exists k, 0 <= k <= 31 /\ entry_mask f = 2 ^ k - 1
    /\ Z.of_nat (length (q f)) = 2 ^ k.
Proof.
  unfold iffq_ring_ok. rewrite !andb_true_iff, !Z.leb_le, Z.eqb_eq.
  intros (((Hlo & Hhi) & Hp) & Hlen).
  apply is_power_of_two_uint in Hp; [|lia].
  destruct Hp as (k & Hk & HE). exists k. rewrite Hlen. repeat split; lia.
Qed.

Lemma ring_index_mod f c i k :
  0 <= k <= 31 -> entry_mask f = 2 ^ k - 1 ->
  ring_index f c i = (c + i) mod 2 ^ k.
Proof.
  intros Hk Hm. unfold ring_index. rewrite Hm, land_mask by lia.
  apply mod_pow2_wrap32. lia.
Qed.

(** Within one lap of the ring, distinct offsets are distinct slots. *)
Lemma ring_index_inj f c i i' k :
  0 <= k <= 31 -> entry_mask f = 2 ^ k - 1 ->
  - 2 ^ k < i - i' < 2 ^ k ->
  ring_index f c i = ring_index f c i' -> i = i'.
Proof.
  intros Hk Hm Hd. rewrite !(ring_index_mod f c _ k) by assumption.
  intros H. apply Z.cong_iff_0 in H.
  replace (c + i - (c + i')) with (i - i') in H by lia.
  pose proof (pow2_pos k ltac:(lia)). mod_split; lia.
Qed.

Lemma ring_index_range f c i k :
  0 <= k <= 31 -> entry_mask f = 2 ^ k - 1 ->
  0 <= ring_index f c i < 2 ^ k.
Proof.
  intros Hk Hm. rewrite (ring_index_mod f c i k) by assumption.
  apply Z.mod_pos_bound, pow2_pos. lia.
Qed.

(** [iffq_insert_local], called for each value of [vs] in turn, appends
    [vs] to the staged prefix of [prod_cache]. *)
Lemma iffq_insert_local_all_spec vs : forall f,
  0 <= prod_cache_write f ->
  prod_cache_write f + Z.of_nat (length vs) <= Z.of_nat (length (prod_cache f)) ->
  Z.of_nat (length (prod_cache f)) < 4294967296 ->
  let f' := iffq_insert_local_all f vs in
  prod_cache_write f' = prod_cache_write f + Z.of_nat (length vs) /\
  length (prod_cache f') = length (prod_cache f) /\
  (forall i, 0 <= i < Z.of_nat (length vs) ->
     load (prod_cache f') (prod_cache_write f + i) = load vs i) /\
  (forall i, 0 <= i < prod_cache_write f ->
     load (prod_cache f') i = load (prod_cache f) i) /\
  set_prod_cache (prod_cache f) (set_prod_cache_write (prod_cache_write f) f') = f.
Proof.
  induction vs as [|v vs IH]; intros f Hw Hroom Hlen; simpl.
  - rewrite Z.add_0_r. split; [reflexivity|]. split; [reflexivity|].
    split; [intros; lia|]. split; [reflexivity|destruct f; reflexivity].
  - set (f1 := iffq_insert_local f v).
    assert (Hw1 : prod_cache_write f1 = prod_cache_write f + 1).
    { unfold f1; simpl. apply wrap32_small.
      change (length (v :: vs)) with (S (length vs)) in Hroom. lia. }
    assert (Hl1 : length (prod_cache f1) = length (prod_cache f)).
    { unfold f1; simpl. apply length_store. }
    change (length (v :: vs)) with (S (length vs)) in *.
    destruct (IH f1) as (I1 & I2 & I3 & I4 & I5); [lia..|].
    split; [lia|]. split; [congruence|]. split; [|split].
    + intros i Hi. destruct (Z.eq_dec i 0) as [->|Hne].
      * rewrite Z.add_0_r, I4 by lia. unfold f1; simpl.
        apply load_store_same. lia.
      * replace (prod_cache_write f + i) with (prod_cache_write f1 + (i - 1)) by lia.
        rewrite I3 by lia. unfold load.
        replace (Z.to_nat i) with (S (Z.to_nat (i - 1))) by lia. reflexivity.
    + intros i Hi. rewrite I4 by lia. unfold f1; simpl.
      apply load_store_other; lia.
    + clear - I5. remember (iffq_insert_local_all f1 vs) as f' eqn:Ef'. clear Ef'.
      unfold f1 in I5. destruct f, f'; simpl in *.
      unfold set_prod_cache, set_prod_cache_write in *; simpl in *.
      injection I5 as -> -> -> -> -> -> -> ->. reflexivity.
Qed.

(** The loop of [iffq_insert_publish] from index [i], with as much fuel as
    there are staged values left: it copies them to consecutive ring slots
    and advances [prod_write] once per value. *)
Lemma iffq_insert_publish_loop_spec fuel k : forall i f,
  0 <= k <= 31 -> entry_mask f = 2 ^ k - 1 ->
  Z.of_nat (length (q f)) = 2 ^ k ->
  0 <= i -> i + Z.of_nat fuel = prod_cache_write f ->
  prod_cache_write f < 4294967296 -> Z.of_nat fuel <= 2 ^ k ->
  0 <= prod_write f < 4294967296 ->
  let f' := iffq_insert_publish_loop fuel i f in
  prod_write f' = wrap32 (prod_write f + Z.of_nat fuel) /\
  set_prod_write (prod_write f) (set_q (q f) f') = f /\
  (forall t, 0 <= t < Z.of_nat fuel ->
     load (q f') (ring_index f (prod_write f) t) = load (prod_cache f) (i + t)) /\
  (forall j, 0 <= j ->
     (forall t, 0 <= t < Z.of_nat fuel -> ring_index f (prod_write f) t <> j) ->
     load (q f') j = load (q f) j).
Proof.
  induction fuel as [|fuel IH]; intros i f Hk Hm Hlen Hi Hend Hpcw Hlap Hpw; simpl.
  - rewrite Z.add_0_r, wrap32_small by lia.
    split; [reflexivity|]. split; [destruct f; reflexivity|].
    split; [intros; lia|reflexivity].
  - destruct (Z.ltb_spec i (prod_cache_write f)) as [_|Hge]; [|lia].
    set (f1 := set_prod_write _ _).
    assert (Hidx0 : ring_index f (prod_write f) 0
                    = Z.land (prod_write f) (entry_mask f)).
    { unfold ring_index. rewrite Z.add_0_r, wrap32_small by lia. reflexivity. }
    assert (Hshift : forall t, ring_index f1 (prod_write f1) t
                               = ring_index f (prod_write f) (t + 1)).
    { intros t. unfold ring_index, f1; simpl. f_equal. wrap_lia. }
    pose proof (ring_index_range f (prod_write f) 0 k Hk Hm) as Hr0.
    destruct (IH (wrap32 (i + 1)) f1) as (I1 & I2 & I3 & I4).
    { assumption. } { exact Hm. }
    { unfold f1; simpl. rewrite length_store. exact Hlen. }
    { apply wrap32_range. }
    { unfold f1; simpl. rewrite wrap32_small; lia. }
    { exact Hpcw. } { lia. }
    { unfold f1; simpl. apply wrap32_range. }
    split; [|split; [|split]].
    + rewrite I1. unfold f1; simpl. wrap_lia.
    + clear - I2. remember (iffq_insert_publish_loop fuel (wrap32 (i + 1)) f1) as f'
        eqn:Ef'. clear Ef'.
      unfold f1 in I2. destruct f, f'; simpl in *.
      unfold set_prod_write, set_q in *; simpl in *.
      injection I2 as -> -> -> -> -> -> -> ->. reflexivity.
    + intros t Ht. destruct (Z.eq_dec t 0) as [->|Hne].
      * rewrite I4.
        -- unfold f1; simpl. rewrite Hidx0, Z.add_0_r.
           apply load_store_same. rewrite <- Hidx0. lia.
        -- lia.
        -- intros t Ht' Heq. rewrite Hshift in Heq.
           apply (ring_index_inj f _ _ _ k) in Heq; [lia|assumption..|lia].
      * replace t with (t - 1 + 1) at 1 by lia. rewrite <- Hshift.
        rewrite I3 by lia. unfold f1; simpl.
        f_equal. rewrite wrap32_small; lia.
    + intros j Hj Hfar. rewrite I4; [|assumption|].
      * unfold f1; simpl. apply load_store_other; [lia|assumption|].
        rewrite <- Hidx0. apply Hfar. lia.
      * intros t Ht. rewrite Hshift. apply Hfar. lia.
Qed.

(** C8 (as amended). Batched local insert.  [iffq_insert_local] stages
    values in [prod_cache], a side buffer of [IFFQ_PROD_CACHE_ENTRIES] = 256
    entries whatever the line size.  For up to 256 values staged from an
    empty buffer (and no more than the ring has slots),
    [iffq_insert_publish] writes every staged value into the ring in staging
    order at consecutive ring indices from [prod_write], advances
    [prod_write] by one per value, resets the staging count to zero, and
    touches no other slot. *)
Theorem iffq_batched_insert f vs :
  let k := Z.of_nat (length vs) in
  let staged := iffq_insert_local_all f vs in
  let f' := iffq_insert_publish staged in
  iffq_ring_ok f = true ->
  Z.of_nat (length (prod_cache f)) = IFFQ_PROD_CACHE_ENTRIES ->
  prod_cache_write f = 0 -> 0 <= prod_write f < 4294967296 ->
  k <= IFFQ_PROD_CACHE_ENTRIES -> k <= entry_mask f + 1 ->
  prod_cache_write staged = k /\
  (forall i, 0 <= i < k -> load (prod_cache staged) i = load vs i) /\
  q staged = q f /\ prod_write staged = prod_write f /\
  prod_cache_write f' = 0 /\
  prod_write f' = wrap32 (prod_write f + k) /\
  (forall i, 0 <= i < k ->
     load (q f') (ring_index f (prod_write f) i) = load vs i) /\
  (forall j, 0 <= j ->
     (forall i, 0 <= i < k -> ring_index f (prod_write f) i <> j) ->
     load (q f') j = load (q f) j).
Proof.
  intros k staged f' Hring Hcache Hempty Hpw Hk256 HkE.
  unfold IFFQ_PROD_CACHE_ENTRIES in *.
  destruct (iffq_ring_ok_spec f Hring) as (e & He & Hm & Hlen).
  destruct (iffq_insert_local_all_spec vs f) as (S1 & S2 & S3 & _ & S5);
    [lia..|]. fold staged in S1, S2, S3, S5. fold k in S1, S3.
  rewrite Hempty in S1, S3. simpl in S1.
  assert (Hsame : q staged = q f /\ prod_write staged = prod_write f
                  /\ entry_mask staged = entry_mask f).
  { clear - S5. destruct f, staged; simpl in *.
    unfold set_prod_cache, set_prod_cache_write in S5; simpl in S5.
    injection S5 as -> -> -> -> -> -> -> ->. repeat split. }
  destruct Hsame as (Hq & Hpws & Hms).
  split; [exact S1|]. split; [exact S3|]. split; [exact Hq|].
  split; [exact Hpws|]. split; [reflexivity|].
  assert (Hms' : entry_mask staged = 2 ^ e - 1) by congruence.
  assert (Hlen' : Z.of_nat (length (q staged)) = 2 ^ e) by (rewrite Hq; exact Hlen).
  destruct (iffq_insert_publish_loop_spec (Z.to_nat k) e 0 staged
              He Hms' Hlen' ltac:(lia) ltac:(lia) ltac:(lia) ltac:(lia) ltac:(lia))
    as (P1 & _ & P3 & P4).
  rewrite Z2Nat.id in P1, P3, P4 by lia.
  assert (Hpw' : prod_write f'
                 = prod_write (iffq_insert_publish_loop (Z.to_nat k) 0 staged))
    by (unfold f', iffq_insert_publish; rewrite S1; reflexivity).
  assert (Hq' : q f' = q (iffq_insert_publish_loop (Z.to_nat k) 0 staged))
    by (unfold f', iffq_insert_publish; rewrite S1; reflexivity).
  rewrite Hpw', Hq'.
  assert (Hri : forall i, ring_index staged (prod_write staged) i
                          = ring_index f (prod_write f) i).
  { intros i. unfold ring_index. rewrite Hpws, Hms. reflexivity. }
  split; [rewrite P1, Hpws; reflexivity|]. split.
  - intros i Hi. rewrite <- Hri, P3 by assumption. apply S3. assumption.
  - intros j Hj Hfar. rewrite P4, Hq; [reflexivity|assumption|].
    intros t Ht. rewrite Hri. apply Hfar. assumption.
Qed.

Lemma iffq_batched_insert_witness :
  prod_write (iffq_insert_publish
                (iffq_insert_local_all
                   (snd (iffq_init (iffq_zeroed 64) 64 64 1)) [3; 4; 5]))
  = 11.
Proof.
  refine (proj1 (proj2 (proj2 (proj2 (proj2 (proj2
    (iffq_batched_insert (snd (iffq_init (iffq_zeroed 64) 64 64 1)) [3; 4; 5]
                         _ _ _ _ _ _))))))).
  - reflexivity.
  - reflexivity.
  - reflexivity.
  - vm_compute. split; [discriminate|reflexivity].
  - vm_compute. discriminate.
  - vm_compute. discriminate.
Defined.

(** C8, the claim as stated fails: with 64-byte lines a line has 8 slots,
    yet the side buffer has 256 entries; nine staged values are all kept and
    all published. *)
Lemma prod_cache_exceeds_one_line :
  let f := snd (iffq_init (iffq_zeroed 64) 64 64 1) in
  let staged := iffq_insert_local_all f (seqZ 1 9) in
  line_entries f = 8 /\ Z.of_nat (length (prod_cache f)) = 256 /\
  Z.of_nat (length (prod_cache f)) <> line_entries f /\
  prod_cache_write staged = 9 /\
  take 9 (prod_cache staged) = [1; 2; 3; 4; 5; 6; 7; 8; 9] /\
  take 9 (drop 8 (q (iffq_insert_publish staged))) = [1; 2; 3; 4; 5; 6; 7; 8; 9].
Proof. vm_compute. repeat split. discriminate. Qed.

(** ** The improved FastForward queue: usable capacity *)

(** The garbage loop of [iffq_init], run for the distance from [i] to
    [stop]: the slots in between that exist become 1, the others stay. *)
Lemma iffq_init_fill_spec fuel stop : forall i l,
  0 <= i -> i + Z.of_nat fuel = stop -> stop < 4294967296 ->
  let l' := iffq_init_fill fuel i stop l in
  length l' = length l /\
  (forall j, i <= j < stop -> j < Z.of_nat (length l) -> load l' j = 1) /\
  (forall j, 0 <= j -> ~ (i <= j < stop) -> load l' j = load l j).
Proof.
  induction fuel as [|fuel IH]; intros i l Hi Hend Hstop; simpl.
  - split; [reflexivity|]. split; [intros; lia|reflexivity].
  - destruct (Z.eqb_spec i stop) as [E|_]; [lia|].
    assert (Hw : wrap32 (i + 1) = i + 1) by (apply wrap32_small; lia).
    rewrite Hw.
    destruct (IH (i + 1) (store l i 1)) as (I1 & I2 & I3); [lia..|].
    rewrite length_store in I1, I2.
    split; [exact I1|]. split.
    + intros j Hj Hlen. destruct (Z.eq_dec j i) as [->|Hne].
      * rewrite I3 by lia. apply load_store_same. lia.
      * apply I2; lia.
    + intros j Hj Hout. rewrite I3 by lia. apply load_store_other; lia.
Qed.

Lemma load_replicate_zero n i : load (replicate n 0) i = 0.
Proof.
  unfold load. destruct (replicate n 0 !! Z.to_nat i) as [x|] eqn:E; [|reflexivity].
  apply lookup_replicate in E. destruct E as [-> _]. reflexivity.
Qed.

(** The state [iffq_init] leaves in improved mode, on zero-filled storage of
    [entries] slots.  Either two lines fit strictly inside the ring, or the
    size test wrapped ([2 * line_size] is computed in 32 bits). *)
Lemma iffq_init_improved_spec entries line_size f :
  0 <= entries < 4294967296 -> 0 <= line_size < 4294967296 ->
  iffq_init (iffq_zeroed entries) entries line_size 1 = (0, f) ->
  exists k j, 0 <= k <= 31 /\ 0 <= j <= 28 /\
    entries = 2 ^ k /\ line_size / sizeof_uintptr_t = 2 ^ j /\
    entry_mask f = 2 ^ k - 1 /\ line_entries f = 2 ^ j /\
    prod_write f = 2 ^ j /\ prod_check f = 2 ^ j /\
    Z.of_nat (length (q f)) = 2 ^ k /\
    load (q f) 0 = 1 /\ (forall i, 2 ^ j <= i -> load (q f) i = 0) /\
    (2 * 2 ^ j < 2 ^ k \/ line_size = 2147483648).
Proof.
  intros He Hl Hinit. unfold iffq_init in Hinit.
  destruct (_ || _) eqn:Hchk; [discriminate|].
  repeat (apply orb_false_elim in Hchk; destruct Hchk as [Hchk ?]).
  apply negb_false_iff in Hchk.
  match goal with H : negb (is_power_of_two (to_int line_size)) = false |- _ =>
    apply negb_false_iff in H; rename H into Hpl end.
  match goal with H : (line_size <? _) = false |- _ =>
    apply Z.ltb_ge in H; rename H into Hl8 end.
  match goal with H : (negb _ && _) = false |- _ =>
    simpl in H; apply Z.leb_gt in H; rename H into Hsz end.
  unfold sizeof_uintptr_t in *.
  assert (He0 : 0 < entries).
  { destruct (Z.eq_dec entries 0) as [->|]; [|lia]. exfalso.
    pose proof (wrap32_range (2 * line_size)). change (wrap64 (0 * 8)) with 0 in Hsz. lia. }
  apply is_power_of_two_uint in Hchk; [|lia]. destruct Hchk as (k & Hk & ->).
  apply is_power_of_two_uint in Hpl; [|lia]. destruct Hpl as (j' & Hj' & ->).
  assert (Hj3 : 3 <= j').
  { destruct (Z.lt_ge_cases j' 3) as [H|H]; [|assumption]. exfalso.
    pose proof (pow2_le j' 2 ltac:(lia)) as H4. change (2 ^ 2) with 4 in H4. lia. }
  assert (HL : 2 ^ j' / 8 = 2 ^ (j' - 3)).
  { change 8 with (2 ^ 3). rewrite <- Z.pow_sub_r by lia. reflexivity. }
  assert (HL8 : 2 ^ j' = 8 * 2 ^ (j' - 3)).
  { change 8 with (2 ^ 3). rewrite <- Z.pow_add_r by lia. f_equal. lia. }
  pose proof (pow2_pos (j' - 3) ltac:(lia)) as HLpos.
  pose proof (pow2_le (j' - 3) 28 ltac:(lia)) as HLle.
  change (2 ^ 28) with 268435456 in HLle.
  pose proof (pow2_pos k ltac:(lia)) as HEpos.
  pose proof (pow2_le k 31 ltac:(lia)) as HEle.
  change (2 ^ 31) with 2147483648 in HEle.
  simpl in Hinit. injection Hinit as <-. simpl.
  rewrite HL, !(wrap32_small (2 ^ (j' - 3))) by lia.
  rewrite (wrap32_small (2 ^ k - 1)) by lia.
  rewrite Z.sub_0_r, (wrap32_small (2 ^ (j' - 3))) by lia.
  destruct (iffq_init_fill_spec (Z.to_nat (2 ^ (j' - 3))) (2 ^ (j' - 3)) 0
              (replicate (Z.to_nat (2 ^ k)) 0)) as (F1 & F2 & F3); [lia..|].
  rewrite length_replicate in F1, F2.
  exists k, (j' - 3). repeat split; try lia.
  - apply F2; lia.
  - intros i Hi. rewrite F3 by lia. apply load_replicate_zero.
  - destruct (Z.eq_dec j' 31) as [->|Hne]; [right; reflexivity|left].
    pose proof (pow2_le j' 30 ltac:(lia)) as H30.
    change (2 ^ 30) with 1073741824 in H30.
    rewrite (wrap32_small (2 * 2 ^ j')) in Hsz by lia.
    rewrite wrap64_small in Hsz by lia. lia.
Qed.

Lemma small_ring_index x k :
  0 <= k <= 31 -> 0 <= x < 2 ^ k -> Z.land (wrap32 x) (2 ^ k - 1) = x.
Proof.
  intros Hk Hx. pose proof (pow2_le k 31 ltac:(lia)) as H.
  change (2 ^ 31) with 2147483648 in H.
  rewrite wrap32_small, land_mask by lia. apply Z.mod_small. lia.
Qed.

(** While a line is left before the garbage line, [iffq_insert] succeeds. *)
Lemma iffq_insert_step k L f t m :
  0 <= k <= 31 -> 1 <= L -> 0 <= t -> L + t + L < 2 ^ k ->
  insert_inv (2 ^ k) L f t ->
  exists f', iffq_insert f m = (0, f') /\ insert_inv (2 ^ k) L f' (t + 1).
Proof.
  intros Hk HL Ht Hroom (Hm & Hle & Hpw & (c & Hpc) & Hb & Hg & Hz).
  pose proof (pow2_le k 31 ltac:(lia)) as HE.
  change (2 ^ 31) with 2147483648 in HE.
  assert (Hidx : Z.land (prod_write f) (entry_mask f) = prod_write f).
  { rewrite Hm. rewrite <- (wrap32_small (prod_write f)) at 1 by lia.
    apply small_ring_index; lia. }
  unfold iffq_insert. rewrite Hle.
  destruct (Z.eqb_spec (prod_write f) (prod_check f)) as [E|E]; simpl.
  - rewrite Hm, small_ring_index by lia.
    rewrite Hz by lia. simpl. rewrite <- Hm, Hidx.
    eexists; split; [reflexivity|].
    unfold insert_inv; simpl. rewrite !wrap32_small by lia.
    repeat split; try lia.
    + exists (c + 1). lia.
    + rewrite load_store_other by lia. exact Hg.
    + intros i Hi. rewrite load_store_other by lia. apply Hz. lia.
  - rewrite Hidx. eexists; split; [reflexivity|].
    unfold insert_inv; simpl. rewrite !wrap32_small by lia.
    repeat split; try lia.
    + exists c. exact Hpc.
    + rewrite load_store_other by lia. exact Hg.
    + intros i Hi. rewrite load_store_other by lia. apply Hz. lia.
Qed.

(** At a checkpoint whose next line starts at the garbage slot,
    [iffq_insert] reports full and changes nothing. *)
Lemma iffq_insert_stuck k f m :
  0 <= k <= 31 -> entry_mask f = 2 ^ k - 1 ->
  prod_write f = prod_check f ->
  0 <= prod_check f + line_entries f < 4294967296 ->
  (prod_check f + line_entries f) mod 2 ^ k = 0 ->
  load (q f) 0 = 1 ->
  iffq_insert f m = (- ENOBUFS, f).
Proof.
  intros Hk Hm Heq Hr Hmod Hg. unfold iffq_insert.
  rewrite Heq, Z.eqb_refl, Hm, wrap32_small, land_mask, Hmod, Hg by lia.
  reflexivity.
Qed.

Lemma iffq_insert_all_stuck vs f :
  (forall m, iffq_insert f m = (- ENOBUFS, f)) ->
  fst (iffq_insert_all f vs) = replicate (length vs) (- ENOBUFS).
Proof.
  intros Hstuck. induction vs as [|v vs IH]; simpl; [reflexivity|].
  rewrite Hstuck. destruct (iffq_insert_all f vs) as [rs f2]. simpl in *.
  rewrite IH. reflexivity.
Qed.

Lemma insert_inv_full k j f :
  0 <= j -> j < k <= 31 ->
  insert_inv (2 ^ k) (2 ^ j) f (2 ^ k - 2 * 2 ^ j) ->
  forall m, iffq_insert f m = (- ENOBUFS, f).
Proof.
  intros Hj Hk (Hm & Hle & Hpw & (c & Hpc) & Hb & Hg & _) m.
  pose proof (pow2_pos j ltac:(lia)) as HL.
  pose proof (pow2_le k 31 ltac:(lia)) as HE.
  change (2 ^ 31) with 2147483648 in HE.
  assert (HEL : 2 ^ k = 2 ^ (k - j) * 2 ^ j).
  { rewrite <- Z.pow_add_r by lia. f_equal. lia. }
  assert (Hc : c = 2 ^ (k - j) - 1) by nia.
  assert (Hpc' : prod_check f = 2 ^ k - 2 ^ j) by (rewrite Hpc, Hc; lia).
  apply (iffq_insert_stuck k); try assumption; try lia.
  rewrite Hle, Hpc'. replace (2 ^ k - 2 ^ j + 2 ^ j) with (2 ^ k) by lia.
  apply Z.mod_same. lia.
Qed.

(** From [t] inserts on, the calls succeed until [n = E - 2 L] values are in
    and fail from then on. *)
Lemma iffq_insert_all_run k j vs : forall f t,
  0 <= j -> j < k <= 31 -> 0 <= t <= 2 ^ k - 2 * 2 ^ j ->
  insert_inv (2 ^ k) (2 ^ j) f t ->
  fst (iffq_insert_all f vs)
  = (fun i => if i + t <? 2 ^ k - 2 * 2 ^ j then 0 else - ENOBUFS)
      <$> seqZ 0 (Z.of_nat (length vs)).
Proof.
  induction vs as [|v vs IH]; intros f t Hj Hk Ht Hinv; [reflexivity|].
  pose proof (pow2_pos j ltac:(lia)) as HL.
  change (length (v :: vs)) with (S (length vs)).
  rewrite Nat2Z.inj_succ, seqZ_cons by lia. rewrite fmap_cons.
  replace (Z.pred (Z.succ (Z.of_nat (length vs)))) with (Z.of_nat (length vs)) by lia.
  replace (Z.succ 0) with (1 + 0) by lia.
  rewrite <- (fmap_add_seqZ 1 0), <- list_fmap_compose.
  simpl iffq_insert_all.
  destruct (Z.ltb_spec (0 + t) (2 ^ k - 2 * 2 ^ j)) as [Hlt|Hge].
  - destruct (iffq_insert_step k (2 ^ j) f t v) as (f1 & Hins & Hinv1);
      [lia..|assumption|].
    rewrite Hins. specialize (IH f1 (t + 1) Hj Hk ltac:(lia) Hinv1).
    destruct (iffq_insert_all f1 vs) as [rs f2]. simpl in *. rewrite IH.
    f_equal. apply Forall_fmap_ext, Forall_seqZ. intros i Hi. simpl.
    replace (1 + i + t) with (i + (t + 1)) by lia. reflexivity.
  - assert (t = 2 ^ k - 2 * 2 ^ j) by lia. subst t.
    rewrite (insert_inv_full k j f Hj Hk Hinv).
    specialize (IH f _ Hj Hk Ht Hinv).
    destruct (iffq_insert_all f vs) as [rs f2]. simpl in *. rewrite IH.
    f_equal. apply Forall_fmap_ext, Forall_seqZ. intros i Hi. simpl.
    destruct (Z.ltb_spec (i + (2 ^ k - 2 * 2 ^ j)) (2 ^ k - 2 * 2 ^ j)); [lia|].
    destruct (Z.ltb_spec (1 + i + (2 ^ k - 2 * 2 ^ j)) (2 ^ k - 2 * 2 ^ j)); [lia|].
    reflexivity.
Qed.

Lemma fmap_seqZ_const (g : Z -> Z) x len : forall m,
  (forall i, m <= i -> g i = x) ->
  g <$> seqZ m (Z.of_nat len) = replicate len x.
Proof.
  induction len as [|len IH]; intros m Hg; [reflexivity|].
  rewrite Nat2Z.inj_succ, seqZ_cons by lia. simpl.
  replace (Z.pred (Z.succ (Z.of_nat len))) with (Z.of_nat len) by lia.
  rewrite Hg by lia. f_equal. apply IH. intros i Hi. apply Hg. lia.
Qed.

(** C5. Usable capacity of the improved FastForward queue.  On a queue freshly
    initialised by [iffq_init] in improved mode (zero-filled storage of
    [entries] slots) and with no consumer activity, the [i]-th call of
    [iffq_insert], counting from 0, returns 0 when
    [i < entries - 2 * (line_size / sizeof(uintptr_t))] and [-ENOBUFS]
    otherwise, whatever the values: exactly that many inserts succeed and
    every later one reports full. *)
Theorem iffq_usable_capacity entries line_size f vs :
  0 <= entries < 4294967296 -> 0 <= line_size < 4294967296 ->
  iffq_init (iffq_zeroed entries) entries line_size 1 = (0, f) ->
  fst (iffq_insert_all f vs)
  = (fun i => if i <? entries - 2 * (line_size / sizeof_uintptr_t)
              then 0 else - ENOBUFS)
      <$> seqZ 0 (Z.of_nat (length vs)).
Proof.
  intros He Hl Hinit.
  destruct (iffq_init_improved_spec entries line_size f He Hl Hinit)
    as (k & j & Hk & Hj & -> & -> & Hm & Hle & Hpw & Hpc & Hlen & Hg & Hz & Hfit).
  pose proof (pow2_pos j ltac:(lia)) as HL.
  pose proof (pow2_pos k ltac:(lia)) as HE.
  destruct (Z.lt_ge_cases (2 * 2 ^ j) (2 ^ k)) as [Hlt|Hge].
  - assert (Hjk : j < k).
    { apply pow2_lt_inv; lia. }
    rewrite (iffq_insert_all_run k j vs f 0); try lia.
    + apply Forall_fmap_ext, Forall_seqZ. intros i Hi. simpl.
      rewrite Z.add_0_r. reflexivity.
    + unfold insert_inv. rewrite Hm, Hle, Hpw, Hpc.
      repeat split; try lia; try assumption. exists 1. lia.
  - assert (Hkj : k <= j + 1).
    { destruct (Z.le_gt_cases k (j + 1)) as [H|H]; [assumption|exfalso].
      pose proof (pow2_le (j + 2) k ltac:(lia)) as H2.
      replace (j + 2) with (1 + (1 + j)) in H2 by lia.
      rewrite !Z.pow_add_r in H2 by lia. change (2 ^ 1) with 2 in H2. lia. }
    pose proof (pow2_le j 28 ltac:(lia)) as H28.
    change (2 ^ 28) with 268435456 in H28.
    rewrite iffq_insert_all_stuck.
    + symmetry. apply fmap_seqZ_const. intros i Hi.
      destruct (Z.ltb_spec i (2 ^ k - 2 * 2 ^ j)); [lia|reflexivity].
    + intros m. apply (iffq_insert_stuck k); try assumption; try lia.
      rewrite Hpc, Hle.
      replace (2 ^ j + 2 ^ j) with (2 ^ (j + 1 - k) * 2 ^ k).
      * apply Z.mod_mul. lia.
      * rewrite <- Z.pow_add_r by lia. replace (j + 1 - k + k) with (1 + j) by lia.
        rewrite Z.pow_add_r by lia. change (2 ^ 1) with 2. lia.
Qed.

Lemma iffq_usable_capacity_witness :
  fst (iffq_insert_all (snd (iffq_init (iffq_zeroed 32) 32 64 1)) (seqZ 1 18))
  = replicate 16 0 ++ [- ENOBUFS; - ENOBUFS].
Proof.
  refine (iffq_usable_capacity 32 64 (snd (iffq_init (iffq_zeroed 32) 32 64 1))
                               (seqZ 1 18) _ _ _).
  - lia.
  - lia.
  - reflexivity.
Defined.

End ImprovedFacts.

(** ** Init validation *)

Section InitValidation.
Import Lamport FastForward.

(** [blq_init] on the capacities the specification lists. *)
Lemma blq_init_listed_capacities b :
  fst (blq_init b 0) = -1 /\ fst (blq_init b 3) = -1 /\
  fst (blq_init b 5) = -1 /\ fst (blq_init b 100) = -1 /\
  fst (blq_init b 2) = 0 /\ fst (blq_init b 4) = 0 /\
  fst (blq_init b 1024) = 0.
Proof. repeat split. Qed.

(** [iffq_init] rejects 3, 5 and 100 entries whatever the other arguments,
    rejects 0 in improved mode, and accepts 2, 4 and 1024 where the other
    tests pass. *)
Lemma iffq_init_listed_entries f line_size improved :
  fst (iffq_init f 3 line_size improved) = - EINVAL /\
  fst (iffq_init f 5 line_size improved) = - EINVAL /\
  fst (iffq_init f 100 line_size improved) = - EINVAL /\
  fst (iffq_init f 2 64 0) = 0 /\ fst (iffq_init f 4 64 0) = 0 /\
  fst (iffq_init f 1024 64 0) = 0 /\
  fst (iffq_init f 4 8 1) = 0 /\ fst (iffq_init f 1024 64 1) = 0.
Proof. repeat split. Qed.

(** X14. [iffq_init] rejects a line size below one slot or not a power of
    two. *)
Lemma iffq_init_rejects_line_size f entries line_size improved :
  0 <= line_size < 4294967296 ->
  line_size < sizeof_uintptr_t \/ ~ (exists j, 0 <= j <= 31 /\ line_size = 2 ^ j) ->
  fst (iffq_init f entries line_size improved) = - EINVAL.
Proof.
  intros Hl Hbad. unfold iffq_init.
  destruct (Z.ltb_spec line_size sizeof_uintptr_t) as [Hlt|Hge].
  - rewrite orb_true_r. reflexivity.
  - destruct Hbad as [Hlt|Hnp]; [lia|].
    destruct (is_power_of_two (to_int line_size)) eqn:Hp.
    + exfalso. apply Hnp. apply is_power_of_two_uint; [|assumption].
      unfold sizeof_uintptr_t in Hge. lia.
    + simpl. rewrite orb_true_r. reflexivity.
Qed.

(** X15. In improved mode [iffq_init] rejects a ring that does not exceed
    two lines, as long as [2 * line_size] fits in 32 bits. *)
Lemma iffq_init_rejects_small_ring f entries line_size improved :
  improved <> 0 -> 0 <= entries < 4294967296 -> 0 <= line_size < 2147483648 ->
  entries * sizeof_uintptr_t <= 2 * line_size ->
  fst (iffq_init f entries line_size improved) = - EINVAL.
Proof.
  intros Himp He Hl Hsmall. unfold iffq_init.
  destruct (Z.eqb_spec improved 0) as [|_]; [contradiction|]. simpl.
  unfold sizeof_uintptr_t in *.
  rewrite wrap64_small, wrap32_small by lia.
  destruct (Z.leb_spec (entries * 8) (2 * line_size)); [|lia].
  rewrite orb_true_r. reflexivity.
Qed.

Lemma iffq_init_geometry entries line_size improved f :
  0 < entries < 4294967296 -> 0 <= line_size < 4294967296 ->
  iffq_init (iffq_zeroed entries) entries line_size improved = (0, f) ->
  iffq_ring_ok f = true /\ iffq_line_ok f = true.
Proof.
  intros He Hl Hinit. unfold iffq_init in Hinit.
  destruct (_ || _) eqn:Hchk; [discriminate|].
  repeat (apply orb_false_elim in Hchk; destruct Hchk as [Hchk ?]).
  apply negb_false_iff in Hchk.
  match goal with H : negb (is_power_of_two (to_int line_size)) = false |- _ =>
    apply negb_false_iff in H; rename H into Hpl end.
  match goal with H : (line_size <? _) = false |- _ =>
    apply Z.ltb_ge in H; rename H into Hl8 end.
  unfold sizeof_uintptr_t in *.
  pose proof Hchk as Hpe.
  apply is_power_of_two_uint in Hchk; [|lia]. destruct Hchk as (k & Hk & ->).
  apply is_power_of_two_uint in Hpl; [|lia]. destruct Hpl as (j' & Hj' & ->).
  assert (Hj3 : 3 <= j').
  { destruct (Z.lt_ge_cases j' 3) as [Hc|Hc]; [|assumption]. exfalso.
    pose proof (pow2_le j' 2 ltac:(lia)) as H4. change (2 ^ 2) with 4 in H4. lia. }
  assert (HL : 2 ^ j' / 8 = 2 ^ (j' - 3)).
  { change 8 with (2 ^ 3). rewrite <- Z.pow_sub_r by lia. reflexivity. }
  pose proof (pow2_pos (j' - 3) ltac:(lia)) as HLpos.
  pose proof (pow2_le (j' - 3) 28 ltac:(lia)) as HLle.
  change (2 ^ 28) with 268435456 in HLle.
  pose proof (pow2_pos k ltac:(lia)) as HEpos.
  pose proof (pow2_le k 31 ltac:(lia)) as HEle.
  change (2 ^ 31) with 2147483648 in HEle.
  assert (Hring : forall l, Z.of_nat (length l) = 2 ^ k ->
            iffq_ring_ok (mkIffq (replicate (Z.to_nat IFFQ_PROD_CACHE_ENTRIES) 0)
                                 (wrap32 (2 ^ k - 1)) (wrap32 (2 ^ j' / 8))
                                 (wrap32 (Z.lnot (wrap32 (wrap32 (2 ^ j' / 8) - 1))))
                                 (wrap32 (2 ^ j' / 8)) (wrap32 (2 ^ j' / 8)) 0 0
                                 (wrap32 (2 ^ j' / 8)) l) = true).
  { intros l Hlen. unfold iffq_ring_ok; simpl.
    rewrite (wrap32_small (2 ^ k - 1)) by lia.
    replace (2 ^ k - 1 + 1) with (2 ^ k) by lia.
    rewrite Hpe, Hlen, Z.eqb_refl.
    destruct (Z.leb_spec 1 (2 ^ k)); [|lia].
    destruct (Z.leb_spec (2 ^ k) 2147483648); [|lia]. reflexivity. }
  assert (Hline : forall l,
            iffq_line_ok (mkIffq (replicate (Z.to_nat IFFQ_PROD_CACHE_ENTRIES) 0)
                                 (wrap32 (2 ^ k - 1)) (wrap32 (2 ^ j' / 8))
                                 (wrap32 (Z.lnot (wrap32 (wrap32 (2 ^ j' / 8) - 1))))
                                 (wrap32 (2 ^ j' / 8)) (wrap32 (2 ^ j' / 8)) 0 0
                                 (wrap32 (2 ^ j' / 8)) l) = true).
  { intros l. unfold iffq_line_ok; simpl.
    rewrite HL, !(wrap32_small (2 ^ (j' - 3))) by lia.
    rewrite Z.eqb_refl.
    rewrite (proj2 (is_power_of_two_spec (2 ^ (j' - 3)) ltac:(lia)))
      by (exists (j' - 3); split; [lia|reflexivity]).
    destruct (Z.leb_spec 1 (2 ^ (j' - 3))); [|lia].
    destruct (Z.ltb_spec (2 ^ (j' - 3)) 2147483648); [|lia]. reflexivity. }
  destruct (negb (improved =? 0)); injection Hinit as <-.
  - unfold set_q; simpl. split; [|apply Hline].
    apply Hring.
    destruct (iffq_init_fill_spec
                (Z.to_nat (wrap32 (wrap32 (2 ^ j' / 8) - 0)))
                (wrap32 (2 ^ j' / 8)) 0 (replicate (Z.to_nat (2 ^ k)) 0))
      as (F1 & _).
    { lia. }
    { rewrite Z.sub_0_r, HL, !(wrap32_small (2 ^ (j' - 3))) by lia. lia. }
    { rewrite HL, wrap32_small; lia. }
    rewrite F1, length_replicate. lia.
  - simpl. split; [|apply Hline].
    apply Hring. simpl. rewrite length_replicate. lia.
Qed.

(** X13. A successful [iffq_init] on zero-filled storage of [entries] slots
    (at least one) establishes the ring and line geometry the lemmas above
    assume, with empty staging buffer and [cons_clear] at 0. *)
Lemma iffq_init_ok entries line_size improved f :
  0 < entries < 4294967296 -> 0 <= line_size < 4294967296 ->
  iffq_init (iffq_zeroed entries) entries line_size improved = (0, f) ->
  iffq_ring_ok f = true /\ iffq_line_ok f = true /\
  cons_clear f = 0 /\ prod_cache_write f = 0 /\
  Z.of_nat (length (prod_cache f)) = IFFQ_PROD_CACHE_ENTRIES.
Proof.
  intros He Hl Hinit.
  destruct (iffq_init_geometry entries line_size improved f He Hl Hinit)
    as [Hring Hline].
  split; [exact Hring|]. split; [exact Hline|].
  unfold iffq_init in Hinit. destruct (_ || _); [discriminate|].
  destruct (negb (improved =? 0)); injection Hinit as <-; repeat split.
Qed.

Lemma iffq_init_rejects_line_size_witness :
  fst (iffq_init (iffq_zeroed 16) 16 4 0) = - EINVAL.
Proof.
  refine (iffq_init_rejects_line_size (iffq_zeroed 16) 16 4 0 _ _).
  - lia.
  - left. reflexivity.
Defined.

Lemma iffq_init_rejects_small_ring_witness :
  fst (iffq_init (iffq_zeroed 16) 16 64 1) = - EINVAL.
Proof.
  refine (iffq_init_rejects_small_ring (iffq_zeroed 16) 16 64 1 _ _ _ _).
  - discriminate.
  - lia.
  - lia.
  - vm_compute. discriminate.
Defined.

Lemma iffq_init_ok_witness :
  iffq_ring_ok (snd (iffq_init (iffq_zeroed 64) 64 64 1)) = true.
Proof.
  refine (proj1 (iffq_init_ok 64 64 1 (snd (iffq_init (iffq_zeroed 64) 64 64 1))
                              _ _ _)).
  - lia.
  - lia.
  - reflexivity.
Defined.

End InitValidation.

(** * Further properties of the code *)

(** ** The plain Lamport queue is a bounded FIFO *)

Section LamportFifo.
Import Lamport Fifo.

Lemma lq_count_range b :
  blq_ok b = true -> lq_cursors_ok b = true -> 0 <= lq_count b <= qlen b - 1.
Proof.
  intros Hok Hc. apply lq_cursors_ok_spec in Hc.
  destruct (blq_ok_spec b Hok) as (k & Hk & Hq & _).
  pose proof (pow2_pos k ltac:(lia)). unfold lq_count. mod_split; lia.
Qed.

Lemma lq_write_qlen b m : qlen (snd (lq_write b m)) = qlen b.
Proof. unfold lq_write. destruct (_ =? _); reflexivity. Qed.

Lemma lq_read_qlen b : qlen (snd (lq_read b)) = qlen b.
Proof. unfold lq_read. destruct (_ =? _); reflexivity. Qed.

(** One call of the plain interface against one step of the reference
    queue of [qlen - 1] items. *)
Lemma lq_step_fifo b o :
  blq_ok b = true -> lq_cursors_ok b = true ->
  blq_ok (snd (lq_step b o)) = true /\
  lq_cursors_ok (snd (lq_step b o)) = true /\
  qlen (snd (lq_step b o)) = qlen b /\
  (fst (lq_step b o), lq_contents (snd (lq_step b o)))
  = fifo_step (qlen b - 1) (lq_contents b) o.
Proof.
  intros Hok Hc.
  pose proof (lq_count_range b Hok Hc) as Hr.
  pose proof (lq_contents_length b ltac:(lia)) as Hlen.
  destruct o as [m|]; simpl.
  - rewrite Hlen.
    destruct (Z.ltb_spec (lq_count b) (qlen b - 1)) as [Hlt|Hge].
    + destruct (lq_write_contents b m Hok Hc Hlt) as (b' & Hw & Hok' & Hc' & _ & Hcont).
      rewrite Hw; simpl. rewrite <- Hcont.
      repeat split; try assumption.
      rewrite <- (lq_write_qlen b m), Hw. reflexivity.
    + assert (Hfull : (write b + 1) mod qlen b = read b)
        by (apply lq_full_iff_count; [assumption..|lia]).
      rewrite lq_write_step by assumption.
      apply Z.eqb_eq in Hfull. rewrite Hfull; simpl.
      repeat split; assumption.
  - destruct (Z.eq_dec (lq_count b) 0) as [H0|Hne].
    + assert (Hempty : read b = write b)
        by (apply lq_empty_iff_count; assumption).
      rewrite lq_read_step by assumption.
      apply Z.eqb_eq in Hempty. rewrite Hempty; simpl.
      assert (Hnil : lq_contents b = []).
      { unfold lq_contents. rewrite H0. reflexivity. }
      rewrite Hnil. repeat split; assumption.
    + destruct (lq_read_contents b Hok Hc ltac:(lia))
        as (m & rest & b' & Hcont & Hrd & Hok' & Hc' & _ & Hrest).
      rewrite Hrd, Hcont; simpl. rewrite Hrest.
      repeat split; try assumption.
      rewrite <- (lq_read_qlen b), Hrd. reflexivity.
Qed.

(** X1. Any sequence of [lq_write] and [lq_read] calls on a well-formed
    queue returns what a first-in first-out queue of [qlen - 1] items
    returns for the same calls, and leaves the same items unread: nothing is
    lost, duplicated or reordered, [lq_write] fails exactly when [qlen - 1]
    items are unread and [lq_read] returns 0 on the empty queue. *)
Theorem lq_refines_fifo ops : forall b,
  blq_ok b = true -> lq_cursors_ok b = true ->
  fst (run lq_step b ops)
  = fst (run (fifo_step (qlen b - 1)) (lq_contents b) ops) /\
  lq_contents (snd (run lq_step b ops))
  = snd (run (fifo_step (qlen b - 1)) (lq_contents b) ops).
Proof.
  induction ops as [|o ops IH]; intros b Hok Hc; simpl; [split; reflexivity|].
  destruct (lq_step_fifo b o Hok Hc) as (Hok' & Hc' & Hq & Hstep).
  destruct (lq_step b o) as [r b1]. simpl in *.
  rewrite <- Hstep. specialize (IH b1 Hok' Hc'). rewrite Hq in IH.
  destruct (run lq_step b1 ops) as [rs b2].
  destruct (run (fifo_step (qlen b - 1)) (lq_contents b1) ops) as [rs' l2].
  simpl in *. destruct IH as [-> ->]. split; reflexivity.
Qed.

Lemma lq_refines_fifo_witness :
  fst (run lq_step (snd (blq_init (blq_zeroed 4) 4))
           [Enq 5; Enq 6; Deq; Enq 7; Enq 8; Enq 9; Deq; Deq; Deq; Deq])
  = [0; 0; 5; 0; 0; -1; 6; 7; 8; 0].
Proof.
  refine (proj1 (lq_refines_fifo
            [Enq 5; Enq 6; Deq; Enq 7; Enq 8; Enq 9; Deq; Deq; Deq; Deq]
            (snd (blq_init (blq_zeroed 4) 4)) _ _)).
  - reflexivity.
  - reflexivity.
Defined.

End LamportFifo.

(** ** The cached Lamport queue is a bounded FIFO, one line shorter *)

Section CachedLamportFifo.
Import Lamport Fifo.

Lemma lq_contents_ext a b :
  q a = q b -> read a = read b -> write a = write b -> qlen a = qlen b ->
  lq_contents a = lq_contents b.
Proof. intros Hq Hr Hw Hn. unfold lq_contents, lq_count. rewrite Hq, Hr, Hw, Hn. reflexivity. Qed.

Lemma blq_ok_ext a b :
  q a = q b -> qmask a = qmask b -> qlen a = qlen b -> blq_ok a = blq_ok b.
Proof. intros Hq Hm Hn. unfold blq_ok. rewrite Hq, Hm, Hn. reflexivity. Qed.

(** The slot [llq_write] compares with the read shadow. *)
Lemma llq_check_value b k :
  1 <= k <= 30 -> qmask b = 2 ^ k - 1 ->
  0 <= write b < 2 ^ k ->
  wrap32 (Z.land (wrap64 (write b + line_slots)) (qmask b))
  = (write b + 8) mod 2 ^ k.
Proof.
  intros Hk Hm Hw. change line_slots with 8.
  rewrite Hm, land_mask, mod_pow2_wrap64 by lia.
  pose proof (pow2_pos k ltac:(lia)).
  pose proof (pow2_le k 30 ltac:(lia)) as Hle. change (2 ^ 30) with 1073741824 in Hle.
  pose proof (Z.mod_pos_bound (write b + 8) (2 ^ k) ltac:(lia)).
  apply wrap32_small. lia.
Qed.

(** When the check slot is the read shadow, and when it is the read cursor
    itself. *)
Lemma llq_check_iff n w r rs k :
  1 <= k <= 30 -> n = 2 ^ k ->
  0 <= w < n -> 0 <= r < n -> 0 <= rs < n ->
  (w - r) mod n + (r - rs) mod n <= Z.max 0 (n - 8) ->
  ((w + 8) mod n = rs <-> (w - r) mod n + (r - rs) mod n = Z.max 0 (n - 8)) /\
  ((w + 8) mod n = r <-> (w - r) mod n = Z.max 0 (n - 8) /\ (r - rs) mod n = 0).
Proof.
  intros Hk Hn Hw Hr Hrs Hsum.
  destruct (Z.eq_dec k 1) as [->|H1]; [|destruct (Z.eq_dec k 2) as [->|H2]].
  - change (2 ^ 1) with 2 in Hn. subst n. split; split; intros; Z.div_mod_to_equations; lia.
  - change (2 ^ 2) with 4 in Hn. subst n. split; split; intros; Z.div_mod_to_equations; lia.
  - pose proof (pow2_le 3 k ltac:(lia)) as H8. change (2 ^ 3) with 8 in H8.
    rewrite <- Hn in H8. rewrite Z.max_r in * by lia.
    split; split; intros; mod_split; lia.
Qed.

Ltac llq_open b H :=
  destruct H as (Hok & Hc & Hrs & Hws & Hrp & Hsum & He);
  pose proof (blq_ok_spec b Hok) as (k & Hk & Hq & Hm & Hlen);
  pose proof (pow2_pos k ltac:(lia)) as Hpos;
  pose proof Hc as Hc'; apply lq_cursors_ok_spec in Hc';
  unfold llq_capacity in *; change line_slots with 8 in *.

Lemma llq_write_fifo b m :
  llq_inv b ->
  llq_inv (snd (llq_write b m)) /\
  qlen (snd (llq_write b m)) = qlen b /\
  (fst (llq_write b m), lq_contents (snd (llq_write b m)))
  = fifo_step (llq_capacity b) (lq_contents b) (Enq m).
Proof.
  intros Hinv. llq_open b Hinv.
  pose proof (lq_count_range b Hok Hc) as Hcr.
  pose proof (lq_contents_length b ltac:(lia)) as Hcl.
  destruct (llq_check_iff (qlen b) (write b) (read b) (read_shadow b) k
              Hk Hq ltac:(lia) ltac:(lia) Hrs Hsum) as [Hi1 Hi2].
  fold (lq_count b) in Hi1, Hi2.
  unfold llq_write, fifo_step. rewrite Hcl.
  rewrite (llq_check_value b k) by (assumption || lia). rewrite <- Hq.
  (* the state after a successful store, whatever the shadow *)
  assert (Hsucc : forall b1 : Blq,
    q b1 = q b -> read b1 = read b -> write b1 = write b ->
    qlen b1 = qlen b -> qmask b1 = qmask b -> read_priv b1 = read_priv b ->
    write_shadow b1 = write_shadow b ->
    0 <= read_shadow b1 < qlen b ->
    lq_count b + 1 + (read b - read_shadow b1) mod qlen b <= Z.max 0 (qlen b - 8) ->
    let b' := set_write (Z.land (wrap32 (write b + 1)) (qmask b1))
                        (set_q (store (q b1) (write b) m) b1) in
    llq_inv b' /\ qlen b' = qlen b /\ lq_contents b' = lq_contents b ++ [m]).
  { intros b1 E1 E2 E3 E4 E5 E6 E7 Hrs1 Hsum1 b'.
    pose proof (Z.mod_pos_bound (read b - read_shadow b1) (qlen b) ltac:(lia)) as Hd1.
    destruct (lq_write_contents b m Hok Hc ltac:(lia))
      as (b2 & Hw & Hok2 & Hc2 & Hn2 & Hcont2).
    unfold lq_write in Hw. destruct (_ =? _); [discriminate|]. injection Hw as <-.
    assert (Hext : lq_contents b' = lq_contents b ++ [m]).
    { rewrite <- Hcont2. apply lq_contents_ext; unfold b'; simpl; congruence. }
    assert (Hcnt' : lq_count b' = lq_count b + 1).
    { rewrite <- Hn2. unfold lq_count, b'; simpl. congruence. }
    split; [|split; [unfold b'; simpl; exact E4|exact Hext]].
    unfold llq_inv, llq_capacity. change line_slots with 8.
    rewrite Hcnt'.
    split; [rewrite <- Hok2; apply blq_ok_ext; unfold b'; simpl; congruence|].
    split; [rewrite <- Hc2; unfold lq_cursors_ok, b'; simpl; congruence|].
    unfold b'; simpl. rewrite E2, E4, E6, E7.
    repeat split; try lia. }
  destruct (Z.eqb_spec ((write b + 8) mod qlen b) (read_shadow b)) as [Ers|Ers].
  - (* the shadow is refreshed *)
    simpl read_shadow.
    destruct (Z.eqb_spec ((write b + 8) mod qlen b) (read b)) as [Er|Er].
    + apply Hi2 in Er. destruct Er as [Hfull Hd].
      destruct (Z.ltb_spec (lq_count b) (Z.max 0 (qlen b - 8))); [lia|].
      assert (Hsame : read_shadow b = read b) by (mod_split; lia).
      simpl. rewrite <- Hsame, set_read_shadow_same.
      split; [|split; reflexivity].
      unfold llq_inv, llq_capacity. change line_slots with 8.
      repeat split; try assumption; lia.
    + assert (Hlt : lq_count b < Z.max 0 (qlen b - 8)).
      { apply Hi1 in Ers.
        destruct (Z.eq_dec ((read b - read_shadow b) mod qlen b) 0) as [H0|H0].
        - exfalso. apply Er. apply Hi2. split; lia.
        - pose proof (Z.mod_pos_bound (read b - read_shadow b) (qlen b) ltac:(lia)). lia. }
      destruct (Z.ltb_spec (lq_count b) (Z.max 0 (qlen b - 8))); [|lia].
      destruct (Hsucc (set_read_shadow (read b) b)) as (S1 & S2 & S3);
        try reflexivity; simpl.
      * lia.
      * rewrite Z.sub_diag, Z.mod_0_l by lia. lia.
      * simpl in *. split; [exact S1|]. split; [exact S2|]. rewrite S3. reflexivity.
  - assert (Hlt : lq_count b < Z.max 0 (qlen b - 8)).
    { destruct (Z.eq_dec (lq_count b + (read b - read_shadow b) mod qlen b)
                         (Z.max 0 (qlen b - 8))) as [E|E]; [apply Hi1 in E; contradiction|].
      pose proof (Z.mod_pos_bound (read b - read_shadow b) (qlen b) ltac:(lia)). lia. }
    destruct (Z.ltb_spec (lq_count b) (Z.max 0 (qlen b - 8))); [|lia].
    simpl read_shadow.
    destruct (Z.eqb_spec ((write b + 8) mod qlen b) (read_shadow b));
      [contradiction|].
    destruct (Hsucc b) as (S1 & S2 & S3); try reflexivity; simpl.
    + lia.
    + destruct (Z.eq_dec (lq_count b + (read b - read_shadow b) mod qlen b)
                         (Z.max 0 (qlen b - 8))) as [E|E]; [apply Hi1 in E; contradiction|lia].
    + simpl in *. split; [exact S1|]. split; [exact S2|]. rewrite S3. reflexivity.
Qed.

(** Advancing a cursor by one slot lengthens what trails it and shortens
    what leads it. *)
Lemma ring_trail_succ n r rs :
  0 <= r < n -> 0 <= rs < n -> (r - rs) mod n + 1 < n ->
  ((r + 1) mod n - rs) mod n = (r - rs) mod n + 1.
Proof. intros Hr Hrs Hd. mod_split; lia. Qed.

Lemma ring_lead_succ n r ws :
  0 <= r < n -> 0 <= ws < n -> 1 <= (ws - r) mod n ->
  (ws - (r + 1) mod n) mod n = (ws - r) mod n - 1.
Proof. intros Hr Hws Hd. mod_split; lia. Qed.

Lemma llq_read_fifo b :
  llq_inv b ->
  llq_inv (snd (llq_read b)) /\
  qlen (snd (llq_read b)) = qlen b /\
  (fst (llq_read b), lq_contents (snd (llq_read b)))
  = fifo_step (llq_capacity b) (lq_contents b) Deq.
Proof.
  intros Hinv. llq_open b Hinv.
  pose proof (lq_count_range b Hok Hc) as Hcr.
  pose proof (Z.mod_pos_bound (read b - read_shadow b) (qlen b) ltac:(lia)) as Hd.
  pose proof (Z.mod_pos_bound (write_shadow b - read b) (qlen b) ltac:(lia)) as He0.
  (* the state after a successful load, whatever the shadow *)
  assert (Hsucc : forall b1 : Blq,
    q b1 = q b -> read b1 = read b -> write b1 = write b ->
    qlen b1 = qlen b -> qmask b1 = qmask b -> read_shadow b1 = read_shadow b ->
    0 <= write_shadow b1 < qlen b ->
    1 <= (write_shadow b1 - read b) mod qlen b <= lq_count b ->
    let r' := Z.land (wrap32 (read b + 1)) (qmask b1) in
    let b' := set_read r' (set_read_priv r' b1) in
    llq_inv b' /\ qlen b' = qlen b /\
    lq_contents b = load (q b1) (read b) :: lq_contents b').
  { intros b1 E1 E2 E3 E4 E5 E6 Hws1 He1 r' b'.
    destruct (lq_read_contents b Hok Hc ltac:(lia))
      as (x & rest & b2 & Hcont & Hrd & Hok2 & Hc2 & Hn2 & Hrest).
    unfold lq_read in Hrd. destruct (_ =? _) eqn:Hemp.
    { apply Z.eqb_eq in Hemp. apply lq_empty_iff_count in Hemp; [lia|assumption..]. }
    injection Hrd as <- <-.
    assert (Hr' : r' = (read b + 1) mod qlen b).
    { unfold r'. rewrite (mask_succ b1 k) by (lia || congruence). congruence. }
    assert (Hext : lq_contents b' = rest).
    { rewrite <- Hrest. apply lq_contents_ext; unfold b'; simpl; try congruence.
      unfold r'. congruence. }
    split; [|split; [unfold b'; simpl; exact E4|rewrite Hcont, Hext, E1; reflexivity]].
    assert (Hcnt' : lq_count b' = lq_count b - 1).
    { rewrite <- Hn2. unfold lq_count, b'; simpl.
      rewrite E3, E4. unfold r'. rewrite E5. reflexivity. }
    unfold llq_inv, llq_capacity. change line_slots with 8. rewrite Hcnt'.
    split; [rewrite <- Hok; apply blq_ok_ext; unfold b'; simpl; congruence|].
    split.
    { rewrite <- Hc2. unfold lq_cursors_ok, b'; simpl.
      rewrite E3, E4. unfold r'. rewrite E5. reflexivity. }
    unfold b'; simpl. rewrite E4, E6, Hr'.
    split; [assumption|]. split; [assumption|]. split; [reflexivity|].
    rewrite ring_trail_succ; [|lia..].
    rewrite ring_lead_succ; [|lia|lia|apply He1].
    clear - Hsum He1 Hd. split; lia. }
  unfold llq_read, fifo_step. rewrite Hrp.
  destruct (Z.eqb_spec (read b) (write_shadow b)) as [Ews|Ews]; simpl.
  - destruct (Z.eqb_spec (read b) (write b)) as [Ew|Ew]; simpl.
    + assert (H0 : lq_count b = 0) by (apply lq_empty_iff_count; assumption).
      assert (Hnil : lq_contents b = []).
      { unfold lq_contents. rewrite H0. reflexivity. }
      replace (lq_contents (set_write_shadow (write b) b)) with (lq_contents b)
        by (apply lq_contents_ext; reflexivity).
      rewrite Hnil. split; [|split; reflexivity].
      unfold llq_inv, llq_capacity. change line_slots with 8.
      split; [exact Hok|]. split; [exact Hc|]. simpl.
      fold (lq_count b). repeat split; try assumption; try lia.
      change (lq_count (set_write_shadow (write b) b)) with (lq_count b). lia.
    + assert (Hpos' : 0 < lq_count b).
      { destruct (Z.eq_dec (lq_count b) 0) as [H0|H0]; [|lia].
        apply lq_empty_iff_count in H0; [contradiction|assumption..]. }
      destruct (Hsucc (set_write_shadow (write b) b)) as (S1 & S2 & S3);
        try reflexivity; simpl.
      * lia.
      * fold (lq_count b). lia.
      * simpl in *. split; [exact S1|]. split; [exact S2|]. rewrite S3. reflexivity.
  - assert (He1 : 1 <= (write_shadow b - read b) mod qlen b).
    { destruct (Z.eq_dec ((write_shadow b - read b) mod qlen b) 0) as [H0|H0]; [|lia].
      exfalso. apply Ews. mod_split; lia. }
    destruct (Hsucc b) as (S1 & S2 & S3); try reflexivity; simpl.
    + lia.
    + lia.
    + simpl in *. split; [exact S1|]. split; [exact S2|]. rewrite S3. reflexivity.
Qed.

Lemma llq_step_fifo b o :
  llq_inv b ->
  llq_inv (snd (llq_step b o)) /\ qlen (snd (llq_step b o)) = qlen b /\
  (fst (llq_step b o), lq_contents (snd (llq_step b o)))
  = fifo_step (llq_capacity b) (lq_contents b) o.
Proof.
  intros Hinv. destruct o as [m|]; [apply llq_write_fifo|apply llq_read_fifo]; assumption.
Qed.

Lemma llq_run_fifo ops : forall b,
  llq_inv b ->
  fst (run llq_step b ops)
  = fst (run (fifo_step (llq_capacity b)) (lq_contents b) ops) /\
  lq_contents (snd (run llq_step b ops))
  = snd (run (fifo_step (llq_capacity b)) (lq_contents b) ops).
Proof.
  induction ops as [|o ops IH]; intros b Hinv; simpl; [split; reflexivity|].
  destruct (llq_step_fifo b o Hinv) as (Hinv' & Hq & Hstep).
  destruct (llq_step b o) as [r b1]. simpl in *.
  rewrite <- Hstep. specialize (IH b1 Hinv').
  assert (Hcap : llq_capacity b1 = llq_capacity b)
    by (unfold llq_capacity; rewrite Hq; reflexivity).
  rewrite Hcap in IH.
  destruct (run llq_step b1 ops) as [rs b2].
  destruct (run (fifo_step (llq_capacity b)) (lq_contents b1) ops) as [rs' l2].
  simpl in *. destruct IH as [-> ->]. split; reflexivity.
Qed.

(** X2. On a freshly initialised queue of [n] slots, any sequence of
    [llq_write] and [llq_read] calls returns what a first-in first-out queue
    of [n - 8] items returns (of no item when [n] is 2, 4 or 8): the cached
    interface loses, duplicates and reorders nothing, and reports full
    exactly when [n - 8] items are unread, however stale its shadow of the
    read cursor. *)
Theorem llq_refines_fifo n b ops :
  - 2147483648 <= n < 2147483648 ->
  blq_init (blq_zeroed n) n = (0, b) ->
  fst (run llq_step b ops) = fst (run (fifo_step (Z.max 0 (n - 8))) [] ops) /\
  lq_contents (snd (run llq_step b ops))
  = snd (run (fifo_step (Z.max 0 (n - 8))) [] ops).
Proof.
  intros Hint Hinit.
  pose proof (blq_init_ok n b Hint Hinit) as Hok.
  assert (Hn : 2 <= n).
  { assert (Hacc : fst (blq_init (blq_zeroed n) n) = 0) by (rewrite Hinit; reflexivity).
    apply blq_init_accepts in Hacc; [|assumption].
    destruct Hacc as (k0 & Hk0 & ->).
    pose proof (pow2_le 1 k0 ltac:(lia)) as H2. exact H2. }
  unfold blq_init in Hinit. destruct (_ || _); [discriminate|].
  injection Hinit as Hb.
  assert (Hinv : llq_inv b).
  { destruct (blq_ok_spec b Hok) as (k & Hk & Hq & _).
    pose proof (pow2_pos k ltac:(lia)).
    unfold llq_inv, llq_capacity, lq_count, lq_cursors_ok.
    split; [exact Hok|]. rewrite Hq. rewrite <- Hb in *. simpl in *.
    rewrite Z.mod_0_l by lia.
    repeat split; try lia. }
  pose proof (llq_run_fifo ops b Hinv) as H.
  assert (Hcap : llq_capacity b = Z.max 0 (n - 8)).
  { unfold llq_capacity. rewrite <- Hb. simpl.
    destruct (blq_ok_spec b Hok) as (k & Hk & Hq & _).
    rewrite <- Hb in Hq. simpl in Hq.
    pose proof (pow2_le k 30 ltac:(lia)) as Hle. change (2 ^ 30) with 1073741824 in Hle.
    rewrite wrap32_small by lia. reflexivity. }
  assert (Hnil : lq_contents b = []).
  { rewrite <- Hb. reflexivity. }
  rewrite Hcap, Hnil in H. exact H.
Qed.

Lemma llq_refines_fifo_witness :
  fst (run llq_step (snd (blq_init (blq_zeroed 16) 16))
           (map Enq (seqZ 1 9) ++ [Deq; Deq; Enq 10; Enq 11; Enq 12]))
  = [0; 0; 0; 0; 0; 0; 0; 0; -1; 1; 2; 0; 0; -1].
Proof.
  refine (proj1 (llq_refines_fifo 16 (snd (blq_init (blq_zeroed 16) 16))
            (map Enq (seqZ 1 9) ++ [Deq; Deq; Enq 10; Enq 11; Enq 12]) _ _)).
  - lia.
  - reflexivity.
Defined.

End CachedLamportFifo.

(** ** The basic FastForward queue is a bounded FIFO over all its slots *)

Section FastForwardFifo.
Import FastForward Fifo.

Lemma ffq_contents_length f :
  Z.of_nat (length (ffq_contents f)) = ffq_count f.
Proof.
  unfold ffq_contents. rewrite length_fmap, length_seqZ.
  pose proof (wrap32_range (prod_write f - cons_read f)). unfold ffq_count. lia.
Qed.

Lemma ffq_write_fifo f m :
  ffq_inv f -> m <> 0 ->
  ffq_inv (snd (ffq_write f m)) /\
  entry_mask (snd (ffq_write f m)) = entry_mask f /\
  (fst (ffq_write f m), ffq_contents (snd (ffq_write f m)))
  = fifo_step (entry_mask f + 1) (ffq_contents f) (Enq m).
Proof.
  intros (Hring & Hpw & Hcr & Hcnt & Hnz & Hz) Hm.
  destruct (iffq_ring_ok_spec f Hring) as (k & Hk & Hmask & Hlen).
  pose proof (pow2_pos k ltac:(lia)) as Hpos.
  pose proof (pow2_le k 31 ltac:(lia)) as Hle. change (2 ^ 31) with 2147483648 in Hle.
  pose proof (wrap32_range (prod_write f - cons_read f)) as Hc0.
  fold (ffq_count f) in Hc0.
  assert (HE : entry_mask f + 1 = 2 ^ k) by lia.
  rewrite HE in *.
  assert (Hidx : Z.land (prod_write f) (entry_mask f)
                 = ring_index f (cons_read f) (ffq_count f)).
  { unfold ring_index, ffq_count. f_equal. wrap_lia. }
  pose proof (ring_index_range f (cons_read f) (ffq_count f) k Hk Hmask) as Hir.
  unfold ffq_write, fifo_step. rewrite ffq_contents_length, Hidx.
  destruct (Z.ltb_spec (ffq_count f) (2 ^ k)) as [Hlt|Hge].
  - rewrite Hz by lia. simpl.
    set (f' := set_prod_write _ _).
    assert (Hcnt' : ffq_count f' = ffq_count f + 1).
    { unfold ffq_count, f'; simpl. unfold ffq_count in *. wrap_lia. }
    assert (Hri : forall i, ring_index f' (cons_read f') i = ring_index f (cons_read f) i)
      by reflexivity.
    assert (Hold : forall i, 0 <= i < 2 ^ k -> i <> ffq_count f ->
              load (q f') (ring_index f (cons_read f) i)
              = load (q f) (ring_index f (cons_read f) i)).
    { intros i Hi Hne. unfold f'; simpl. apply load_store_other.
      - lia.
      - pose proof (ring_index_range f (cons_read f) i k Hk Hmask). lia.
      - intros Heq. apply Hne. symmetry.
        apply (ring_index_inj f (cons_read f) _ _ k Hk Hmask); [lia|assumption]. }
    assert (Hnew : load (q f') (ring_index f (cons_read f) (ffq_count f)) = m).
    { unfold f'; simpl. apply load_store_same. lia. }
    split; [|split; [reflexivity|]].
    + unfold ffq_inv. rewrite Hcnt'.
      split; [unfold iffq_ring_ok, f' in *; simpl; rewrite length_store; exact Hring|].
      split; [unfold f'; simpl; apply wrap32_range|].
      split; [exact Hcr|].
      split; [change (entry_mask f') with (entry_mask f); lia|].
      change (entry_mask f') with (entry_mask f). rewrite HE.
      split; intros i Hi; rewrite Hri.
      * destruct (Z.eq_dec i (ffq_count f)) as [->|Hne]; [rewrite Hnew; exact Hm|].
        rewrite Hold by lia. apply Hnz. lia.
      * rewrite Hold by lia. apply Hz. lia.
    + f_equal. unfold ffq_contents at 1. rewrite Hcnt'.
      rewrite (seqZ_app 0 (ffq_count f) 1) by lia. rewrite fmap_app. f_equal.
      * apply Forall_fmap_ext, Forall_seqZ. intros i Hi. rewrite Hri.
        apply Hold; lia.
      * simpl. f_equal. rewrite Hri. change (Z.of_nat 0) with 0.
        rewrite Z.add_0_l, Z.add_0_l. exact Hnew.
  - assert (Hfull : ffq_count f = 2 ^ k) by lia.
    assert (Hwrap : ring_index f (cons_read f) (ffq_count f)
                    = ring_index f (cons_read f) 0).
    { rewrite !(ring_index_mod f _ _ k) by assumption. rewrite Hfull.
      rewrite Z.add_0_r. rewrite <- Z.add_mod_idemp_r, Z.mod_same, Z.add_0_r by lia.
      reflexivity. }
    rewrite Hwrap.
    destruct (Z.eqb_spec (load (q f) (ring_index f (cons_read f) 0)) 0) as [E|E].
    { exfalso. apply (Hnz 0); [lia|exact E]. }
    simpl. split; [|split; reflexivity].
    unfold ffq_inv. rewrite HE. repeat split; try assumption; lia.
Qed.

Lemma ffq_read_fifo f :
  ffq_inv f ->
  ffq_inv (snd (ffq_read f)) /\
  entry_mask (snd (ffq_read f)) = entry_mask f /\
  (fst (ffq_read f), ffq_contents (snd (ffq_read f)))
  = fifo_step (entry_mask f + 1) (ffq_contents f) Deq.
Proof.
  intros (Hring & Hpw & Hcr & Hcnt & Hnz & Hz).
  destruct (iffq_ring_ok_spec f Hring) as (k & Hk & Hmask & Hlen).
  pose proof (pow2_pos k ltac:(lia)) as Hpos.
  pose proof (pow2_le k 31 ltac:(lia)) as Hle. change (2 ^ 31) with 2147483648 in Hle.
  pose proof (wrap32_range (prod_write f - cons_read f)) as Hc0.
  fold (ffq_count f) in Hc0.
  assert (HE : entry_mask f + 1 = 2 ^ k) by lia.
  rewrite HE in *.
  assert (Hidx : Z.land (cons_read f) (entry_mask f) = ring_index f (cons_read f) 0).
  { unfold ring_index. rewrite Z.add_0_r, wrap32_small by lia. reflexivity. }
  pose proof (ring_index_range f (cons_read f) 0 k Hk Hmask) as Hir.
  unfold ffq_read, fifo_step. rewrite Hidx.
  destruct (Z.eq_dec (ffq_count f) 0) as [H0|Hne].
  - rewrite Hz by lia. simpl.
    assert (Hnil : ffq_contents f = []).
    { unfold ffq_contents. rewrite H0. reflexivity. }
    rewrite Hnil. split; [|split; reflexivity].
    unfold ffq_inv. rewrite HE. repeat split; try assumption; lia.
  - pose proof (Hnz 0 ltac:(lia)) as Hm.
    destruct (Z.eqb_spec (load (q f) (ring_index f (cons_read f) 0)) 0) as [E|_];
      [contradiction|]. simpl.
    set (f' := set_cons_read _ _).
    assert (Hcnt' : ffq_count f' = ffq_count f - 1).
    { unfold ffq_count, f'; simpl. unfold ffq_count in *. wrap_lia. }
    assert (Hri : forall i, ring_index f' (cons_read f') i
                            = ring_index f (cons_read f) (i + 1)).
    { intros i. unfold ring_index, f'; simpl. f_equal. wrap_lia. }
    assert (Hold : forall i, 0 < i < 2 ^ k ->
              load (q f') (ring_index f (cons_read f) i)
              = load (q f) (ring_index f (cons_read f) i)).
    { intros i Hi. unfold f'; simpl. apply load_store_other.
      - lia.
      - pose proof (ring_index_range f (cons_read f) i k Hk Hmask). lia.
      - intros Heq.
        apply (ring_index_inj f (cons_read f) _ _ k Hk Hmask) in Heq; lia. }
    assert (Hwrap : ring_index f (cons_read f) (2 ^ k) = ring_index f (cons_read f) 0).
    { rewrite !(ring_index_mod f _ _ k) by assumption.
      rewrite Z.add_0_r. rewrite <- Z.add_mod_idemp_r, Z.mod_same, Z.add_0_r by lia.
      reflexivity. }
    split; [|split; [reflexivity|]].
    + unfold ffq_inv. rewrite Hcnt'.
      split; [unfold iffq_ring_ok, f' in *; simpl; rewrite length_store; exact Hring|].
      split; [exact Hpw|].
      split; [unfold f'; simpl; apply wrap32_range|].
      split; [change (entry_mask f') with (entry_mask f); lia|].
      change (entry_mask f') with (entry_mask f). rewrite HE.
      split; intros i Hi; rewrite Hri.
      * rewrite Hold by lia. apply Hnz. lia.
      * destruct (Z.eq_dec (i + 1) (2 ^ k)) as [->|Hlt].
        -- rewrite Hwrap. unfold f'; simpl. apply load_store_sentinel.
        -- rewrite Hold by lia. apply Hz. lia.
    + unfold ffq_contents at 2. rewrite seqZ_cons by lia. rewrite fmap_cons.
      rewrite Z.add_0_r || idtac. f_equal.
      unfold ffq_contents. rewrite Hcnt'.
      replace (Z.succ 0) with (1 + 0) by lia.
      rewrite <- (fmap_add_seqZ 1 0), <- list_fmap_compose.
      replace (Z.pred (ffq_count f)) with (ffq_count f - 1) by lia.
      apply Forall_fmap_ext, Forall_seqZ. intros i Hi. simpl.
      rewrite Hri. replace (1 + i) with (i + 1) by lia. apply Hold. lia.
Qed.

Lemma ffq_step_fifo f o :
  ffq_inv f -> nonzero_enq o ->
  ffq_inv (snd (ffq_step f o)) /\
  entry_mask (snd (ffq_step f o)) = entry_mask f /\
  (fst (ffq_step f o), ffq_contents (snd (ffq_step f o)))
  = fifo_step (entry_mask f + 1) (ffq_contents f) o.
Proof.
  intros Hinv Hnz. destruct o as [m|];
    [apply ffq_write_fifo|apply ffq_read_fifo]; assumption.
Qed.

Lemma ffq_run_fifo ops : forall f,
  ffq_inv f -> Forall nonzero_enq ops ->
  fst (run ffq_step f ops)
  = fst (run (fifo_step (entry_mask f + 1)) (ffq_contents f) ops) /\
  ffq_contents (snd (run ffq_step f ops))
  = snd (run (fifo_step (entry_mask f + 1)) (ffq_contents f) ops).
Proof.
  induction ops as [|o ops IH]; intros f Hinv Hall; simpl; [split; reflexivity|].
  apply Forall_cons in Hall. destruct Hall as [Ho Hall].
  destruct (ffq_step_fifo f o Hinv Ho) as (Hinv' & Hmask & Hstep).
  destruct (ffq_step f o) as [r f1]. simpl in *.
  rewrite <- Hstep. specialize (IH f1 Hinv' Hall). rewrite Hmask in IH.
  destruct (run ffq_step f1 ops) as [rs f2].
  destruct (run (fifo_step (entry_mask f + 1)) (ffq_contents f1) ops) as [rs' l2].
  simpl in *. destruct IH as [-> ->]. split; reflexivity.
Qed.

(** X3. On a ring of [entries] >= 1 slots freshly initialised in basic mode,
    any sequence of [ffq_write] calls with values other than 0 and
    [ffq_read] calls returns what a first-in first-out queue of [entries]
    items returns: nothing is lost, duplicated or reordered, every slot is
    usable, [ffq_write] fails exactly when all [entries] slots hold unread
    items and [ffq_read] returns 0 exactly when none does. *)
Theorem ffq_refines_fifo entries line_size f ops :
  0 < entries < 4294967296 -> 0 <= line_size < 4294967296 ->
  iffq_init (iffq_zeroed entries) entries line_size 0 = (0, f) ->
  Forall nonzero_enq ops ->
  fst (run ffq_step f ops) = fst (run (fifo_step entries) [] ops) /\
  ffq_contents (snd (run ffq_step f ops))
  = snd (run (fifo_step entries) [] ops).
Proof.
  intros He Hl Hinit Hall.
  destruct (iffq_init_geometry entries line_size 0 f He Hl Hinit) as [Hring _].
  destruct (iffq_ring_ok_spec f Hring) as (k & Hk & Hmask & Hlen).
  unfold iffq_init in Hinit. destruct (_ || _) eqn:Hchk; [discriminate|].
  simpl in Hinit. injection Hinit as Hf.
  assert (Hcnt : ffq_count f = 0).
  { rewrite <- Hf. unfold ffq_count; simpl. rewrite Z.sub_diag. reflexivity. }
  assert (Hq : q f = replicate (Z.to_nat entries) 0) by (rewrite <- Hf; reflexivity).
  assert (HE : entry_mask f + 1 = entries).
  { rewrite <- Hf. simpl. rewrite wrap32_small; lia. }
  assert (Hinv : ffq_inv f).
  { unfold ffq_inv. rewrite Hcnt, Hq.
    split; [exact Hring|].
    split; [rewrite <- Hf; simpl; apply wrap32_range|].
    split; [rewrite <- Hf; simpl; apply wrap32_range|].
    split; [lia|]. split; [intros; lia|].
    intros i Hi. apply load_replicate_zero. }
  pose proof (ffq_run_fifo ops f Hinv Hall) as H.
  assert (Hnil : ffq_contents f = []).
  { unfold ffq_contents. rewrite Hcnt. reflexivity. }
  rewrite HE, Hnil in H. exact H.
Qed.

Lemma ffq_refines_fifo_witness :
  fst (run ffq_step (snd (iffq_init (iffq_zeroed 2) 2 64 0))
           [Enq 5; Enq 6; Enq 7; Deq; Enq 8; Deq; Deq; Deq])
  = [0; 0; -1; 5; 0; 6; 8; 0].
Proof.
  refine (proj1 (ffq_refines_fifo 2 64 (snd (iffq_init (iffq_zeroed 2) 2 64 0))
            [Enq 5; Enq 6; Enq 7; Deq; Enq 8; Deq; Deq; Deq] _ _ _ _)).
  - lia.
  - lia.
  - reflexivity.
  - repeat constructor; discriminate.
Defined.

End FastForwardFifo.

(** ** Values through the two-phase interface arrive once and in order *)

Section TwoPhaseFifo.
Import Lamport TwoPhase TwoPhaseTrace.

Lemma land_qmask_count b k c :
  1 <= k <= 30 -> qmask b = 2 ^ k - 1 -> qlen b = 2 ^ k ->
  Z.land (wrap32 c) (qmask b) = c mod qlen b.
Proof.
  intros Hk Hm Hq. rewrite Hm, Hq, land_mask by lia. apply mod_pow2_wrap32. lia.
Qed.

Lemma mod_neq_near n i j : 0 < n -> 0 < j - i < n -> i mod n <> j mod n.
Proof.
  intros Hn Hd Heq. symmetry in Heq. apply Z.cong_iff_0 in Heq.
  rewrite Z.mod_small in Heq; lia.
Qed.

Ltac trace_open st H :=
  destruct st as [[wp rs w rp ws r ql qm sl] wc rc];
  unfold trace_inv in H; simpl in H;
  destruct H as (Hinv & Gwp & Gw & Grp & Gd5 & Gd34 & Glen & Gslots);
  pose proof Hinv as Hinv0;
  unfold protocol_inv, blq_batch_capacity in Hinv0; simpl in Hinv0;
  change line_slots with 8 in Hinv0;
  destruct Hinv0 as (Hshape & Hrange & Hwc & Hrc & Hrcb & Hsum);
  pose proof (batch_capacity_bound _ Hshape) as Hcap;
  unfold blq_batch_capacity in Hcap; simpl in Hcap;
  change line_slots with 8 in Hcap;
  pose proof Hshape as (k & Hk & Hq & Hm); simpl in Hq, Hm;
  pose proof (pow2_pos k ltac:(lia)) as Hpos.

(** One call of the protocol: how the history moves, and what a
    [blq_read_local] returns. *)
Lemma trace_inv_exec st o st' W P R :
  trace_inv st W P R -> exec st o = Some st' ->
  match o with
  | WriteLocal m => trace_inv st' (W ++ [m]) P R
  | WritePublish => trace_inv st' W (length W) R
  | ReadLocal =>
      trace_inv st' W P (S R) /\
      W !! R = Some (fst (blq_read_local (blq st)))
  | _ => trace_inv st' W P R
  end.
Proof.
  intros Ht Hex.
  assert (Hinv' : protocol_inv st').
  { destruct Ht as (Hinv & _). apply (protocol_inv_exec st o st' Hinv Hex). }
  trace_open st Ht.
  assert (Hgap : Z.max 0 (ql - 8) < ql) by lia.
  destruct o as [needed|m| |needed| |]; simpl in Hex.
  - (* blq_wspace *)
    unfold blq_wspace in Hex; simpl in Hex.
    destruct (_ <=? _); injection Hex as <-;
      (unfold trace_inv; simpl; split; [exact Hinv'|]; repeat split; assumption).
  - (* blq_write_local *)
    destruct (Z.ltb_spec 0 wc); [|discriminate]. injection Hex as <-.
    unfold trace_inv; simpl. split; [exact Hinv'|].
    rewrite length_app, length_store; simpl.
    assert (Hidx : Z.land wp qm = Z.of_nat (length W) mod ql).
    { rewrite Gwp.
      apply (land_qmask_count (mkBlq wp rs w rp ws r ql qm sl) k); assumption. }
    rewrite Hidx.
    split; [wrap_lia|]. split; [exact Gw|]. split; [exact Grp|].
    split; [wrap_lia|]. split; [exact Gd34|]. split; [exact Glen|].
    intros i Hi. destruct (decide (i = length W)) as [->|Hne].
    + rewrite lookup_app_r, Nat.sub_diag by lia. simpl.
      rewrite load_store_same; [reflexivity|].
      pose proof (Z.mod_pos_bound (Z.of_nat (length W)) ql ltac:(lia)). lia.
    + rewrite lookup_app_l by lia. rewrite Gslots by lia. f_equal.
      symmetry. apply load_store_other.
      * apply Z.mod_pos_bound; lia.
      * apply Z.mod_pos_bound; lia.
      * intros Heq. symmetry in Heq. revert Heq. apply mod_neq_near; [lia|].
        wrap_lia.
  - (* blq_write_publish *)
    injection Hex as <-. unfold trace_inv; simpl. split; [exact Hinv'|].
    split; [exact Gwp|]. split; [exact Gwp|]. split; [exact Grp|].
    split; [wrap_lia|]. split; [wrap_lia|]. split; [exact Glen|]. exact Gslots.
  - (* blq_rspace *)
    unfold blq_rspace in Hex; simpl in Hex.
    destruct (_ <=? _); injection Hex as <-;
      (unfold trace_inv; simpl; split; [exact Hinv'|]; repeat split;
       try assumption; wrap_lia).
  - (* blq_read_local *)
    destruct (Z.ltb_spec 0 rc); [|discriminate]. injection Hex as <-.
    assert (HRW : (R < length W)%nat) by (clear - Gd5 Gd34 Hrcb H Hrange; wrap_lia).
    assert (Hidx : Z.land rp qm = Z.of_nat R mod ql).
    { rewrite Grp.
      apply (land_qmask_count (mkBlq wp rs w rp ws r ql qm sl) k); assumption. }
    split.
    + unfold trace_inv; simpl. split; [exact Hinv'|].
      split; [exact Gwp|]. split; [exact Gw|]. split; [wrap_lia|].
      split; [exact Gd5|]. split; [wrap_lia|]. split; [exact Glen|].
      intros i Hi. apply Gslots. lia.
    + unfold blq_read_local; simpl. rewrite Hidx. apply Gslots. lia.
  - (* blq_read_publish *)
    injection Hex as <-. unfold trace_inv; simpl. split; [exact Hinv'|].
    repeat split; assumption.
Qed.

Lemma exec_reads_cons st o ops :
  exec_reads st (o :: ops)
  = match exec st o with
    | Some st' =>
        match o with
        | ReadLocal => fst (blq_read_local (blq st)) :: exec_reads st' ops
        | _ => exec_reads st' ops
        end
    | None => []
    end.
Proof. reflexivity. Qed.

Lemma trace_inv_exec_all ops : forall st W P R st',
  trace_inv st W P R -> exec_all st ops = Some st' ->
  trace_inv st' (W ++ written ops) (published_from (length W) P ops)
            (R + nreads ops) /\
  exec_reads st ops = take (nreads ops) (drop R (W ++ written ops)).
Proof.
  induction ops as [|o ops IH]; intros st W P R st' Ht Hex; simpl in Hex.
  - injection Hex as <-. simpl. rewrite app_nil_r, Nat.add_0_r.
    split; [assumption|reflexivity].
  - destruct (exec st o) as [st1|] eqn:E; [|discriminate].
    pose proof (trace_inv_exec st o st1 W P R Ht E) as Hstep.
    rewrite exec_reads_cons, E.
    destruct o as [needed|m| |needed| |]; simpl written; simpl published_from;
      simpl nreads.
    + apply (IH st1 W P R st' Hstep Hex).
    + destruct (IH st1 (W ++ [m]) P R st' Hstep Hex) as [I1 I2].
      rewrite length_app, Nat.add_1_r, <- app_assoc in I1.
      rewrite <- app_assoc in I2. split; assumption.
    + apply (IH st1 W (length W) R st' Hstep Hex).
    + apply (IH st1 W P R st' Hstep Hex).
    + destruct Hstep as [Hstep Hval].
      destruct (IH st1 W P (S R) st' Hstep Hex) as [I1 I2].
      rewrite Nat.add_succ_r. split; [exact I1|].
      rewrite I2.
      rewrite (drop_S (W ++ written ops) (fst (blq_read_local (blq st))) R).
      * reflexivity.
      * apply lookup_app_l_Some. exact Hval.
    + apply (IH st1 W P R st' Hstep Hex).
Qed.

Lemma trace_inv_start n st :
  - 2147483648 <= n < 2147483648 -> start n = Some st -> trace_inv st [] 0 0.
Proof.
  intros Hint Hstart.
  destruct (protocol_inv_start n st Hint Hstart) as [Hinv Hq].
  unfold start in Hstart.
  destruct (blq_init (blq_zeroed n) n) as [r b] eqn:E.
  destruct (Z.eqb_spec r 0) as [->|]; [|discriminate]. injection Hstart as <-.
  pose proof (blq_init_ok n b Hint E) as Hok.
  destruct (blq_ok_spec b Hok) as (k & Hk & Hlen & _ & Hql).
  unfold blq_init in E. destruct (_ || _); [discriminate|]. injection E as Hb.
  unfold trace_inv. simpl. split; [exact Hinv|].
  rewrite <- Hb in *. simpl in *.
  repeat split; try reflexivity.
  - lia.
  - intros i Hi. lia.
Qed.

(** X4. Whatever the interleaving of the six two-phase calls on a freshly
    initialised queue, as long as each side stays within what [blq_wspace]
    and [blq_rspace] granted it: the values returned by [blq_read_local] are,
    in order, the first values passed to [blq_write_local] (none lost,
    duplicated or reordered), and no more values are read than the last
    [blq_write_publish] covers. *)
Theorem two_phase_fifo n st0 ops st :
  - 2147483648 <= n < 2147483648 ->
  start n = Some st0 -> exec_all st0 ops = Some st ->
  exec_reads st0 ops = take (nreads ops) (written ops) /\
  (nreads ops <= published ops <= length (written ops))%nat.
Proof.
  intros Hint Hstart Hex.
  pose proof (trace_inv_start n st0 Hint Hstart) as Ht0.
  destruct (trace_inv_exec_all ops st0 [] 0 0 st Ht0 Hex) as [Ht Hreads].
  simpl in Ht, Hreads. rewrite drop_0 in Hreads.
  split; [exact Hreads|].
  destruct Ht as (_ & _ & _ & _ & Gd5 & Gd34 & _).
  fold (published ops) in Gd5, Gd34.
  pose proof (wrap32_range (write_priv (blq st) - write (blq st))).
  pose proof (wrap32_range (write_shadow (blq st) - read_priv (blq st))).
  pose proof (wrap32_range (write (blq st) - write_shadow (blq st))).
  lia.
Qed.

Lemma two_phase_fifo_witness :
  exec_reads (mkProto (snd (blq_init (blq_zeroed 16) 16)) 0 0)
    [Wspace 3; WriteLocal 5; WriteLocal 6; WritePublish; WriteLocal 7;
     Rspace 1; ReadLocal; ReadLocal; ReadPublish]
  = [5; 6].
Proof.
  refine (proj1 (two_phase_fifo 16
            (mkProto (snd (blq_init (blq_zeroed 16) 16)) 0 0)
            [Wspace 3; WriteLocal 5; WriteLocal 6; WritePublish; WriteLocal 7;
             Rspace 1; ReadLocal; ReadLocal; ReadPublish]
            (mkProto (mkBlq 3 0 2 2 2 2 16 15
                            [5; 6; 7; 0; 0; 0; 0; 0; 0; 0; 0; 0; 0; 0; 0; 0]) 5 0)
            _ _ _)).
  - lia.
  - reflexivity.
  - vm_compute. reflexivity.
Defined.

End TwoPhaseFifo.

(** ** The consumer's grant, and the diagnostic dump *)

Section TwoPhaseConsumer.
Import Lamport TwoPhase Sizes.

(** X5. In every state the two-phase protocol reaches, [blq_rspace] grants
    no more items than are published and not yet read by [blq_read_local],
    whatever is asked for, and these are never more than the batch
    capacity [n - 8]. *)
Theorem blq_rspace_bound n st needed :
  - 2147483648 <= n < 2147483648 -> reachable n st ->
  0 <= fst (blq_rspace (blq st) needed)
    <= wrap32 (write (blq st) - read_priv (blq st)) /\
  wrap32 (write (blq st) - read_priv (blq st)) <= blq_batch_capacity (blq st).
Proof.
  intros Hint Hreach.
  destruct (reachable_inv n st Hint Hreach) as [Hinv _].
  destruct st as [[wp rs w rp ws r ql qm sl] wc rc].
  unfold protocol_inv, blq_batch_capacity in Hinv; simpl in Hinv.
  destruct Hinv as (Hshape & Hrange & Hwc & Hrc & Hrcb & Hsum).
  pose proof (batch_capacity_bound _ Hshape) as Hcap.
  unfold blq_batch_capacity in *; simpl in *.
  unfold blq_rspace; simpl.
  destruct (_ <=? _); simpl; split; wrap_lia.
Qed.

Lemma blq_rspace_bound_witness :
  0 <= fst (blq_rspace (snd (blq_init (blq_zeroed 16) 16)) 1)
    <= wrap32 (write (snd (blq_init (blq_zeroed 16) 16))
               - read_priv (snd (blq_init (blq_zeroed 16) 16))).
Proof.
  refine (proj1 (blq_rspace_bound 16
            (mkProto (snd (blq_init (blq_zeroed 16) 16)) 0 0) 1 _ _)).
  - lia.
  - exists (mkProto (snd (blq_init (blq_zeroed 16) 16)) 0 0), [].
    split; reflexivity.
Defined.

(** X6. [blq_dump] is not read-only.  In every state the two-phase protocol
    reaches it overwrites [read_shadow] with [read] and [write_shadow] with
    [write]; it changes no cursor and no slot. *)
Theorem blq_dump_refreshes_shadows n st :
  - 2147483648 <= n < 2147483648 -> reachable n st ->
  blq_dump (blq st)
  = set_write_shadow (write (blq st)) (set_read_shadow (read (blq st)) (blq st)).
Proof.
  intros Hint Hreach.
  destruct (reachable_inv n st Hint Hreach) as [Hinv _].
  destruct st as [[wp rs w rp ws r ql qm sl] wc rc].
  unfold protocol_inv, blq_batch_capacity in Hinv; simpl in Hinv.
  destruct Hinv as (Hshape & Hrange & Hwc & Hrc & Hrcb & Hsum).
  pose proof (batch_capacity_bound _ Hshape) as Hcap.
  unfold blq_batch_capacity in *; simpl in *. change line_slots with 8 in *.
  destruct Hshape as (k & Hk & Hq & Hm). simpl in Hq, Hm.
  pose proof (pow2_pos k ltac:(lia)) as Hpos.
  pose proof (pow2_le k 30 ltac:(lia)) as Hle. change (2 ^ 30) with 1073741824 in Hle.
  unfold blq_dump, blq_wspace; simpl.
  assert (Hsp : wrap32 (Z.land (wrap64 (rs - line_slots - wp)) qm) < ql).
  { rewrite Hm, land_mask by lia.
    pose proof (Z.mod_pos_bound (wrap64 (rs - line_slots - wp)) (2 ^ k) ltac:(lia)).
    rewrite wrap32_small; lia. }
  destruct (Z.leb_spec ql (wrap32 (Z.land (wrap64 (rs - line_slots - wp)) qm)));
    [lia|]. simpl.
  unfold blq_rspace; simpl.
  destruct (Z.leb_spec ql (wrap32 (ws - rp))); [exfalso; wrap_lia|].
  reflexivity.
Qed.

Lemma blq_dump_refreshes_shadows_witness :
  read_shadow (blq_dump (mkBlq 15 8 15 15 15 15 16 15
                 [1; 2; 3; 4; 5; 6; 7; 8; 9; 10; 11; 12; 13; 14; 15; 0])) = 15.
Proof.
  refine (f_equal read_shadow (blq_dump_refreshes_shadows 16
    (mkProto (mkBlq 15 8 15 15 15 15 16 15
                 [1; 2; 3; 4; 5; 6; 7; 8; 9; 10; 11; 12; 13; 14; 15; 0]) 1 0) _ _)).
  - lia.
  - exists (mkProto (snd (blq_init (blq_zeroed 16) 16)) 0 0),
      ([Wspace 8] ++ (WriteLocal <$> seqZ 1 8) ++ [WritePublish; Rspace 8]
       ++ replicate 8 ReadLocal ++ [ReadPublish]
       ++ [Wspace 7] ++ (WriteLocal <$> seqZ 9 7) ++ [WritePublish; Rspace 7]
       ++ replicate 7 ReadLocal ++ [ReadPublish]).
    split; reflexivity.
Defined.

(** ** Allocation sizes *)

Lemma land_align_mask x :
  0 <= x < 18446744073709551616 ->
  Z.land x (wrap64 (Z.lnot (SPSCQ_ALIGN_SIZE - 1))) = x - x mod 128.
Proof.
  intros Hx. unfold SPSCQ_ALIGN_SIZE.
  change (128 - 1) with (Z.ones 7).
  unfold wrap64. change 18446744073709551616 with (2 ^ 64).
  rewrite <- Z.land_ones by lia.
  rewrite (Z.land_comm (Z.lnot _)), Z.land_assoc.
  rewrite (Z.land_ones x 64) by lia.
  rewrite (Z.mod_small x (2 ^ 64)) by (change (2 ^ 64) with 18446744073709551616; lia).
  rewrite <- Z.ldiff_land, Z.ldiff_ones_r by lia.
  rewrite Z.shiftr_div_pow2, Z.shiftl_mul_pow2 by lia.
  change (2 ^ 7) with 128.
  pose proof (Z.div_mod x 128 ltac:(lia)). lia.
Qed.

Lemma aligned_size_spec sz :
  0 <= sz <= 18446744073709551616 - 128 ->
  SPSCQ_ALIGNED_SIZE sz mod 128 = 0 /\
  sz <= SPSCQ_ALIGNED_SIZE sz < sz + 128.
Proof.
  intros Hsz. unfold SPSCQ_ALIGNED_SIZE.
  rewrite (wrap64_small (sz + SPSCQ_ALIGN_SIZE - 1)) by (unfold SPSCQ_ALIGN_SIZE; lia).
  rewrite land_align_mask by (unfold SPSCQ_ALIGN_SIZE; lia).
  unfold SPSCQ_ALIGN_SIZE. Z.div_mod_to_equations. lia.
Qed.

(** X7. The sizes [blq_size] and [iffq_size] report are multiples of the
    128-byte alignment, hold the header and all slots, and waste less than
    128 bytes, for every [int] capacity from 0 (resp. every [unsigned int]
    number of entries) and every header size the compiler can give the
    struct. *)
Theorem queue_size_spec hdr n :
  0 <= hdr < 4294967296 ->
  (0 <= n < 2147483648 ->
   blq_size hdr n mod 128 = 0 /\
   hdr + n * sizeof_uintptr_t <= blq_size hdr n < hdr + n * sizeof_uintptr_t + 128) /\
  (0 <= n < 4294967296 ->
   iffq_size hdr n mod 128 = 0 /\
   hdr + n * sizeof_uintptr_t <= iffq_size hdr n < hdr + n * sizeof_uintptr_t + 128).
Proof.
  intros Hh. unfold blq_size, iffq_size, sizeof_uintptr_t.
  split; intros Hn.
  - rewrite (wrap64_small n), (wrap64_small (n * 8)), (wrap64_small (hdr + n * 8)) by lia.
    apply aligned_size_spec. lia.
  - rewrite (wrap64_small (n * 8)), (wrap64_small (hdr + n * 8)) by lia.
    apply aligned_size_spec. lia.
Qed.

Lemma queue_size_spec_witness :
  blq_size 640 1024 mod 128 = 0 /\
  640 + 1024 * sizeof_uintptr_t <= blq_size 640 1024
    < 640 + 1024 * sizeof_uintptr_t + 128.
Proof.
  refine (proj1 (queue_size_spec 640 1024 _) _).
  - lia.
  - lia.
Defined.

End TwoPhaseConsumer.

(** ** The producer's grant in the improved FastForward queue *)

Section ImprovedGrant.
Import FastForward RingFill.

(** [iffq_wspace] changes nothing but [prod_check], and returns the distance
    from [prod_write] to the checkpoint it leaves. *)
Lemma iffq_wspace_spec f needed :
  0 <= prod_check f < 4294967296 ->
  let f' := snd (iffq_wspace f needed) in
  set_prod_check (prod_check f) f' = f /\
  fst (iffq_wspace f needed) = wrap32 (prod_check f' - prod_write f') /\
  0 <= prod_check f' < 4294967296.
Proof.
  intros Hpc. unfold iffq_wspace.
  destruct (_ <=? _); simpl; [|destruct (negb _); simpl].
  - split; [destruct f; reflexivity|]. split; [reflexivity|assumption].
  - split; [destruct f; reflexivity|]. split; [reflexivity|assumption].
  - split; [destruct f; reflexivity|]. split; [reflexivity|apply wrap32_range].
Qed.

(** Within a grant [iffq_insert] never looks at the ring: it stores and
    advances. *)
Lemma iffq_insert_all_granted vs : forall f,
  0 <= prod_write f < 4294967296 -> 0 <= prod_check f < 4294967296 ->
  Z.of_nat (length vs) <= wrap32 (prod_check f - prod_write f) ->
  fst (iffq_insert_all f vs) = replicate (length vs) 0 /\
  set_prod_write (prod_write f) (set_q (q f) (snd (iffq_insert_all f vs))) = f /\
  q (snd (iffq_insert_all f vs))
  = ring_fill (q f) (entry_mask f) (prod_write f) vs /\
  prod_write (snd (iffq_insert_all f vs))
  = wrap32 (prod_write f + Z.of_nat (length vs)).
Proof.
  induction vs as [|v vs IH]; intros f Hpw Hpc Hlen.
  - simpl. rewrite Z.add_0_r, wrap32_small by assumption.
    repeat split. destruct f; reflexivity.
  - change (length (v :: vs)) with (S (length vs)) in *.
    simpl iffq_insert_all. unfold iffq_insert.
    destruct (Z.eqb_spec (prod_write f) (prod_check f)) as [E|E].
    { exfalso. rewrite E, Z.sub_diag in Hlen. change (wrap32 0) with 0 in Hlen. lia. }
    simpl.
    set (f1 := set_prod_write _ _).
    destruct (IH f1) as (I1 & I2 & I3 & I4).
    { unfold f1; simpl. apply wrap32_range. }
    { exact Hpc. }
    { unfold f1; simpl. wrap_lia. }
    destruct (iffq_insert_all f1 vs) as [rs f2]. simpl in *.
    split; [rewrite I1; reflexivity|]. split; [|split].
    + clear - I2. unfold f1 in I2. destruct f, f2; simpl in *.
      unfold set_prod_write, set_q in *; simpl in *.
      injection I2 as -> -> -> -> -> -> -> ->. reflexivity.
    + exact I3.
    + rewrite I4. wrap_lia.
Qed.

(** The loop of [iffq_insert_publish] fills the ring with the staged
    values it walks over. *)
Lemma iffq_insert_publish_loop_fill fuel : forall i f,
  0 <= i -> i + Z.of_nat fuel <= prod_cache_write f ->
  prod_cache_write f < 4294967296 -> 0 <= prod_write f < 4294967296 ->
  q (iffq_insert_publish_loop fuel i f)
  = ring_fill (q f) (entry_mask f) (prod_write f)
              (load (prod_cache f) <$> seqZ i (Z.of_nat fuel)) /\
  prod_write (iffq_insert_publish_loop fuel i f)
  = wrap32 (prod_write f + Z.of_nat fuel).
Proof.
  induction fuel as [|fuel IH]; intros i f Hi Hend Hpcw Hpw.
  - simpl. rewrite Z.add_0_r, wrap32_small by assumption. split; reflexivity.
  - rewrite Nat2Z.inj_succ in *. rewrite seqZ_cons by lia. simpl.
    destruct (Z.ltb_spec i (prod_cache_write f)); [|lia].
    replace (Z.pred (Z.succ (Z.of_nat fuel))) with (Z.of_nat fuel) by lia.
    rewrite (wrap32_small (i + 1)) by lia.
    destruct (IH (i + 1)
                (set_prod_write (wrap32 (prod_write f + 1))
                   (set_q (store (q f) (Z.land (prod_write f) (entry_mask f))
                                 (load (prod_cache f) i)) f)))
      as [I1 I2]; simpl; try lia; [apply wrap32_range|].
    simpl in I1, I2. rewrite I1, I2.
    replace (Z.succ i) with (i + 1) by lia.
    split; [reflexivity|wrap_lia].
Qed.

Lemma fmap_load_seqZ (vs : list Z) :
  (fun i => load vs i) <$> seqZ 0 (Z.of_nat (length vs)) = vs.
Proof.
  induction vs as [|v vs IH]; [reflexivity|].
  change (length (v :: vs)) with (S (length vs)).
  rewrite Nat2Z.inj_succ, seqZ_cons by lia. simpl.
  replace (Z.pred (Z.succ (Z.of_nat (length vs)))) with (Z.of_nat (length vs)) by lia.
  f_equal. rewrite <- IH at 2.
  replace (Z.succ 0) with (1 + 0) by lia.
  rewrite <- (fmap_add_seqZ 1 0), <- list_fmap_compose.
  apply Forall_fmap_ext, Forall_seqZ. intros i Hi. simpl.
  unfold load. replace (Z.to_nat (1 + i)) with (S (Z.to_nat i)) by lia. reflexivity.
Qed.

(** X8. [iffq_wspace] asked for one slot returns 0 exactly when
    [iffq_insert] would return [-ENOBUFS]: the two look at the same slot of
    the ring and only at a checkpoint. *)
Theorem iffq_wspace_agrees_with_insert f m :
  0 <= prod_write f < 4294967296 -> 0 <= prod_check f < 4294967296 ->
  0 < line_entries f < 4294967296 ->
  fst (iffq_wspace f 1) = 0 <-> fst (iffq_insert f m) = - ENOBUFS.
Proof.
  intros Hpw Hpc HL. unfold iffq_wspace, iffq_insert.
  destruct (Z.eqb_spec (prod_write f) (prod_check f)) as [E|E]; simpl.
  - rewrite E, Z.sub_diag. change (wrap32 0) with 0. simpl.
    destruct (negb _); simpl; [split; reflexivity|].
    split; [|discriminate]. intros H. exfalso. revert H. wrap_lia.
  - destruct (Z.leb_spec 1 (wrap32 (prod_check f - prod_write f))) as [H1|H1];
      simpl; [|exfalso; wrap_lia].
    split; [|discriminate]. intros H. exfalso. lia.
Qed.

Lemma iffq_wspace_agrees_with_insert_witness :
  fst (iffq_wspace (snd (iffq_init (iffq_zeroed 32) 32 64 1)) 1) = 0 <->
  fst (iffq_insert (snd (iffq_init (iffq_zeroed 32) 32 64 1)) 9) = - ENOBUFS.
Proof.
  refine (iffq_wspace_agrees_with_insert
            (snd (iffq_init (iffq_zeroed 32) 32 64 1)) 9 _ _ _).
  - vm_compute. split; [discriminate|reflexivity].
  - vm_compute. split; [discriminate|reflexivity].
  - vm_compute. split; reflexivity.
Defined.

(** X9. A grant of [iffq_wspace] is honoured.  For as many values as
    [iffq_wspace] returned, every [iffq_insert] succeeds and leaves
    [prod_check] alone; and staging the same values with
    [iffq_insert_local] (from an empty buffer, at most 256 of them) and
    flushing them with [iffq_insert_publish] leaves the same slot array and
    the same [prod_write] as those inserts. *)
Theorem iffq_grant_honoured f needed vs :
  let granted := fst (iffq_wspace f needed) in
  let f' := snd (iffq_wspace f needed) in
  let plain := snd (iffq_insert_all f' vs) in
  let batch := iffq_insert_publish (iffq_insert_local_all f' vs) in
  0 <= prod_write f < 4294967296 -> 0 <= prod_check f < 4294967296 ->
  Z.of_nat (length vs) <= granted ->
  prod_cache_write f = 0 ->
  Z.of_nat (length (prod_cache f)) = IFFQ_PROD_CACHE_ENTRIES ->
  Z.of_nat (length vs) <= IFFQ_PROD_CACHE_ENTRIES ->
  fst (iffq_insert_all f' vs) = replicate (length vs) 0 /\
  prod_check plain = prod_check f' /\
  q batch = q plain /\ prod_write batch = prod_write plain /\
  prod_check batch = prod_check plain.
Proof.
  intros granted f' plain batch Hpw Hpc Hgrant Hempty Hcache Hk.
  unfold IFFQ_PROD_CACHE_ENTRIES in *.
  destruct (iffq_wspace_spec f needed Hpc) as (W1 & W2 & W3).
  fold f' in W1, W2, W3. fold granted in W2.
  assert (Hsame : prod_write f' = prod_write f /\ prod_cache f' = prod_cache f
                  /\ prod_cache_write f' = prod_cache_write f).
  { clear - W1. destruct f, f'; simpl in *. unfold set_prod_check in W1; simpl in W1.
    inversion W1. repeat split. }
  destruct Hsame as (Hpw' & Hc' & Hcw').
  destruct (iffq_insert_all_granted vs f') as (P1 & P2 & P3 & P4);
    [rewrite Hpw'; exact Hpw|exact W3|rewrite <- W2; exact Hgrant|].
  fold plain in P2, P3, P4.
  destruct (iffq_insert_local_all_spec vs f') as (S1 & S2 & S3 & _ & S5);
    [rewrite Hcw'; lia|rewrite Hcw', Hc'; lia|rewrite Hc'; lia|].
  set (staged := iffq_insert_local_all f' vs) in *.
  rewrite Hcw', Hempty in S1, S3. simpl in S1.
  assert (Hst : q staged = q f' /\ prod_write staged = prod_write f'
                /\ entry_mask staged = entry_mask f'
                /\ prod_check staged = prod_check f').
  { clear - S5. destruct f', staged; simpl in *.
    unfold set_prod_cache, set_prod_cache_write in S5; simpl in S5.
    inversion S5. repeat split. }
  destruct Hst as (Hq & Hpws & Hms & Hpcs).
  destruct (iffq_insert_publish_loop_fill (length vs) 0 staged)
    as (L1 & L2); [lia|lia|lia|rewrite Hpws, Hpw'; exact Hpw|].
  assert (Hvals : load (prod_cache staged) <$> seqZ 0 (Z.of_nat (length vs)) = vs).
  { rewrite <- (fmap_load_seqZ vs) at 2.
    apply Forall_fmap_ext, Forall_seqZ. intros i Hi. apply S3. lia. }
  rewrite Hvals, Hq, Hms, Hpws in L1. rewrite Hpws in L2.
  assert (Hpcp : prod_check plain = prod_check f').
  { clear - P2. destruct f', plain; simpl in *.
    unfold set_prod_write, set_q in P2; simpl in P2. inversion P2. reflexivity. }
  split; [exact P1|]. split; [exact Hpcp|].
  unfold batch, iffq_insert_publish. fold staged.
  rewrite S1, Z.add_0_l, Nat2Z.id.
  cbn [q prod_write prod_check set_prod_cache_write].
  split; [rewrite L1, P3; reflexivity|].
  split; [rewrite L2, P4; reflexivity|].
  rewrite Hpcp, <- Hpcs.
  clear. generalize (length vs) 0 staged.
  intros fuel. induction fuel as [|fuel IH]; intros i g; simpl; [reflexivity|].
  destruct (_ <? _); [|reflexivity]. rewrite IH. reflexivity.
Qed.

Lemma iffq_grant_honoured_witness :
  fst (iffq_insert_all (snd (iffq_wspace (snd (iffq_init (iffq_zeroed 32) 32 64 1)) 3))
                       [5; 6; 7])
  = [0; 0; 0].
Proof.
  refine (proj1 (iffq_grant_honoured (snd (iffq_init (iffq_zeroed 32) 32 64 1)) 3
                                     [5; 6; 7] _ _ _ _ _ _)).
  - vm_compute. split; [discriminate|reflexivity].
  - vm_compute. split; [discriminate|reflexivity].
  - vm_compute. discriminate.
  - reflexivity.
  - reflexivity.
  - vm_compute. discriminate.
Defined.

End ImprovedGrant.

(** ** The improved FastForward queue as a first-in first-out queue *)

Lemma wrap32_add_l a b : wrap32 (wrap32 a + b) = wrap32 (a + b).
Proof. wrap_lia. Qed.

Lemma wrap32_sub_wrap a b : wrap32 (wrap32 a - wrap32 b) = wrap32 (a - b).
Proof. wrap_lia. Qed.

Lemma slot_of_cursor k x :
  0 <= k <= 31 -> Z.land (wrap32 x) (2 ^ k - 1) = x mod 2 ^ k.
Proof. intros Hk. rewrite land_mask by lia. apply mod_pow2_wrap32. lia. Qed.

Lemma load_app_l (A B : list Z) i :
  0 <= i < Z.of_nat (length A) -> load (A ++ B) i = load A i.
Proof.
  intros Hi. unfold load. rewrite lookup_app_l by lia. reflexivity.
Qed.

Lemma load_app_last (A : list Z) m : load (A ++ [m]) (Z.of_nat (length A)) = m.
Proof.
  unfold load. rewrite Nat2Z.id, lookup_app_r by lia.
  rewrite Nat.sub_diag. reflexivity.
Qed.

Section ImprovedFifo.
Import FastForward Fifo ImprovedRun ImprovedBatch.

Variables k j : Z.
Hypothesis Hk : 0 <= k <= 31.
Hypothesis Hj : 0 <= j.
Hypothesis HLE : 2 * 2 ^ j < 2 ^ k.

Local Abbreviation E := (2 ^ k).
Local Abbreviation L := (2 ^ j).

Lemma ring_geometry :
  0 < L /\ E <= 2147483648 /\ exists e, E = e * L.
Proof.
  pose proof (pow2_pos j Hj) as HL.
  pose proof (pow2_le k 31 ltac:(lia)) as HE. change (2 ^ 31) with 2147483648 in HE.
  split; [exact HL|]. split; [exact HE|].
  assert (j < k) by (apply pow2_lt_inv; lia).
  destruct (pow2_divide j k ltac:(lia)) as [e He]. exists e. exact He.
Qed.

(** Storing a value below the checkpoint. *)
Lemma iffq_store_inv cc pc f A X m :
  m <> 0 -> iffq_inv_at E L cc pc f A X ->
  L + Z.of_nat (length A) < pc * L ->
  iffq_inv_at E L cc pc
    (set_prod_write (wrap32 (prod_write f + 1))
       (set_q (store (q f) (Z.land (prod_write f) (entry_mask f)) m) f))
    (A ++ [m]) X.
Proof.
  intros Hm0 ((Hm & HLe & Hlm & Hlen) & (Hpw & Hcr & Hcc & Hpc)
              & (Hcc0 & Hccr & Hcrpw & Hpwpc & Hpccc) & (HX & HA)
              & Hnz & Hval & Hz) Hlt.
  destruct ring_geometry as (HL & HE & _).
  assert (Hslot : Z.land (prod_write f) (entry_mask f)
                  = (L + Z.of_nat (length A)) mod E).
  { rewrite Hpw, Hm. apply slot_of_cursor, Hk. }
  pose proof (Z.mod_pos_bound (L + Z.of_nat (length A)) E ltac:(lia)) as Hsr.
  assert (Hother : forall i, i <> L + Z.of_nat (length A) ->
            cc * L <= i < cc * L + E ->
            load (store (q f) ((L + Z.of_nat (length A)) mod E) m) (i mod E)
            = load (q f) (i mod E)).
  { intros i Hne Hi. apply load_store_other; [lia| |].
    - pose proof (Z.mod_pos_bound i E ltac:(lia)). lia.
    - intros Heq. apply Hne. symmetry. apply (mod_window_inj E); [lia|lia|exact Heq]. }
  unfold iffq_inv_at. simpl. rewrite Hslot, length_store, length_app. simpl.
  rewrite Nat2Z.inj_add. change (Z.of_nat 1) with 1.
  split; [repeat split; assumption|].
  split; [repeat split; try assumption; rewrite Hpw, wrap32_add_l; f_equal; lia|].
  split; [lia|].
  split.
  { split; [|apply Forall_app; split; [exact HA|constructor; [exact Hm0|constructor]]].
    rewrite take_app_le by lia. exact HX. }
  split; [|split].
  - intros i Hi. rewrite Hother by lia. apply Hnz. lia.
  - intros i Hi. destruct (Z.eq_dec i (L + Z.of_nat (length A))) as [->|Hne].
    + rewrite load_store_same by lia.
      replace (L + Z.of_nat (length A) - L) with (Z.of_nat (length A)) by lia.
      symmetry. apply load_app_last.
    + rewrite Hother by lia. rewrite load_app_l by lia. apply Hval. lia.
  - intros i Hi. rewrite Hother by lia. apply Hz. lia.
Qed.

(** Moving the checkpoint one line on, when the line after it is free. *)
Lemma iffq_advance_inv cc pc f A X :
  iffq_inv_at E L cc pc f A X -> pc * L + L < cc * L + E ->
  iffq_inv_at E L cc (pc + 1)
    (set_prod_check (wrap32 (prod_check f + line_entries f)) f) A X.
Proof.
  intros ((Hm & HLe & Hlm & Hlen) & (Hpw & Hcr & Hcc & Hpc)
          & (Hcc0 & Hccr & Hcrpw & Hpwpc & Hpccc) & (HX & HA)
          & Hnz & Hval & Hz) Hlt.
  destruct ring_geometry as (HL & HE & e & He).
  unfold iffq_inv_at. simpl.
  split; [repeat split; assumption|].
  split; [repeat split; try assumption;
          rewrite Hpc, HLe, wrap32_add_l; f_equal; lia|].
  split; [|repeat split; assumption].
  repeat split; try lia.
  assert (H1 : pc + 1 < cc + e).
  { apply (Z.mul_lt_mono_pos_r L); [exact HL|]. lia. }
  assert (H2 : (pc + 1) * L <= (cc + e - 1) * L).
  { apply Z.mul_le_mono_nonneg_r; lia. }
  lia.
Qed.

(** [iffq_insert] fails exactly at a checkpoint whose next line has not
    been cleared; otherwise it appends the value to the history. *)
Lemma iffq_insert_inv cc pc f A X m :
  m <> 0 -> iffq_inv_at E L cc pc f A X ->
  (L + Z.of_nat (length A) = pc * L /\ pc * L + L = cc * L + E /\
   iffq_insert f m = (- ENOBUFS, f)) \/
  (exists f' pc', iffq_insert f m = (0, f') /\
                  iffq_inv_at E L cc pc' f' (A ++ [m]) X).
Proof.
  intros Hm0 Hinv.
  pose proof Hinv as ((Hm & HLe & Hlm & Hlen) & (Hpw & Hcr & Hcc & Hpc)
                      & (Hcc0 & Hccr & Hcrpw & Hpwpc & Hpccc) & (HX & HA)
                      & Hnz & Hval & Hz).
  destruct ring_geometry as (HL & HE & e & He).
  unfold iffq_insert.
  destruct (Z.eqb_spec (prod_write f) (prod_check f)) as [Heq|Hne]; simpl.
  - assert (Hat : L + Z.of_nat (length A) = pc * L).
    { rewrite Hpw, Hpc in Heq. unfold wrap32 in Heq.
      apply (mod_window_inj 4294967296); [lia|lia|exact Heq]. }
    assert (Hslot : Z.land (wrap32 (prod_check f + line_entries f)) (entry_mask f)
                    = (pc * L + L) mod E).
    { rewrite Hpc, HLe, Hm, wrap32_add_l. apply slot_of_cursor, Hk. }
    rewrite Hslot.
    destruct (Z.eq_dec (pc * L + L) (cc * L + E)) as [Hfull|Hroom].
    + left. split; [exact Hat|]. split; [exact Hfull|].
      assert (Hsame : (pc * L + L) mod E = (cc * L) mod E).
      { rewrite Hfull. rewrite <- Z.add_mod_idemp_r, Z.mod_same, Z.add_0_r by lia.
        reflexivity. }
      rewrite Hsame.
      destruct (Z.eqb_spec (load (q f) ((cc * L) mod E)) 0) as [H0|_];
        [|reflexivity].
      exfalso. apply (Hnz (cc * L)); [lia|exact H0].
    + right. rewrite Hz by lia. simpl.
      pose proof (iffq_advance_inv cc pc f A X Hinv ltac:(lia)) as Hadv.
      eexists _, (pc + 1). split; [reflexivity|].
      apply (iffq_store_inv cc (pc + 1) _ A X m Hm0 Hadv). lia.
  - right. assert (Hlt : L + Z.of_nat (length A) < pc * L).
    { destruct (Z.eq_dec (L + Z.of_nat (length A)) (pc * L)) as [Heq|]; [|lia].
      exfalso. apply Hne. rewrite Hpw, Hpc, Heq. reflexivity. }
    eexists _, pc. split; [reflexivity|].
    apply (iffq_store_inv cc pc f A X m Hm0 Hinv Hlt).
Qed.

(** [iffq_extract] returns the oldest accepted value not yet extracted, or
    0 and changes nothing when there is none. *)
Lemma iffq_extract_inv cc pc f A X :
  iffq_inv_at E L cc pc f A X ->
  fst (iffq_extract f) = default 0 (A !! length X) /\
  ((length X = length A /\ iffq_extract f = (0, f)) \/
   (exists m, m <> 0 /\
      iffq_extract f = (m, set_cons_read (wrap32 (cons_read f + 1)) f) /\
      iffq_inv_at E L cc pc (set_cons_read (wrap32 (cons_read f + 1)) f)
                  A (X ++ [m]))).
Proof.
  intros ((Hm & HLe & Hlm & Hlen) & (Hpw & Hcr & Hcc & Hpc)
          & (Hcc0 & Hccr & Hcrpw & Hpwpc & Hpccc) & (HX & HA)
          & Hnz & Hval & Hz).
  destruct ring_geometry as (HL & HE & _).
  assert (Hslot : Z.land (cons_read f) (entry_mask f)
                  = (L + Z.of_nat (length X)) mod E).
  { rewrite Hcr, Hm. apply slot_of_cursor, Hk. }
  unfold iffq_extract. rewrite Hslot.
  destruct (Z.eq_dec (Z.of_nat (length X)) (Z.of_nat (length A))) as [Hemp|Hpend].
  - assert (Hnone : A !! length X = None) by (apply lookup_ge_None; lia).
    rewrite Hz by lia. rewrite Hnone. simpl.
    split; [reflexivity|]. left. split; [lia|reflexivity].
  - rewrite Hval by lia.
    replace (L + Z.of_nat (length X) - L) with (Z.of_nat (length X)) by lia.
    unfold load. rewrite Nat2Z.id.
    destruct (A !! length X) as [m|] eqn:Hlk;
      [|apply lookup_ge_None in Hlk; lia].
    simpl.
    assert (Hm0 : m <> 0).
    { apply (proj1 (Forall_lookup _ A) HA _ _ Hlk). }
    destruct (Z.eqb_spec m 0) as [|_]; [contradiction|]. simpl.
    split; [reflexivity|]. right. exists m. split; [exact Hm0|].
    split; [reflexivity|].
    unfold iffq_inv_at. simpl. rewrite length_app. simpl.
    rewrite Nat2Z.inj_add. change (Z.of_nat 1) with 1.
    split; [repeat split; assumption|].
    split; [repeat split; try assumption; rewrite Hcr, wrap32_add_l; f_equal; lia|].
    split; [lia|].
    split.
    { split; [|exact HA].
      replace (length X + 1)%nat with (S (length X)) by lia.
      rewrite (take_S_r A (length X) m Hlk), <- HX. reflexivity. }
    split; [|split].
    + intros i Hi. destruct (Z.eq_dec i (L + Z.of_nat (length X))) as [->|Hne].
      * rewrite Hval by lia.
        replace (L + Z.of_nat (length X) - L) with (Z.of_nat (length X)) by lia.
        unfold load. rewrite Nat2Z.id, Hlk. exact Hm0.
      * apply Hnz. lia.
    + intros i Hi. apply Hval. lia.
    + exact Hz.
Qed.

Lemma iffq_clear_frame f f' c l :
  set_cons_clear c (set_q l f') = f ->
  entry_mask f' = entry_mask f /\ line_entries f' = line_entries f /\
  line_mask f' = line_mask f /\ prod_write f' = prod_write f /\
  prod_check f' = prod_check f /\ cons_read f' = cons_read f.
Proof. intros <-. destruct f'; simpl. repeat split. Qed.

Lemma iffq_clear_loop_length fuel s : forall f,
  length (q (iffq_clear_loop fuel s f)) = length (q f).
Proof.
  induction fuel as [|fuel IH]; intros f; simpl; [reflexivity|].
  destruct (_ =? _); [reflexivity|]. rewrite IH. simpl. apply length_store.
Qed.

Lemma wrap32_add_sub a b : wrap32 (wrap32 (a + b) - a) = wrap32 b.
Proof. wrap_lia. Qed.

(** [iffq_clear] moves [cons_clear] to the last line boundary that leaves a
    whole line before [cons_read], and keeps the history. *)
Lemma iffq_clear_inv cc pc f A X :
  iffq_inv_at E L cc pc f A X ->
  iffq_inv_at E L (Z.of_nat (length X) / L) pc (iffq_clear f) A X.
Proof.
  intros ((Hm & HLe & Hlm & Hlen) & (Hpw & Hcr & Hcc & Hpc)
          & (Hcc0 & Hccr & Hcrpw & Hpwpc & Hpccc) & (HX & HA)
          & Hnz & Hval & Hz).
  destruct ring_geometry as (HL & HE & _).
  assert (Hjk : j < k) by (apply pow2_lt_inv; lia).
  remember (Z.of_nat (length X)) as n eqn:En.
  assert (Hn : 0 <= n) by lia.
  remember (n / L) as cc' eqn:Ecc'.
  pose proof (Z.mod_pos_bound n L HL) as Hr.
  assert (Hcc'L : cc' * L = n - n mod L).
  { rewrite Ecc', (Z.mod_eq n L) by lia. lia. }
  assert (Hcc'0 : 0 <= cc') by (rewrite Ecc'; apply Z.div_pos; lia).
  assert (Hccle : cc * L <= cc' * L).
  { assert (cc < cc' + 1) by (apply (Z.mul_lt_mono_pos_r L); lia).
    apply Z.mul_le_mono_nonneg_r; lia. }
  assert (Hs : iffq_clear_bound f = wrap32 (cc' * L)).
  { unfold iffq_clear_bound. rewrite Hcr, HLe, Hlm, wrap32_add_sub.
    rewrite land_line_mask by (try apply wrap32_range; lia).
    rewrite mod_pow2_wrap32 by lia.
    pose proof (wrap32_range n) as Hwr.
    pose proof (Z.mod_le (wrap32 n) L ltac:(lia) HL) as Hml.
    rewrite mod_pow2_wrap32 in Hml by lia.
    symmetry. unfold wrap32 in *.
    apply (mod_intro _ _ _ (n / 4294967296)); [lia|].
    pose proof (Z.div_mod n 4294967296 ltac:(lia)). lia. }
  assert (Hdist : wrap32 (wrap32 (cc' * L) - cons_clear f) = cc' * L - cc * L).
  { rewrite Hcc, wrap32_sub_wrap. apply wrap32_small. lia. }
  unfold iffq_clear. rewrite Hs, Hdist.
  destruct (iffq_clear_loop_spec (Z.to_nat (cc' * L - cc * L)) (wrap32 (cc' * L)) f)
    as (C1 & C2 & C3 & C4 & C5).
  { rewrite Hcc. apply wrap32_range. }
  { apply wrap32_range. }
  { rewrite Hdist, Z2Nat.id; lia. }
  rewrite Z2Nat.id in C3, C5 by lia.
  pose proof (iffq_clear_loop_length (Z.to_nat (cc' * L - cc * L))
                                     (wrap32 (cc' * L)) f) as Clen.
  remember (iffq_clear_loop (Z.to_nat (cc' * L - cc * L)) (wrap32 (cc' * L)) f)
    as f' eqn:Ef'.
  destruct (iffq_clear_frame _ _ _ _ C2) as (F1 & F2 & F3 & F4 & F5 & F6).
  assert (Hri : forall i, ring_index f (cons_clear f) i = (cc * L + i) mod E).
  { intros i. unfold ring_index. rewrite Hcc, Hm, wrap32_add_l.
    apply slot_of_cursor, Hk. }
  assert (Hkept : forall i, cc' * L <= i < cc * L + E ->
            load (q f') (i mod E) = load (q f) (i mod E)).
  { intros i Hi. apply C5.
    - pose proof (Z.mod_pos_bound i E ltac:(lia)). lia.
    - intros i' Hi' Heq. rewrite Hri in Heq.
      apply (mod_window_inj E) in Heq; lia. }
  subst n.
  unfold iffq_inv_at. rewrite F1, F2, F3, F4, F5, F6, C1, Clen.
  split; [repeat split; assumption|].
  split; [repeat split; try assumption; reflexivity|].
  split; [lia|].
  split; [split; assumption|].
  split; [|split].
  - intros i Hi. rewrite Hkept by lia. apply Hnz. lia.
  - intros i Hi. rewrite Hkept by lia. apply Hval. lia.
  - intros i Hi. destruct (Z.lt_ge_cases i (cc * L + E)) as [Hlo|Hhi].
    + apply C4; [|apply Hz; lia].
      pose proof (Z.mod_pos_bound i E ltac:(lia)). lia.
    + replace (i mod E) with ((cc * L + (i - E - cc * L)) mod E).
      * rewrite <- Hri. apply C3. lia.
      * replace (cc * L + (i - E - cc * L)) with (i + (- 1) * E) by lia.
        apply Z.mod_add. lia.
Qed.

(** One call keeps the invariant and extends the history as [iffq_run]
    records it. *)
Lemma iffq_run_inv ops : forall cc pc f A X f' A' X',
  iffq_inv_at E L cc pc f A X -> Forall nonzero_insert ops ->
  iffq_run f A X ops = (f', A', X') ->
  exists cc' pc', iffq_inv_at E L cc' pc' f' A' X'.
Proof.
  induction ops as [|o ops IH]; intros cc pc f A X f' A' X' Hinv Hall Hrun.
  - simpl in Hrun. injection Hrun as <- <- <-. exists cc, pc. exact Hinv.
  - apply Forall_cons in Hall. destruct Hall as [Ho Hall].
    destruct o as [m| |]; simpl in Hrun.
    + destruct (iffq_insert_inv cc pc f A X m Ho Hinv)
        as [(_ & _ & Hfail)|(f1 & pc1 & Hok & Hinv1)].
      * rewrite Hfail in Hrun. simpl in Hrun.
        exact (IH _ _ _ _ _ _ _ _ Hinv Hall Hrun).
      * rewrite Hok in Hrun. simpl in Hrun.
        exact (IH _ _ _ _ _ _ _ _ Hinv1 Hall Hrun).
    + destruct (iffq_extract_inv cc pc f A X Hinv)
        as (_ & [(_ & Hnone)|(m & Hm0 & Hsome & Hinv1)]).
      * rewrite Hnone in Hrun. simpl in Hrun.
        exact (IH _ _ _ _ _ _ _ _ Hinv Hall Hrun).
      * rewrite Hsome in Hrun.
        destruct (Z.eqb_spec m 0) as [|_]; [contradiction|].
        exact (IH _ _ _ _ _ _ _ _ Hinv1 Hall Hrun).
    + exact (IH _ _ _ _ _ _ _ _ (iffq_clear_inv cc pc f A X Hinv) Hall Hrun).
Qed.

(** The unread part of the ring is the part of the history not yet
    extracted, and it leaves two lines of the ring unused. *)
Lemma iffq_inv_contents cc pc f A X :
  iffq_inv_at E L cc pc f A X ->
  ffq_contents f = drop (length X) A /\
  Z.of_nat (length A) - Z.of_nat (length X) <= E - 2 * L.
Proof.
  intros ((Hm & HLe & Hlm & Hlen) & (Hpw & Hcr & Hcc & Hpc)
          & (Hcc0 & Hccr & Hcrpw & Hpwpc & Hpccc) & (HX & HA)
          & Hnz & Hval & Hz).
  destruct ring_geometry as (HL & HE & _).
  split; [|lia].
  assert (Hcnt : ffq_count f = Z.of_nat (length A) - Z.of_nat (length X)).
  { unfold ffq_count. rewrite Hpw, Hcr, wrap32_sub_wrap.
    replace (L + Z.of_nat (length A) - (L + Z.of_nat (length X)))
      with (Z.of_nat (length A) - Z.of_nat (length X)) by lia.
    apply wrap32_small. lia. }
  unfold ffq_contents. rewrite Hcnt.
  etransitivity; [|apply (fmap_load_seqZ (drop (length X) A))].
  rewrite length_drop, Nat2Z.inj_sub by lia.
  apply Forall_fmap_ext, Forall_seqZ. intros i Hi. simpl.
  unfold ring_index. rewrite Hcr, Hm, wrap32_add_l, slot_of_cursor by exact Hk.
  rewrite Hval by lia. unfold load. rewrite lookup_drop.
  do 2 f_equal. lia.
Qed.

(** *** Staged inserts *)

(** The invariant looks at the ring and at the four cursors only. *)
Lemma iffq_inv_at_ext cc pc f f' A X :
  entry_mask f' = entry_mask f -> line_entries f' = line_entries f ->
  line_mask f' = line_mask f -> q f' = q f ->
  prod_write f' = prod_write f -> cons_read f' = cons_read f ->
  cons_clear f' = cons_clear f -> prod_check f' = prod_check f ->
  iffq_inv_at E L cc pc f A X -> iffq_inv_at E L cc pc f' A X.
Proof.
  unfold iffq_inv_at. intros -> -> -> -> -> -> -> ->. exact id.
Qed.

Lemma staging_inv_ext pc pc' a a' f f' :
  prod_cache f' = prod_cache f -> prod_cache_write f' = prod_cache_write f ->
  a' - pc' * L <= a - pc * L ->
  staging_inv L pc a f -> staging_inv L pc' a' f'.
Proof.
  unfold staging_inv, staged. intros -> -> Hle (H1 & H2 & H3 & H4).
  repeat split; try assumption; lia.
Qed.

Lemma staging_inv_empty pc cc f A X :
  iffq_inv_at E L cc pc f A X -> prod_cache_write f = 0 ->
  Z.of_nat (length (prod_cache f)) = IFFQ_PROD_CACHE_ENTRIES ->
  staging_inv L pc (Z.of_nat (length A)) f.
Proof.
  intros (_ & _ & (_ & _ & _ & Hpwpc & _) & _) H0 Hlen.
  unfold staging_inv, staged, IFFQ_PROD_CACHE_ENTRIES in *. rewrite H0.
  repeat split; try lia. constructor.
Qed.

(** [iffq_wspace] moves the checkpoint on by one line or leaves it. *)
Lemma iffq_wspace_inv cc pc f A X needed :
  iffq_inv_at E L cc pc f A X ->
  exists pc', pc <= pc' /\
    iffq_inv_at E L cc pc' (snd (iffq_wspace f needed)) A X /\
    prod_cache (snd (iffq_wspace f needed)) = prod_cache f /\
    prod_cache_write (snd (iffq_wspace f needed)) = prod_cache_write f.
Proof.
  intros Hinv.
  pose proof Hinv as ((Hm & HLe & Hlm & Hlen) & (Hpw & Hcr & Hcc & Hpc)
                      & (Hcc0 & Hccr & Hcrpw & Hpwpc & Hpccc) & (HX & HA)
                      & Hnz & Hval & Hz).
  destruct ring_geometry as (HL & HE & _).
  unfold iffq_wspace.
  destruct (needed <=? _); simpl.
  { exists pc. split; [lia|]. split; [exact Hinv|split; reflexivity]. }
  assert (Hslot : Z.land (wrap32 (prod_check f + line_entries f)) (entry_mask f)
                  = (pc * L + L) mod E).
  { rewrite Hpc, HLe, Hm, wrap32_add_l. apply slot_of_cursor, Hk. }
  rewrite Hslot.
  destruct (Z.eqb_spec (load (q f) ((pc * L + L) mod E)) 0) as [H0|Hn0]; simpl.
  - exists (pc + 1). split; [lia|]. split; [|split; reflexivity].
    apply iffq_advance_inv; [exact Hinv|].
    destruct (Z.eq_dec (pc * L + L) (cc * L + E)) as [Hfull|]; [|lia].
    exfalso. apply (Hnz (cc * L)); [lia|]. rewrite <- H0. f_equal.
    rewrite Hfull. rewrite <- Z.add_mod_idemp_r, Z.mod_same, Z.add_0_r by lia.
    reflexivity.
  - exists pc. split; [lia|]. split; [exact Hinv|split; reflexivity].
Qed.

(** Staging one value within the room. *)
Lemma iffq_insert_local_inv cc pc f A X m :
  m <> 0 -> iffq_inv_at E L cc pc f A X ->
  staging_inv L pc (Z.of_nat (length A)) f -> staging_room f = true ->
  iffq_inv_at E L cc pc (iffq_insert_local f m) A X /\
  staging_inv L pc (Z.of_nat (length A)) (iffq_insert_local f m).
Proof.
  intros Hm0 Hinv (Hw & Hlen & Hst & Hb) Hroom.
  pose proof Hinv as (_ & (Hpw & _ & _ & Hpc)
                      & (Hcc0 & Hccr & Hcrpw & Hpwpc & Hpccc) & _).
  destruct ring_geometry as (HL & HE & _).
  unfold staging_room, IFFQ_PROD_CACHE_ENTRIES in *.
  apply andb_true_iff in Hroom. destruct Hroom as [Hr1 Hr2].
  apply Z.ltb_lt in Hr1, Hr2.
  rewrite Hpc, Hpw, wrap32_sub_wrap, wrap32_small in Hr1 by lia.
  split; [apply (iffq_inv_at_ext cc pc f); try reflexivity; exact Hinv|].
  unfold staging_inv, staged, iffq_insert_local, IFFQ_PROD_CACHE_ENTRIES. simpl.
  rewrite wrap32_small, length_store by lia.
  split; [lia|]. split; [exact Hlen|]. split; [|lia].
  rewrite (seqZ_app 0 (prod_cache_write f) 1), fmap_app by lia.
  apply Forall_app. split.
  - unfold staged in Hst. revert Hst. rewrite !Forall_fmap, !Forall_seqZ.
    intros Hst i Hi. simpl. rewrite load_store_other by lia. apply Hst, Hi.
  - simpl. constructor; [|constructor]. change (Z.of_nat 0) with 0.
    rewrite !Z.add_0_l. rewrite load_store_same by lia. exact Hm0.
Qed.

Lemma iffq_publish_loop_inv cc pc X fuel : forall i f A,
  iffq_inv_at E L cc pc f A X ->
  0 <= i -> i + Z.of_nat fuel = prod_cache_write f ->
  prod_cache_write f <= IFFQ_PROD_CACHE_ENTRIES ->
  L + Z.of_nat (length A) + Z.of_nat fuel <= pc * L ->
  Forall (fun m => m <> 0) (load (prod_cache f) <$> seqZ i (Z.of_nat fuel)) ->
  iffq_inv_at E L cc pc (iffq_insert_publish_loop fuel i f)
              (A ++ (load (prod_cache f) <$> seqZ i (Z.of_nat fuel))) X /\
  prod_cache (iffq_insert_publish_loop fuel i f) = prod_cache f /\
  prod_cache_write (iffq_insert_publish_loop fuel i f) = prod_cache_write f.
Proof.
  unfold IFFQ_PROD_CACHE_ENTRIES.
  induction fuel as [|fuel IH]; intros i f A Hinv Hi Hend Hcap Hb Hnz.
  - simpl. rewrite app_nil_r. split; [exact Hinv|split; reflexivity].
  - rewrite Nat2Z.inj_succ in *. rewrite seqZ_cons in * by lia.
    replace (Z.pred (Z.succ (Z.of_nat fuel))) with (Z.of_nat fuel) in * by lia.
    replace (Z.succ i) with (i + 1) in * by lia.
    rewrite fmap_cons in *. apply Forall_cons in Hnz. destruct Hnz as [Hm0 Hnz].
    simpl iffq_insert_publish_loop.
    destruct (Z.ltb_spec i (prod_cache_write f)); [|lia].
    rewrite (wrap32_small (i + 1)) by lia.
    pose proof (iffq_store_inv cc pc f A X (load (prod_cache f) i) Hm0 Hinv
                               ltac:(lia)) as Hinv1.
    destruct (IH (i + 1) _ (A ++ [load (prod_cache f) i]) Hinv1) as (I1 & I2 & I3).
    + lia.
    + simpl. lia.
    + simpl. lia.
    + rewrite length_app, Nat2Z.inj_add. simpl. lia.
    + simpl. exact Hnz.
    + simpl in I1, I2, I3. rewrite <- app_assoc in I1. simpl in I1.
      split; [exact I1|split; assumption].
Qed.

(** [iffq_insert_publish] appends the staged values to the history. *)
Lemma iffq_insert_publish_inv cc pc f A X :
  iffq_inv_at E L cc pc f A X ->
  staging_inv L pc (Z.of_nat (length A)) f ->
  iffq_inv_at E L cc pc (iffq_insert_publish f) (A ++ staged f) X /\
  staging_inv L pc (Z.of_nat (length (A ++ staged f))) (iffq_insert_publish f).
Proof.
  intros Hinv (Hw & Hlen & Hst & Hb).
  unfold iffq_insert_publish.
  destruct (iffq_publish_loop_inv cc pc X (Z.to_nat (prod_cache_write f)) 0 f A Hinv)
    as (I1 & I2 & I3); try (rewrite ?Z2Nat.id by lia; lia).
  { rewrite Z2Nat.id by lia. exact Hst. }
  rewrite Z2Nat.id in I1 by lia. fold (staged f) in I1.
  split.
  - eapply iffq_inv_at_ext; [..|exact I1]; reflexivity.
  - unfold staging_inv, staged, IFFQ_PROD_CACHE_ENTRIES in *. simpl.
    rewrite I2, length_app, length_fmap, length_seqZ, Nat2Z.inj_add.
    repeat split; try lia. constructor.
Qed.

Lemma iffq_insert_cache f m :
  prod_cache (snd (iffq_insert f m)) = prod_cache f /\
  prod_cache_write (snd (iffq_insert f m)) = prod_cache_write f.
Proof.
  unfold iffq_insert. destruct (_ && _); [split; reflexivity|]. simpl.
  destruct (_ =? _); split; reflexivity.
Qed.

Lemma iffq_clear_loop_cache fuel s : forall f,
  prod_cache (iffq_clear_loop fuel s f) = prod_cache f /\
  prod_cache_write (iffq_clear_loop fuel s f) = prod_cache_write f.
Proof.
  induction fuel as [|fuel IH]; intros f; simpl; [split; reflexivity|].
  destruct (_ =? _); [split; reflexivity|].
  destruct (IH (set_cons_clear (wrap32 (cons_clear f + 1))
                  (set_q (store (q f) (Z.land (cons_clear f) (entry_mask f)) 0) f)))
    as [-> ->]. split; reflexivity.
Qed.

Lemma iffq_batch_run_inv ops : forall cc pc f A X f' A' X',
  iffq_inv_at E L cc pc f A X ->
  staging_inv L pc (Z.of_nat (length A)) f ->
  Forall nonzero_bop ops ->
  iffq_batch_run f A X ops = Some (f', A', X') ->
  exists cc' pc', iffq_inv_at E L cc' pc' f' A' X'.
Proof.
  induction ops as [|o ops IH]; intros cc pc f A X f' A' X' Hinv Hst Hall Hrun.
  - simpl in Hrun. injection Hrun as <- <- <-. exists cc, pc. exact Hinv.
  - apply Forall_cons in Hall. destruct Hall as [Ho Hall].
    pose proof Hst as (Hw & Hlen & _).
    destruct o as [[m| |]|needed|m|]; simpl in Hrun.
    + destruct (Z.eqb_spec (prod_cache_write f) 0) as [H0|]; [|discriminate].
      destruct (iffq_insert_cache f m) as [Hc Hcw].
      destruct (iffq_insert_inv cc pc f A X m Ho Hinv)
        as [(_ & _ & Hfail)|(f1 & pc1 & Hok & Hinv1)].
      * rewrite Hfail in Hrun. simpl in Hrun.
        exact (IH _ _ _ _ _ _ _ _ Hinv Hst Hall Hrun).
      * rewrite Hok in Hrun, Hc, Hcw. simpl in Hrun, Hc, Hcw.
        refine (IH _ _ _ _ _ _ _ _ Hinv1 _ Hall Hrun).
        apply (staging_inv_empty pc1 cc f1 (A ++ [m]) X Hinv1); congruence.
    + destruct (iffq_extract_inv cc pc f A X Hinv)
        as (_ & [(_ & Hnone)|(m & Hm0 & Hsome & Hinv1)]).
      * rewrite Hnone in Hrun. simpl in Hrun.
        exact (IH _ _ _ _ _ _ _ _ Hinv Hst Hall Hrun).
      * rewrite Hsome in Hrun.
        destruct (Z.eqb_spec m 0) as [|_]; [contradiction|].
        refine (IH _ _ _ _ _ _ _ _ Hinv1 _ Hall Hrun).
        apply (staging_inv_ext pc pc (Z.of_nat (length A)) (Z.of_nat (length A)) f); [reflexivity|reflexivity|lia|exact Hst].
    + refine (IH _ _ _ _ _ _ _ _ (iffq_clear_inv cc pc f A X Hinv) _ Hall Hrun).
      unfold iffq_clear.
      destruct (iffq_clear_loop_cache
                  (Z.to_nat (wrap32 (iffq_clear_bound f - cons_clear f)))
                  (iffq_clear_bound f) f) as [Hc Hcw].
      apply (staging_inv_ext pc pc (Z.of_nat (length A)) (Z.of_nat (length A)) f); [exact Hc|exact Hcw|lia|exact Hst].
    + destruct (iffq_wspace_inv cc pc f A X needed Hinv)
        as (pc1 & Hle & Hinv1 & Hc & Hcw).
      refine (IH _ _ _ _ _ _ _ _ Hinv1 _ Hall Hrun).
      apply (staging_inv_ext pc pc1 (Z.of_nat (length A)) (Z.of_nat (length A)) f); [exact Hc|exact Hcw| |exact Hst].
      destruct ring_geometry as (HL & _).
      pose proof (Z.mul_le_mono_nonneg_r pc pc1 L ltac:(lia) Hle). lia.
    + destruct (staging_room f) eqn:Hroom; [|discriminate].
      destruct (iffq_insert_local_inv cc pc f A X m Ho Hinv Hst Hroom)
        as [Hinv1 Hst1].
      exact (IH _ _ _ _ _ _ _ _ Hinv1 Hst1 Hall Hrun).
    + destruct (iffq_insert_publish_inv cc pc f A X Hinv Hst) as [Hinv1 Hst1].
      exact (IH _ _ _ _ _ _ _ _ Hinv1 Hst1 Hall Hrun).
Qed.

End ImprovedFifo.

Section ImprovedQueue.
Import FastForward Fifo ImprovedRun.

(** What [iffq_init] leaves in improved mode is a queue with an empty
    history: a line of garbage before the cursors, the sentinel after. *)
Lemma iffq_init_improved_inv entries line_size f :
  0 <= entries < 4294967296 -> 0 <= line_size < 2147483648 ->
  iffq_init (iffq_zeroed entries) entries line_size 1 = (0, f) ->
  exists k j, 0 <= k <= 31 /\ 0 <= j /\ 2 * 2 ^ j < 2 ^ k /\
    entries = 2 ^ k /\ line_size / sizeof_uintptr_t = 2 ^ j /\
    iffq_inv_at (2 ^ k) (2 ^ j) 0 1 f [] [].
Proof.
  intros He Hl Hinit.
  destruct (iffq_init_improved_spec entries line_size f He ltac:(lia) Hinit)
    as (k & j & Hk & Hj & HE & HL & Hm & HLe & Hpw & Hpc & Hlen & Hg & Hz
        & [Hsz|Hbad]); [|lia].
  pose proof (pow2_pos j ltac:(lia)) as HLpos.
  pose proof (pow2_le k 31 ltac:(lia)) as HEle.
  change (2 ^ 31) with 2147483648 in HEle.
  exists k, j. do 5 (split; [assumption || lia|]).
  pose proof Hinit as Hf. unfold iffq_init in Hf.
  destruct (_ || _); [discriminate|]. simpl in Hf. injection Hf as Hf.
  assert (Hlm : line_mask f = wrap32 (Z.lnot (wrap32 (line_entries f - 1))))
    by (rewrite <- Hf; reflexivity).
  assert (Hcr : cons_read f = line_entries f) by (rewrite <- Hf; reflexivity).
  assert (Hcc : cons_clear f = 0) by (rewrite <- Hf; reflexivity).
  assert (Hq : q f = iffq_init_fill (Z.to_nat (wrap32 (line_entries f - 0))) 0
                       (line_entries f) (replicate (Z.to_nat entries) 0))
    by (rewrite <- Hf; reflexivity).
  clear Hf. rewrite HLe in Hlm, Hcr, Hq.
  rewrite Z.sub_0_r, wrap32_small in Hq by lia.
  destruct (iffq_init_fill_spec (Z.to_nat (2 ^ j)) (2 ^ j) 0
              (replicate (Z.to_nat entries) 0)) as (_ & F2 & _); [lia..|].
  rewrite length_replicate, <- Hq in F2.
  unfold iffq_inv_at. change (length (@nil Z)) with 0%nat.
  change (Z.of_nat 0) with 0.
  rewrite !Z.add_0_r, Z.mul_0_l, Z.mul_1_l, Z.add_0_l.
  split; [repeat split; assumption|].
  split; [rewrite Hpw, Hcr, Hcc, Hpc, wrap32_small by lia;
          repeat split; reflexivity|].
  split; [lia|].
  split; [split; [reflexivity|constructor]|].
  split; [|split].
  - intros i Hi. rewrite Z.mod_small by lia. rewrite F2 by lia. discriminate.
  - intros i Hi. lia.
  - intros i Hi. rewrite Z.mod_small by lia. apply Hz. lia.
Qed.

Lemma iffq_insert_fst f m m' : fst (iffq_insert f m) = fst (iffq_insert f m').
Proof. unfold iffq_insert. destruct (_ && _); reflexivity. Qed.

(** X10. The improved FastForward queue is a first-in first-out queue.
    After any sequence of [iffq_insert] (of values other than 0),
    [iffq_extract] and [iffq_clear] calls on a queue freshly initialised in
    improved mode: the values extracted are, in order, the first of the
    values accepted (none lost, duplicated or reordered); the ring holds
    from [cons_read] to [prod_write] exactly the accepted values not yet
    extracted, never more than [entries] less two lines; and the next
    [iffq_extract] returns the oldest of them, or 0 when there is none. *)
Theorem iffq_fifo entries line_size f0 ops f A X :
  0 <= entries < 4294967296 -> 0 <= line_size < 2147483648 ->
  iffq_init (iffq_zeroed entries) entries line_size 1 = (0, f0) ->
  Forall nonzero_insert ops ->
  iffq_run f0 [] [] ops = (f, A, X) ->
  X = take (length X) A /\
  ffq_contents f = drop (length X) A /\
  Z.of_nat (length A) - Z.of_nat (length X)
  <= entries - 2 * (line_size / sizeof_uintptr_t) /\
  fst (iffq_extract f) = default 0 (A !! length X).
Proof.
  intros He Hl Hinit Hall Hrun.
  destruct (iffq_init_improved_inv entries line_size f0 He Hl Hinit)
    as (k & j & Hk & Hj & HLE & -> & -> & Hinv0).
  destruct (iffq_run_inv k j Hk Hj HLE ops _ _ _ _ _ _ _ _ Hinv0 Hall Hrun)
    as (cc & pc & Hinv).
  destruct (iffq_inv_contents k j Hk Hj HLE cc pc f A X Hinv) as (Hc & Hb).
  destruct (iffq_extract_inv k j Hk Hj HLE cc pc f A X Hinv) as (Hx & _).
  split; [apply Hinv|]. split; [exact Hc|]. split; [exact Hb|exact Hx].
Qed.

Lemma iffq_fifo_witness :
  ffq_contents
    (fst (fst (iffq_run (snd (iffq_init (iffq_zeroed 32) 32 64 1)) [] []
                 [Insert 5; Insert 6; Insert 7; Extract; Clear; Extract])))
  = [7].
Proof.
  refine (proj1 (proj2 (iffq_fifo 32 64 (snd (iffq_init (iffq_zeroed 32) 32 64 1))
    [Insert 5; Insert 6; Insert 7; Extract; Clear; Extract]
    (fst (fst (iffq_run (snd (iffq_init (iffq_zeroed 32) 32 64 1)) [] []
                 [Insert 5; Insert 6; Insert 7; Extract; Clear; Extract])))
    [5; 6; 7] [5; 6] _ _ _ _ _))).
  - lia.
  - lia.
  - reflexivity.
  - repeat constructor; discriminate.
  - vm_compute. reflexivity.
Defined.

(** X11. Clearing makes room.  On a queue reached as above, once
    [iffq_clear] has run, [iffq_insert] succeeds whenever the accepted
    values not yet extracted number at most [entries] less three lines:
    a producer cannot be refused for long by a consumer that extracts and
    clears. *)
Theorem iffq_clear_makes_room entries line_size f0 ops f A X m :
  0 <= entries < 4294967296 -> 0 <= line_size < 2147483648 ->
  iffq_init (iffq_zeroed entries) entries line_size 1 = (0, f0) ->
  Forall nonzero_insert ops ->
  iffq_run f0 [] [] ops = (f, A, X) ->
  Z.of_nat (length A) - Z.of_nat (length X)
  <= entries - 3 * (line_size / sizeof_uintptr_t) ->
  fst (iffq_insert (iffq_clear f) m) = 0.
Proof.
  intros He Hl Hinit Hall Hrun Hpend.
  destruct (iffq_init_improved_inv entries line_size f0 He Hl Hinit)
    as (k & j & Hk & Hj & HLE & HEk & HLj & Hinv0).
  rewrite HEk, HLj in Hpend.
  destruct (iffq_run_inv k j Hk Hj HLE ops _ _ _ _ _ _ _ _ Hinv0 Hall Hrun)
    as (cc & pc & Hinv).
  pose proof (iffq_clear_inv k j Hk Hj HLE cc pc f A X Hinv) as Hclr.
  pose proof (pow2_pos j Hj) as HL.
  pose proof (Z.mod_pos_bound (Z.of_nat (length X)) (2 ^ j) HL) as Hr.
  pose proof (Z.mod_eq (Z.of_nat (length X)) (2 ^ j) ltac:(lia)) as Hme.
  rewrite (iffq_insert_fst _ m 1).
  destruct (iffq_insert_inv k j Hk Hj HLE _ pc _ A X 1 ltac:(lia) Hclr)
    as [(Hat & Hfull & _)|(f1 & pc1 & Hok & _)].
  - exfalso. lia.
  - rewrite Hok. reflexivity.
Qed.

Lemma iffq_clear_makes_room_witness :
  fst (iffq_insert
         (iffq_clear
            (fst (fst (iffq_run (snd (iffq_init (iffq_zeroed 32) 32 64 1)) [] []
                         [Insert 5; Insert 6; Insert 7; Extract; Clear; Extract]))))
         9) = 0.
Proof.
  refine (iffq_clear_makes_room 32 64 (snd (iffq_init (iffq_zeroed 32) 32 64 1))
    [Insert 5; Insert 6; Insert 7; Extract; Clear; Extract]
    (fst (fst (iffq_run (snd (iffq_init (iffq_zeroed 32) 32 64 1)) [] []
                 [Insert 5; Insert 6; Insert 7; Extract; Clear; Extract])))
    [5; 6; 7] [5; 6] 9 _ _ _ _ _ _).
  - lia.
  - lia.
  - reflexivity.
  - repeat constructor; discriminate.
  - vm_compute. reflexivity.
  - vm_compute. discriminate.
Defined.

End ImprovedQueue.

(** ** The improved FastForward queue with staged inserts *)

Section ImprovedBatchQueue.
Import FastForward Fifo ImprovedRun ImprovedBatch.

Lemma iffq_init_staging entries line_size improved f :
  iffq_init (iffq_zeroed entries) entries line_size improved = (0, f) ->
  prod_cache_write f = 0 /\
  Z.of_nat (length (prod_cache f)) = IFFQ_PROD_CACHE_ENTRIES.
Proof.
  unfold iffq_init. destruct (_ || _); [discriminate|].
  destruct (negb (improved =? 0)); intros Hf; injection Hf as <-;
    split; reflexivity.
Qed.

(** X18. The batch interface keeps the queue first-in first-out.  On a
    queue freshly initialised in improved mode, take any sequence of
    [iffq_wspace], [iffq_insert_local], [iffq_insert_publish],
    [iffq_insert], [iffq_extract] and [iffq_clear] calls that inserts and
    stages no 0, stages a value only while fewer are staged than
    [prod_check - prod_write] (the number [iffq_wspace] returns) and than
    the 256 the buffer holds, and calls [iffq_insert] only with nothing
    staged.  Then the values extracted are, in order, the first of the
    values accepted by [iffq_insert] or written by [iffq_insert_publish];
    the ring holds from [cons_read] to [prod_write] exactly those not yet
    extracted, never more than [entries] less two lines; and the next
    [iffq_extract] returns the oldest of them, or 0 when there is none. *)
Theorem iffq_batch_fifo entries line_size f0 ops f A X :
  0 <= entries < 4294967296 -> 0 <= line_size < 2147483648 ->
  iffq_init (iffq_zeroed entries) entries line_size 1 = (0, f0) ->
  Forall nonzero_bop ops ->
  iffq_batch_run f0 [] [] ops = Some (f, A, X) ->
  X = take (length X) A /\
  ffq_contents f = drop (length X) A /\
  Z.of_nat (length A) - Z.of_nat (length X)
  <= entries - 2 * (line_size / sizeof_uintptr_t) /\
  fst (iffq_extract f) = default 0 (A !! length X).
Proof.
  intros He Hl Hinit Hall Hrun.
  destruct (iffq_init_staging entries line_size 1 f0 Hinit) as [Hcw Hclen].
  destruct (iffq_init_improved_inv entries line_size f0 He Hl Hinit)
    as (k & j & Hk & Hj & HLE & -> & -> & Hinv0).
  assert (Hst0 : staging_inv (2 ^ j) 1 (Z.of_nat (length (@nil Z))) f0)
    by (eapply staging_inv_empty; eassumption).
  destruct (iffq_batch_run_inv k j Hk Hj HLE ops _ _ _ _ _ _ _ _ Hinv0 Hst0 Hall Hrun)
    as (cc & pc & Hinv).
  destruct (iffq_inv_contents k j Hk Hj HLE cc pc f A X Hinv) as (Hc & Hb).
  destruct (iffq_extract_inv k j Hk Hj HLE cc pc f A X Hinv) as (Hx & _).
  split; [apply Hinv|]. split; [exact Hc|]. split; [exact Hb|exact Hx].
Qed.

Lemma iffq_batch_fifo_witness :
  ffq_contents
    (fst (fst (default (snd (iffq_init (iffq_zeroed 32) 32 64 1), [], [])
                 (iffq_batch_run (snd (iffq_init (iffq_zeroed 32) 32 64 1)) [] []
                    [Wspace 3; InsertLocal 5; InsertLocal 6; Plain Extract;
                     InsertPublish; Plain Extract; Plain Clear; InsertLocal 7;
                     InsertPublish]))))
  = [6; 7].
Proof.
  refine (proj1 (proj2 (iffq_batch_fifo 32 64
    (snd (iffq_init (iffq_zeroed 32) 32 64 1))
    [Wspace 3; InsertLocal 5; InsertLocal 6; Plain Extract;
     InsertPublish; Plain Extract; Plain Clear; InsertLocal 7; InsertPublish]
    (fst (fst (default (snd (iffq_init (iffq_zeroed 32) 32 64 1), [], [])
                 (iffq_batch_run (snd (iffq_init (iffq_zeroed 32) 32 64 1)) [] []
                    [Wspace 3; InsertLocal 5; InsertLocal 6; Plain Extract;
                     InsertPublish; Plain Extract; Plain Clear; InsertLocal 7;
                     InsertPublish]))))
    [5; 6; 7] [5] _ _ _ _ _))).
  - lia.
  - lia.
  - reflexivity.
  - repeat constructor; discriminate.
  - vm_compute. reflexivity.
Defined.

End ImprovedBatchQueue.

(** ** What the two initialisers accept *)

Section InitContract.
Import Lamport FastForward.

(** X16. [blq_init] accepts exactly the powers of two from 2 to 2^30.  It
    then sets [qlen] and [qmask = qlen - 1] and nothing else: the cursors
    and the slots are what the memory held.  On any other length it returns
    -1 and writes nothing. *)
Theorem blq_init_spec b n :
  - 2147483648 <= n < 2147483648 ->
  ((exists k, 1 <= k <= 30 /\ n = 2 ^ k) ->
   blq_init b n = (0, set_qmask (n - 1) (set_qlen n b))) /\
  (~ (exists k, 1 <= k <= 30 /\ n = 2 ^ k) -> blq_init b n = (-1, b)).
Proof.
  intros Hn. pose proof (blq_init_accepts b n Hn) as Hacc.
  unfold blq_init in *.
  destruct ((n <? 2) || negb (is_power_of_two n)); simpl in Hacc; split.
  - intros Hp. apply Hacc in Hp. discriminate.
  - reflexivity.
  - intros (k & Hk & ->).
    pose proof (pow2_le 1 k ltac:(lia)) as Hlo. change (2 ^ 1) with 2 in Hlo.
    pose proof (pow2_le k 30 ltac:(lia)) as Hhi.
    change (2 ^ 30) with 1073741824 in Hhi.
    rewrite !wrap32_small by lia. reflexivity.
  - intros Hnp. exfalso. apply Hnp, Hacc. reflexivity.
Qed.

Lemma blq_init_spec_witness :
  blq_init (blq_zeroed 16) 16 = (0, set_qmask 15 (set_qlen 16 (blq_zeroed 16))).
Proof.
  refine (proj1 (blq_init_spec (blq_zeroed 16) 16 _) _).
  - lia.
  - exists 4. split; [lia|reflexivity].
Defined.

(** X17. What [iffq_init] accepts, for [unsigned int] arguments: it returns
    0 exactly when [entries] is 0 or a power of two, [line_size] is a power
    of two of at least [sizeof(uintptr_t)], and, in improved mode, the ring
    in bytes exceeds [2 * line_size] as computed in 32 bits. *)
Theorem iffq_init_accepts_iff f entries line_size improved :
  0 <= entries < 4294967296 -> 0 <= line_size < 4294967296 ->
  fst (iffq_init f entries line_size improved) = 0 <->
  (entries = 0 \/ exists k, 0 <= k <= 31 /\ entries = 2 ^ k) /\
  (exists j, 3 <= j <= 31 /\ line_size = 2 ^ j) /\
  (improved <> 0 -> wrap32 (2 * line_size) < entries * sizeof_uintptr_t).
Proof.
  intros He Hl.
  assert (Hpe : is_power_of_two (to_int entries) = true <->
                entries = 0 \/ exists k, 0 <= k <= 31 /\ entries = 2 ^ k).
  { destruct (Z.eq_dec entries 0) as [->|Hne].
    - split; [intros _; left; reflexivity|reflexivity].
    - rewrite is_power_of_two_uint by lia. split; [intros H; right; exact H|].
      intros [H|H]; [contradiction|exact H]. }
  assert (Hpl : is_power_of_two (to_int line_size) = true
                /\ (line_size <? sizeof_uintptr_t) = false <->
                exists j, 3 <= j <= 31 /\ line_size = 2 ^ j).
  { unfold sizeof_uintptr_t. rewrite Z.ltb_ge. split.
    - intros [Hp H8]. apply is_power_of_two_uint in Hp; [|lia].
      destruct Hp as (j & Hj & ->). exists j. split; [|reflexivity].
      destruct (Z.lt_ge_cases j 3) as [Hc|Hc]; [|lia]. exfalso.
      pose proof (pow2_le j 2 ltac:(lia)) as H4. change (2 ^ 2) with 4 in H4. lia.
    - intros (j & Hj & ->).
      pose proof (pow2_le 3 j ltac:(lia)) as H8. change (2 ^ 3) with 8 in H8.
      pose proof (pow2_pos j ltac:(lia)).
      pose proof (pow2_le j 31 ltac:(lia)) as Hhi.
      change (2 ^ 31) with 2147483648 in Hhi.
      split; [|lia]. apply is_power_of_two_uint; [lia|].
      exists j. split; [lia|reflexivity]. }
  assert (Hsz : (negb (improved =? 0)
                 && (wrap64 (entries * sizeof_uintptr_t) <=? wrap32 (2 * line_size)))
                = false <->
                (improved <> 0 -> wrap32 (2 * line_size) < entries * sizeof_uintptr_t)).
  { unfold sizeof_uintptr_t. rewrite wrap64_small by lia.
    destruct (Z.eqb_spec improved 0) as [->|Hi]; simpl.
    - split; [intros _ H; contradiction|reflexivity].
    - rewrite Z.leb_gt. split; [intros H _; lia|intros H; apply H, Hi]. }
  unfold iffq_init.
  destruct (is_power_of_two (to_int entries)) eqn:E1;
    destruct (is_power_of_two (to_int line_size)) eqn:E2;
    destruct (negb (improved =? 0)
              && (wrap64 (entries * sizeof_uintptr_t) <=? wrap32 (2 * line_size)))
      eqn:E3;
    destruct (line_size <? sizeof_uintptr_t) eqn:E4; simpl;
    try (split; [discriminate|]; intros (H1 & H2 & H3);
         apply Hpe in H1; apply Hpl in H2; apply Hsz in H3;
         destruct H2; discriminate).
  split; [intros _|].
  - split; [apply Hpe; reflexivity|].
    split; [apply Hpl; split; reflexivity|apply Hsz; reflexivity].
  - intros _. destruct (negb (improved =? 0)); reflexivity.
Qed.

Lemma iffq_init_accepts_iff_witness :
  fst (iffq_init (iffq_zeroed 0) 0 64 0) = 0 <->
  (0 = 0 \/ exists k, 0 <= k <= 31 /\ 0 = 2 ^ k) /\
  (exists j, 3 <= j <= 31 /\ 64 = 2 ^ j) /\
  (0 <> 0 -> wrap32 (2 * 64) < 0 * sizeof_uintptr_t).
Proof.
  refine (iffq_init_accepts_iff (iffq_zeroed 0) 0 64 0 _ _).
  - lia.
  - lia.
Defined.

End InitContract.
